(** * SquirrelDB C client SDK: shallow embedding of the connection core

    This development embeds the connection/multiplexing core of
    [src/squirreldb.c]: the frame codec ([send_frame], [recv_frame]), the
    socket read loop [recv_all], the handshake [do_handshake], the session id
    formatting [uuid_to_string], the JSON field extraction used for routing
    ([json_get_string], [json_get_object]), the reader thread
    ([reader_thread_func], [dispatch_change], [dispatch_response]), the
    request path ([send_request], [next_request_id]) and the library flag
    ([sqrl_init], [sqrl_cleanup]), then the public operations built on them
    ([sqrl_connect], [sqrl_query], [sqrl_insert], ...). From
    [include/squirreldb.h] it embeds the query builder with its two
    compilers ([sqrl_query_compile], [sqrl_query_compile_structured]) and the
    RESP cache client ([resp_encode_cmd], [cache_read_line],
    [resp_read_reply], [sqrl_cache_get] and the other cache commands).
    Last, the whole public API is one state machine ([api_step]) over the
    flag and the objects a program holds.

    Modelling conventions.
    - A byte is [Byte.byte]; a fixed-width unsigned integer is a [Z] whose
      wrap-around is written out with [Z.modulo] / [Z.land].
    - The socket is a list of [sock_event]s: what successive [select] and
      [recv] calls observe.  A [EvData] chunk is what the peer has made
      available; [recv] takes at most [remaining] bytes of it.
    - The heap is explicit: a pending request is a record carrying its
      pointer identity [pr_handle]; lists keep the order of the C linked
      lists (new entries are pushed at the head).
    - [malloc] is taken to succeed, except in [sqrl_connect] (with
      [do_handshake]), [sqrl_cache_connect] and [sqrl_cache_keys], whose
      allocation outcomes are inputs ([connect_env], [calloc_ok],
      [alloc_ok]). *)

From Stdlib Require Import ZArith List Bool Lia String Ascii.
Import ListNotations.
Open Scope Z_scope.

(* ------------------------------------------------------------------------- *)
(** ** Constants and error codes ([include/squirreldb.h]) *)

Inductive sqrl_error :=
| SQRL_OK
| SQRL_ERR_CONNECT
| SQRL_ERR_HANDSHAKE
| SQRL_ERR_VERSION_MISMATCH
| SQRL_ERR_AUTH_FAILED
| SQRL_ERR_SEND
| SQRL_ERR_RECV
| SQRL_ERR_TIMEOUT
| SQRL_ERR_CLOSED
| SQRL_ERR_INVALID_ARG
| SQRL_ERR_MEMORY
| SQRL_ERR_ENCODE
| SQRL_ERR_DECODE
| SQRL_ERR_SERVER
| SQRL_ERR_NOT_FOUND.

Inductive sqrl_encoding := SQRL_ENCODING_MSGPACK | SQRL_ENCODING_JSON.

Inductive sqrl_change_type :=
| SQRL_CHANGE_INITIAL
| SQRL_CHANGE_INSERT
| SQRL_CHANGE_UPDATE
| SQRL_CHANGE_DELETE.

Definition SQRL_PROTOCOL_VERSION : Byte.byte := Byte.x01.
Definition SQRL_MAX_MESSAGE_SIZE : Z := 16 * 1024 * 1024.

Definition MSG_TYPE_REQUEST : Byte.byte := Byte.x01.
Definition MSG_TYPE_RESPONSE : Byte.byte := Byte.x02.
Definition MSG_TYPE_NOTIFICATION : Byte.byte := Byte.x03.

(** [SQRL_ENCODING_JSON] as it is written into a frame header. *)
Definition SQRL_ENCODING_JSON_byte : Byte.byte := Byte.x02.

Definition HANDSHAKE_SUCCESS : Z := 0.
Definition HANDSHAKE_VERSION_MISMATCH : Z := 1.
Definition HANDSHAKE_AUTH_FAILED : Z := 2.

(* ------------------------------------------------------------------------- *)
(** ** Byte helpers *)

Definition byte_val (b : Byte.byte) : Z := Z.of_N (Byte.to_N b).

(** [(uint8_t) z]: the low eight bits of [z]. *)
Definition byte_of_Z (z : Z) : Byte.byte :=
  match Byte.of_N (Z.to_N (Z.land z 255)) with
  | Some b => b
  | None => Byte.x00
  end.

Definition read_u32_be (buf : list Byte.byte) : Z :=
  match buf with
  | b0 :: b1 :: b2 :: b3 :: _ =>
      Z.lor (Z.lor (Z.lor (Z.shiftl (byte_val b0) 24) (Z.shiftl (byte_val b1) 16))
                   (Z.shiftl (byte_val b2) 8)) (byte_val b3)
  | _ => 0
  end.

Definition write_u32_be (val : Z) : list Byte.byte :=
  [ byte_of_Z (Z.land (Z.shiftr val 24) 255);
    byte_of_Z (Z.land (Z.shiftr val 16) 255);
    byte_of_Z (Z.land (Z.shiftr val 8) 255);
    byte_of_Z (Z.land val 255) ].

Definition write_u16_be (val : Z) : list Byte.byte :=
  [ byte_of_Z (Z.land (Z.shiftr val 8) 255); byte_of_Z (Z.land val 255) ].

(** The C string a NUL-terminated buffer denotes: its bytes up to the first
    NUL, as characters. *)
Fixpoint c_string (buf : list Byte.byte) : string :=
  match buf with
  | [] => EmptyString
  | b :: t => if Byte.eqb b Byte.x00 then EmptyString
              else String (ascii_of_byte b) (c_string t)
  end.

Definition bytes_of_string (s : string) : list Byte.byte :=
  map byte_of_ascii (list_ascii_of_string s).

(* ------------------------------------------------------------------------- *)
(** ** The socket and [recv_all] *)

Inductive sock_event :=
| EvData (chunk : list Byte.byte)  (** bytes available; [] means [recv] returns 0 *)
| EvError                          (** [select] or [recv] fails, errno not EINTR *)
| EvIntr                           (** [select] or [recv] fails with EINTR *)
| EvIdle.                          (** no data for longer than any timeout *)

Inductive errno := ETIMEDOUT | EIO | ECONNCLOSED.

Inductive recv_result :=
| RecvOk (data : list Byte.byte) (rest : list sock_event)
| RecvFail (e : errno) (rest : list sock_event)
| RecvBlocked.  (** blocks for ever: nothing arrives and no timeout is armed *)

(** The loop of [recv_all]; [acc] holds the bytes already stored in [buf].
    With [timeout_ms > 0] every iteration first [select]s: an idle peer
    fails the call with ETIMEDOUT.  With [timeout_ms <= 0] there is no
    [select] and [recv] blocks through idle periods. *)
Fixpoint recv_all_loop (evs : list sock_event) (remaining : nat)
    (acc : list Byte.byte) (timeout_ms : Z) : recv_result :=
  match remaining with
  | O => RecvOk acc evs
  | S _ =>
      match evs with
      | [] => if 0 <? timeout_ms then RecvFail ETIMEDOUT [] else RecvBlocked
      | EvIdle :: t =>
          if 0 <? timeout_ms then RecvFail ETIMEDOUT t
          else recv_all_loop t remaining acc timeout_ms
      | EvIntr :: t => recv_all_loop t remaining acc timeout_ms
      | EvError :: t => RecvFail EIO t
      | EvData [] :: t => RecvFail ECONNCLOSED t
      | EvData ch :: t =>
          if Nat.leb (List.length ch) remaining
          then recv_all_loop t (remaining - List.length ch) (acc ++ ch) timeout_ms
          else RecvOk (acc ++ firstn remaining ch) (EvData (skipn remaining ch) :: t)
      end
  end.

Definition recv_all (evs : list sock_event) (len : nat) (timeout_ms : Z) : recv_result :=
  recv_all_loop evs len [] timeout_ms.

(* ------------------------------------------------------------------------- *)
(** ** Frame codec: [send_frame] and [recv_frame] *)

(** The bytes [send_frame] hands to [send_all] for the C string [json]
    ([strlen(json)] bytes; the payload length is a [size_t], the length
    field a [uint32_t]). *)
Definition send_frame_bytes (json : list Byte.byte) : list Byte.byte :=
  let payload_len := Z.of_nat (List.length json) in
  let length := (payload_len + 2) mod 2 ^ 32 in
  write_u32_be length ++ [MSG_TYPE_REQUEST; SQRL_ENCODING_JSON_byte] ++ json.

(** [send_frame]: [send_ok] is whether [send_all] succeeded. *)
Definition send_frame (send_ok : bool) (json : list Byte.byte)
    : sqrl_error * list Byte.byte :=
  let frame := send_frame_bytes json in
  if send_ok then (SQRL_OK, frame) else (SQRL_ERR_SEND, frame).

Inductive frame_result :=
| RF_Ok (msg_type : Byte.byte) (payload : list Byte.byte) (rest : list sock_event)
| RF_Err (e : sqrl_error) (rest : list sock_event)
| RF_Blocked.

Definition recv_frame (evs : list sock_event) : frame_result :=
  match recv_all evs 6 0 with
  | RecvBlocked => RF_Blocked
  | RecvFail _ rest => RF_Err SQRL_ERR_RECV rest
  | RecvOk header rest =>
      let length := read_u32_be header in
      let msg_type := nth 4 header Byte.x00 in
      if (length <? 2) || (SQRL_MAX_MESSAGE_SIZE <? length)
      then RF_Err SQRL_ERR_DECODE rest
      else
        let payload_len := length - 2 in
        match recv_all rest (Z.to_nat payload_len) 0 with
        | RecvBlocked => RF_Blocked
        | RecvFail _ rest' => RF_Err SQRL_ERR_RECV rest'
        | RecvOk payload rest' => RF_Ok msg_type payload rest'
        end
  end.

(* ------------------------------------------------------------------------- *)
(** ** [sprintf] with the directives [uuid_to_string] uses *)

(** A format string is literal characters and [%02x] directives. *)
Inductive fmt_piece := FLit (c : ascii) | FHex02.

Fixpoint parse_fmt (s : string) : list fmt_piece :=
  match s with
  | String "%" (String "0" (String "2" (String "x" t))) => FHex02 :: parse_fmt t
  | String c t => FLit c :: parse_fmt t
  | EmptyString => []
  end.

(** Lower-case hexadecimal digit of [d] (0 <= d < 16), as [printf] writes it. *)
Definition hex_digit (d : Z) : ascii :=
  if d <? 10 then ascii_of_nat (Z.to_nat (48 + d)) else ascii_of_nat (Z.to_nat (87 + d)).

(** [%x] of a non-negative value: its hexadecimal digits, no leading zero
    ([fuel] bounds the number of digits). *)
Fixpoint hex_digits_aux (fuel : nat) (v : Z) (acc : string) : string :=
  match fuel with
  | O => acc
  | S fuel' =>
      if v <? 16 then String (hex_digit v) acc
      else hex_digits_aux fuel' (v / 16) (String (hex_digit (v mod 16)) acc)
  end.

Definition hex_digits (v : Z) : string := hex_digits_aux 16 v EmptyString.

(** [%02x]: the digits left-padded with ['0'] to width 2. *)
Definition printf_02x (v : Z) : string :=
  let d := hex_digits v in
  if (String.length d <? 2)%nat then String "0" d else d.

Fixpoint sprintf (pieces : list fmt_piece) (args : list Z) : string :=
  match pieces with
  | [] => EmptyString
  | FLit c :: ps => String c (sprintf ps args)
  | FHex02 :: ps =>
      match args with
      | a :: args' => printf_02x a ++ sprintf ps args'
      | [] => printf_02x 0 ++ sprintf ps []
      end
  end.

Definition uuid_fmt : string :=
  "%02x%02x%02x%02x-%02x%02x-%02x%02x-%02x%02x-%02x%02x%02x%02x%02x%02x".

(** [uuid_to_string(bytes, out)]: the sixteen bytes at [bytes], each
    promoted to [int]. *)
Definition uuid_to_string (bytes : list Byte.byte) : string :=
  sprintf (parse_fmt uuid_fmt) (map byte_val (firstn 16 bytes)).

(** The session id as the spec words it: the 16 bytes as 32 lower-case hex
    characters, cut into groups of 8, 4, 4, 4 and 12 joined by dashes. *)
Definition spec_hex_alphabet : string := "0123456789abcdef".

Definition spec_nibble (d : Z) : ascii :=
  match String.get (Z.to_nat d) spec_hex_alphabet with
  | Some c => c
  | None => "?"%char
  end.

Fixpoint spec_hex (bytes : list Byte.byte) : string :=
  match bytes with
  | [] => EmptyString
  | b :: t => String (spec_nibble (byte_val b / 16))
                (String (spec_nibble (byte_val b mod 16)) (spec_hex t))
  end.

Definition spec_session_id (bytes : list Byte.byte) : string :=
  let h := spec_hex bytes in
  substring 0 8 h ++ "-" ++ substring 8 4 h ++ "-" ++ substring 12 4 h ++ "-"
  ++ substring 16 4 h ++ "-" ++ substring 20 12 h.

(* ------------------------------------------------------------------------- *)
(** ** Handshake: [do_handshake] *)

Record sqrl_options := {
  auth_token : option string;
  use_msgpack : bool;
  connect_timeout_ms : Z;
  request_timeout_ms : Z
}.

Definition MAGIC : list Byte.byte := bytes_of_string "SQRL".

(** The packet [do_handshake] sends ([opts = NULL] is [None]). *)
Definition handshake_packet (opts : option sqrl_options) : list Byte.byte :=
  let token := match opts with
               | Some o => match auth_token o with Some t => t | None => EmptyString end
               | None => EmptyString
               end in
  let token_len := Z.of_nat (String.length token) in
  let flags := Z.lor (match opts with
                      | None => 1
                      | Some o => if use_msgpack o then 1 else 0
                      end) 2 in
  MAGIC ++ [SQRL_PROTOCOL_VERSION; byte_of_Z flags]
  ++ write_u16_be (token_len mod 2 ^ 16) ++ bytes_of_string token.

(** Outcome of [do_handshake]: the error code and, on [SQRL_OK], what it
    stores into [client->session_id] and [client->encoding]; or the call
    blocks for ever (a peer that stays silent when no timeout is armed). *)
Inductive handshake_outcome :=
| HS_Done (err : sqrl_error) (negotiated : option (string * sqrl_encoding))
| HS_Blocked.

(** [opts ? opts->connect_timeout_ms : 5000] *)
Definition handshake_timeout (opts : option sqrl_options) : Z :=
  match opts with Some o => connect_timeout_ms o | None => 5000 end.

Definition do_handshake (opts : option sqrl_options) (send_ok : bool)
    (evs : list sock_event) : handshake_outcome :=
  if negb send_ok then HS_Done SQRL_ERR_SEND None else
  match recv_all evs 19 (handshake_timeout opts) with
  | RecvBlocked => HS_Blocked
  | RecvFail _ _ => HS_Done SQRL_ERR_RECV None
  | RecvOk resp _ =>
      let status := byte_val (nth 0 resp Byte.x00) in
      let resp_flags := byte_val (nth 2 resp Byte.x00) in
      if status =? HANDSHAKE_VERSION_MISMATCH then HS_Done SQRL_ERR_VERSION_MISMATCH None
      else if status =? HANDSHAKE_AUTH_FAILED then HS_Done SQRL_ERR_AUTH_FAILED None
      else if negb (status =? HANDSHAKE_SUCCESS) then HS_Done SQRL_ERR_HANDSHAKE None
      else
        let session_id := uuid_to_string (skipn 3 resp) in
        let encoding := if negb (Z.land resp_flags 1 =? 0) then SQRL_ENCODING_MSGPACK
                        else SQRL_ENCODING_JSON in
        HS_Done SQRL_OK (Some (session_id, encoding))
  end.

(* ------------------------------------------------------------------------- *)
(** ** C string functions and the JSON field extraction *)

Definition quote_char : ascii := ascii_of_nat 34.
Definition tab_char : ascii := ascii_of_nat 9.
Definition newline_char : ascii := ascii_of_nat 10.
Definition quote : string := String quote_char EmptyString.

(** [strstr(hay, needle)]: the suffix of [hay] starting at the first
    occurrence of [needle]. *)
Fixpoint strstr (hay needle : string) : option string :=
  if String.prefix needle hay then Some hay
  else match hay with
       | EmptyString => None
       | String _ t => strstr t needle
       end.

(** [start + n] for a pointer into a C string. *)
Fixpoint str_drop (n : nat) (s : string) : string :=
  match n, s with
  | O, _ => s
  | S n', String _ t => str_drop n' t
  | S _, EmptyString => EmptyString
  end.

(** The characters before the first [c]: the copy made from [start] to
    [strchr(start, c)]; [None] when [strchr] returns NULL. *)
Fixpoint strchr_before (s : string) (c : ascii) : option string :=
  match s with
  | EmptyString => None
  | String x t => if Ascii.eqb x c then Some EmptyString
                  else option_map (String x) (strchr_before t c)
  end.

Fixpoint skip_chars (cs : list ascii) (s : string) : string :=
  match s with
  | String x t => if existsb (Ascii.eqb x) cs then skip_chars cs t else s
  | EmptyString => s
  end.

(** [json_get_string(json, key)] ([key] is always a short literal here,
    so [search[256]] never truncates). *)
Definition json_get_string (json key : string) : option string :=
  let search := (quote ++ key ++ quote ++ ":" ++ quote)%string in
  match strstr json search with
  | Some start => strchr_before (str_drop (String.length search) start) quote_char
  | None =>
      let search' := (quote ++ key ++ quote ++ ":")%string in
      match strstr json search' with
      | None => None
      | Some start =>
          match skip_chars [" "%char; tab_char] (str_drop (String.length search') start) with
          | String c t => if Ascii.eqb c quote_char then strchr_before t quote_char else None
          | EmptyString => None
          end
      end
  end.

(** The brace matching loop of [json_get_object]: the number of characters
    consumed until [depth] drops to 0, or [None] at the end of the string. *)
Fixpoint brace_scan (s : string) (depth : nat) : option nat :=
  match depth with
  | O => Some O
  | S d =>
      match s with
      | EmptyString => None
      | String c t =>
          let depth' := if Ascii.eqb c "{"%char then S depth
                        else if Ascii.eqb c "}"%char then d else depth in
          option_map S (brace_scan t depth')
      end
  end.

Definition json_get_object (json key : string) : option string :=
  let search := (quote ++ key ++ quote ++ ":")%string in
  match strstr json search with
  | None => None
  | Some start =>
      match skip_chars [" "%char; tab_char; newline_char]
              (str_drop (String.length search) start) with
      | String c t =>
          if Ascii.eqb c "{"%char then
            match brace_scan t 1 with
            | Some n => Some (substring 0 (S n) (String c t))
            | None => None
            end
          else None
      | EmptyString => None
      end
  end.

(* ------------------------------------------------------------------------- *)
(** ** The client ([struct sqrl_client]) *)

Record pending_request := mk_pending {
  pr_handle : nat;              (** the node's address *)
  pr_id : string;
  pr_response : option string;
  pr_completed : bool
}.

Record subscription_entry := mk_subscription {
  se_id : string;
  se_callback : nat;            (** the callback's address *)
  se_user_data : nat
}.

Record sqrl_client := mk_client {
  session_id : option string;
  encoding : sqrl_encoding;
  connected : bool;
  request_id : Z;               (** uint64_t *)
  client_request_timeout_ms : Z;
  reader_running : bool;
  pending_requests : list pending_request;
  subscriptions : list subscription_entry
}.

Definition set_connected (b : bool) (c : sqrl_client) : sqrl_client :=
  mk_client (session_id c) (encoding c) b (request_id c) (client_request_timeout_ms c)
    (reader_running c) (pending_requests c) (subscriptions c).

Definition set_request_id (v : Z) (c : sqrl_client) : sqrl_client :=
  mk_client (session_id c) (encoding c) (connected c) v (client_request_timeout_ms c)
    (reader_running c) (pending_requests c) (subscriptions c).

Definition set_pending (l : list pending_request) (c : sqrl_client) : sqrl_client :=
  mk_client (session_id c) (encoding c) (connected c) (request_id c)
    (client_request_timeout_ms c) (reader_running c) l (subscriptions c).

(** A callback invocation made by the reader thread. The event's
    [document], [new_doc] and [old_data] are never filled in by
    [dispatch_change]; only its [type] varies. *)
Record callback_call := mk_call {
  cc_callback : nat;
  cc_user_data : nat;
  cc_event_type : sqrl_change_type
}.

(* ------------------------------------------------------------------------- *)
(** ** Reader thread: [dispatch_change], [dispatch_response], [reader_thread_func] *)

Definition change_type_of (type_str : option string) : sqrl_change_type :=
  match type_str with
  | Some s =>
      if String.eqb s "initial" then SQRL_CHANGE_INITIAL
      else if String.eqb s "insert" then SQRL_CHANGE_INSERT
      else if String.eqb s "update" then SQRL_CHANGE_UPDATE
      else if String.eqb s "delete" then SQRL_CHANGE_DELETE
      else SQRL_CHANGE_INITIAL     (* [event] is zero-initialised *)
  | None => SQRL_CHANGE_INITIAL
  end.

(** [dispatch_change]: the first subscription with this id gets one call;
    the registry itself is not modified. *)
Definition dispatch_change (c : sqrl_client) (id json : string) : list callback_call :=
  match find (fun e => String.eqb (se_id e) id) (subscriptions c) with
  | Some e => [mk_call (se_callback e) (se_user_data e)
                       (change_type_of (json_get_string json "type"))]
  | None => []
  end.

Fixpoint complete_first (l : list pending_request) (id json : string)
    : list pending_request :=
  match l with
  | [] => []
  | r :: t =>
      if String.eqb (pr_id r) id
      then mk_pending (pr_handle r) (pr_id r) (Some json) true :: t
      else r :: complete_first t id json
  end.

(** [dispatch_response]: the first pending request with this id gets the
    response and is marked completed (its waiter is signalled). *)
Definition dispatch_response (c : sqrl_client) (id json : string) : sqrl_client :=
  set_pending (complete_first (pending_requests c) id json) c.

(** The body of the reader loop after a frame was decoded. *)
Definition route (c : sqrl_client) (json : string) : sqrl_client * list callback_call :=
  match json_get_string json "id", json_get_string json "type" with
  | Some msg_id, Some resp_type =>
      if String.eqb resp_type "change" then
        match json_get_object json "change" with
        | Some change_json => (c, dispatch_change c msg_id change_json)
        | None => (c, [])
        end
      else (dispatch_response c msg_id json, [])
  | _, _ => (c, [])
  end.

Inductive reader_outcome :=
| Reader_stop (c : sqrl_client)                       (** [break] *)
| Reader_continue (c : sqrl_client) (calls : list callback_call)
                  (rest : list sock_event)            (** next iteration *)
| Reader_blocked.                                     (** blocked in [recv] *)

(** One iteration of the [while (client->reader_running)] loop. *)
Definition reader_iter (c : sqrl_client) (evs : list sock_event) : reader_outcome :=
  match recv_frame evs with
  | RF_Blocked => Reader_blocked
  | RF_Err _ _ =>
      Reader_stop (if reader_running c then set_connected false c else c)
  | RF_Ok _ payload rest =>
      let json := c_string payload in
      let '(c', calls) := route c json in
      Reader_continue c' calls rest
  end.

(** The loop, for at most [fuel] iterations: the final state, whether the
    loop has exited, and the callbacks invoked on the way. *)
Fixpoint reader_loop (fuel : nat) (c : sqrl_client) (evs : list sock_event)
    : sqrl_client * bool * list callback_call :=
  match fuel with
  | O => (c, false, [])
  | S fuel' =>
      if negb (reader_running c) then (c, true, []) else
      match reader_iter c evs with
      | Reader_blocked => (c, false, [])
      | Reader_stop c' => (c', true, [])
      | Reader_continue c' calls rest =>
          let '(c'', stopped, calls') := reader_loop fuel' c' rest in
          (c'', stopped, calls ++ calls')
      end
  end.

(* ------------------------------------------------------------------------- *)
(** ** Request path: [next_request_id] and [send_request] *)

(** [%llu] of a non-negative value. *)
Fixpoint dec_digits_aux (fuel : nat) (v : Z) (acc : string) : string :=
  match fuel with
  | O => acc
  | S fuel' =>
      let d := String (ascii_of_nat (Z.to_nat (48 + v mod 10))) acc in
      if v <? 10 then d else dec_digits_aux fuel' (v / 10) d
  end.

Definition dec_string (v : Z) : string := dec_digits_aux 20 v EmptyString.

(** [next_request_id] run without interruption: [++client->request_id] on a
    [uint64_t], then its decimal rendering. *)
Definition next_request_id (c : sqrl_client) : sqrl_client * string :=
  let v := (request_id c + 1) mod 2 ^ 64 in
  (set_request_id v c, dec_string v).

(** [send_request], phase 1: the new node (address [h]) is pushed at the
    head of the pending list under [pending_mutex]. *)
Definition sr_register (c : sqrl_client) (h : nat) (id : string) : sqrl_client :=
  set_pending (mk_pending h id None false :: pending_requests c) c.

(** Unlinking the node at address [h] (both unlink sites of [send_request]). *)
Fixpoint unlink (l : list pending_request) (h : nat) : list pending_request :=
  match l with
  | [] => []
  | r :: t => if Nat.eqb (pr_handle r) h then t else r :: unlink t h
  end.

Definition sr_unlink (c : sqrl_client) (h : nat) : sqrl_client :=
  set_pending (unlink (pending_requests c) h) c.

Definition find_pending (c : sqrl_client) (h : nat) : option pending_request :=
  find (fun r => Nat.eqb (pr_handle r) h) (pending_requests c).

(** The result of [pthread_cond_timedwait]. *)
Inductive wait_ret := W_SIGNALLED | W_TIMEDOUT.

(** The head of [while (!req->completed)]: [Some] result when the loop is
    left, [None] when the caller goes (back) to waiting. *)
Definition sr_check (c : sqrl_client) (h : nat) : option (sqrl_error * option string) :=
  match find_pending c h with
  | Some r =>
      if pr_completed r then
        Some (match pr_response r with
              | Some j => (SQRL_OK, Some j)
              | None => (SQRL_ERR_RECV, None)
              end)
      else None
  | None => None
  end.

(** Return from one [pthread_cond_timedwait]: ETIMEDOUT leaves with
    [SQRL_ERR_TIMEOUT]; otherwise the loop condition is tested again. *)
Definition sr_wait_return (c : sqrl_client) (h : nat) (ret : wait_ret)
    : option (sqrl_error * option string) :=
  match ret with
  | W_TIMEDOUT => Some (SQRL_ERR_TIMEOUT, None)
  | W_SIGNALLED => sr_check c h
  end.

(** The [cleanup:] label: the node is unlinked and freed. *)
Definition sr_cleanup (c : sqrl_client) (h : nat) : sqrl_client := sr_unlink c h.

(** [++client->request_id] is a load and a store with no lock around them.
    A caller thread is idle, has loaded the counter, or has stored it back
    and obtained its id. *)
Inductive inc_state := IncIdle | IncLoaded (tmp : Z) | IncDone (v : Z).

Inductive micro := MLoad (tid : nat) | MStore (tid : nat).

Fixpoint list_set {A} (l : list A) (n : nat) (x : A) : list A :=
  match l, n with
  | [], _ => []
  | _ :: t, O => x :: t
  | y :: t, S n' => y :: list_set t n' x
  end.

Definition micro_step (st : sqrl_client * list inc_state) (m : micro)
    : sqrl_client * list inc_state :=
  let '(c, ts) := st in
  match m with
  | MLoad t =>
      match nth t ts IncIdle with
      | IncIdle => (c, list_set ts t (IncLoaded (request_id c)))
      | _ => st
      end
  | MStore t =>
      match nth t ts IncIdle with
      | IncLoaded tmp =>
          let v := (tmp + 1) mod 2 ^ 64 in
          (set_request_id v c, list_set ts t (IncDone v))
      | _ => st
      end
  end.

Definition run_micro (st : sqrl_client * list inc_state) (ms : list micro)
    : sqrl_client * list inc_state :=
  fold_left micro_step ms st.

(** The id string a caller obtained. *)
Definition obtained_id (t : inc_state) : option string :=
  match t with IncDone v => Some (dec_string v) | _ => None end.

(** The bytes a blocking reader ([timeout_ms <= 0]) can take from the
    socket: the data chunks up to the first failure or end of stream. *)
Fixpoint data_bytes (evs : list sock_event) : list Byte.byte :=
  match evs with
  | [] => []
  | EvData [] :: _ => []
  | EvData ch :: t => ch ++ data_bytes t
  | EvIntr :: t => data_bytes t
  | EvIdle :: t => data_bytes t
  | EvError :: _ => []
  end.

(** A payload of 2^32 - 2 bytes. *)
Definition oversized_json : list Byte.byte := repeat Byte.x61 (Z.to_nat (2 ^ 32 - 2)).

(** A frame header declaring [SQRL_MAX_MESSAGE_SIZE + 1] bytes. *)
Definition header_over_cap : list Byte.byte :=
  write_u32_be (SQRL_MAX_MESSAGE_SIZE + 1) ++ [MSG_TYPE_RESPONSE; SQRL_ENCODING_JSON_byte].

(** The format of [uuid_to_string], parsed once. *)
Definition uuid_pieces : list fmt_piece := Eval cbv in parse_fmt uuid_fmt.

(** The encoding a handshake response's flags indicate (bit 0: MessagePack). *)
Definition flags_encoding (resp_flags : Byte.byte) : sqrl_encoding :=
  if Z.odd (byte_val resp_flags) then SQRL_ENCODING_MSGPACK else SQRL_ENCODING_JSON.

(** A handshake response: status, server version, flags, 16-byte session id. *)
Definition sample_session : list Byte.byte :=
  [Byte.x00; Byte.x1f; Byte.x2e; Byte.x3d; Byte.x4c; Byte.x5b; Byte.x6a; Byte.x79;
   Byte.x88; Byte.x97; Byte.xa6; Byte.xb5; Byte.xc4; Byte.xd3; Byte.xe2; Byte.xff].

Definition sample_response (status : Byte.byte) : list Byte.byte :=
  [status; Byte.x01; Byte.x03] ++ sample_session.

(** A server frame carrying the JSON text [json] as a single chunk. *)
Definition server_frame (json : string) : list sock_event :=
  [EvData (write_u32_be (Z.of_nat (String.length json) + 2)
           ++ [MSG_TYPE_RESPONSE; SQRL_ENCODING_JSON_byte] ++ bytes_of_string json)].

(** [s] between double quotes. *)
Definition jstr (s : string) : string := (quote ++ s ++ quote)%string.

(** [{"type":"result","id":"9"}] *)
Definition stray_response : string :=
  ("{" ++ jstr "type" ++ ":" ++ jstr "result" ++ "," ++ jstr "id" ++ ":" ++ jstr "9" ++ "}")%string.

(** [{"type":"result","id":"1"}] *)
Definition response_for_1 : string :=
  ("{" ++ jstr "type" ++ ":" ++ jstr "result" ++ "," ++ jstr "id" ++ ":" ++ jstr "1" ++ "}")%string.

(** [{"ok":true}]: no [id] and no [type] field. *)
Definition untagged_payload : string :=
  ("{" ++ jstr "ok" ++ ":true}")%string.

(** A connected client with one request (node 7, id "1") waiting and one
    subscription (id "2"). *)
Definition sample_client : sqrl_client :=
  mk_client (Some "0001abff-1020-3040-5060-708090a0b0c0"%string) SQRL_ENCODING_JSON true 2 30000 true
    [mk_pending 7 "1"%string None false] [mk_subscription "2"%string 100 200].

(** A fresh connected client: counter 0, nothing pending. *)
Definition fresh_client : sqrl_client :=
  mk_client (Some "0001abff-1020-3040-5060-708090a0b0c0"%string) SQRL_ENCODING_JSON true 0 30000 true [] [].


(** Two callers running [next_request_id] at once: both load the counter
    before either stores it back. *)
Definition interleaved_increments : list micro := [MLoad 0; MLoad 1; MStore 0; MStore 1].

(* ------------------------------------------------------------------------- *)
(** ** Public API: [sqrl_error_string], [sqrl_options_default], [sqrl_connect] *)

(** [sqrl_error_string]; its [default: "Unknown error"] branch is for
    integers outside the enumeration, which [sqrl_error] does not have. *)
Definition sqrl_error_string (err : sqrl_error) : string :=
  match err with
  | SQRL_OK => "Success"
  | SQRL_ERR_CONNECT => "Connection failed"
  | SQRL_ERR_HANDSHAKE => "Handshake failed"
  | SQRL_ERR_VERSION_MISMATCH => "Protocol version mismatch"
  | SQRL_ERR_AUTH_FAILED => "Authentication failed"
  | SQRL_ERR_SEND => "Send failed"
  | SQRL_ERR_RECV => "Receive failed"
  | SQRL_ERR_TIMEOUT => "Timeout"
  | SQRL_ERR_CLOSED => "Connection closed"
  | SQRL_ERR_INVALID_ARG => "Invalid argument"
  | SQRL_ERR_MEMORY => "Memory allocation failed"
  | SQRL_ERR_ENCODE => "Encoding failed"
  | SQRL_ERR_DECODE => "Decoding failed"
  | SQRL_ERR_SERVER => "Server error"
  | SQRL_ERR_NOT_FOUND => "Not found"
  end.

Definition sqrl_options_default : sqrl_options :=
  {| auth_token := None; use_msgpack := true;
     connect_timeout_ms := 5000; request_timeout_ms := 30000 |}.

(** What the library and system calls of [sqrl_connect] observe, in the
    order they are made: whether the client's [calloc], [getaddrinfo],
    [socket] and [connect] succeed, then, inside [do_handshake], whether the
    packet's [malloc] and [send_all] succeed, the socket as the handshake
    reads it and whether the session id's [malloc] succeeds, and last
    whether [pthread_create] succeeds. *)
Record connect_env := mk_connect_env {
  env_calloc_ok : bool;
  env_resolve_ok : bool;
  env_socket_ok : bool;
  env_connect_ok : bool;
  env_pkt_alloc_ok : bool;
  env_hs_send_ok : bool;
  env_hs_events : list sock_event;
  env_sid_alloc_ok : bool;
  env_thread_ok : bool
}.

(** [do_handshake] with its two allocations: [malloc(pkt_len)] fails before
    anything is sent, [malloc(37)] for the session id fails at the one
    place [do_handshake] would otherwise return [SQRL_OK]; both give
    [SQRL_ERR_MEMORY]. *)
Definition do_handshake_mem (pkt_alloc_ok sid_alloc_ok : bool) (opts : option sqrl_options)
    (send_ok : bool) (evs : list sock_event) : handshake_outcome :=
  if negb pkt_alloc_ok then HS_Done SQRL_ERR_MEMORY None else
  match do_handshake opts send_ok evs with
  | HS_Done SQRL_OK (Some n) =>
      if sid_alloc_ok then HS_Done SQRL_OK (Some n) else HS_Done SQRL_ERR_MEMORY None
  | o => o
  end.

Inductive connect_outcome :=
| Conn_Done (err : sqrl_error) (client : option sqrl_client)  (** [*client_out] when [SQRL_OK] *)
| Conn_Blocked.                                                (** the handshake read never returns *)

(** [sqrl_connect]; [client_out] is whether [client_out] is non-NULL, [host]
    is [None] for NULL.  The client is [calloc]ed: counter 0, both lists
    empty.  [do_handshake] returns [SQRL_OK] only with a session id and an
    encoding, so its last case only catches its error returns. *)
Definition sqrl_connect (client_out : bool) (host : option string)
    (options : option sqrl_options) (env : connect_env) : connect_outcome :=
  if negb client_out then Conn_Done SQRL_ERR_INVALID_ARG None else
  match host with
  | None => Conn_Done SQRL_ERR_INVALID_ARG None
  | Some _ =>
      if negb (env_calloc_ok env) then Conn_Done SQRL_ERR_MEMORY None else
      let timeout := match options with
                     | Some o => request_timeout_ms o
                     | None => 30000
                     end in
      if negb (env_resolve_ok env) then Conn_Done SQRL_ERR_CONNECT None
      else if negb (env_socket_ok env) then Conn_Done SQRL_ERR_CONNECT None
      else if negb (env_connect_ok env) then Conn_Done SQRL_ERR_CONNECT None
      else
        match do_handshake_mem (env_pkt_alloc_ok env) (env_sid_alloc_ok env) options
                (env_hs_send_ok env) (env_hs_events env) with
        | HS_Blocked => Conn_Blocked
        | HS_Done SQRL_OK (Some (sid, enc)) =>
            if env_thread_ok env
            then Conn_Done SQRL_OK (Some (mk_client (Some sid) enc true 0 timeout true [] []))
            else Conn_Done SQRL_ERR_CONNECT None
        | HS_Done err _ => Conn_Done err None
        end
  end.

(* ------------------------------------------------------------------------- *)
(** ** [snprintf] with [%s] and the request JSON of the public operations *)

Definition apostrophe : ascii := ascii_of_nat 39.

(** The C format strings below are written with an apostrophe for each
    double quote. *)
Fixpoint cfmt (s : string) : string :=
  match s with
  | EmptyString => EmptyString
  | String c t => String (if Ascii.eqb c apostrophe then quote_char else c) (cfmt t)
  end.

(** The text [printf] produces for a format whose only directive is [%s]. *)
Fixpoint format_s (fmt : string) (args : list string) : string :=
  match fmt with
  | EmptyString => EmptyString
  | String c t =>
      if Ascii.eqb c "%"%char then
        match t with
        | String d t' =>
            if Ascii.eqb d "s"%char then
              match args with
              | a :: r => (a ++ format_s t' r)%string
              | [] => format_s t' []
              end
            else String c (format_s t args)
        | EmptyString => String c EmptyString
        end
      else String c (format_s t args)
  end.

(** [snprintf(buf, size, fmt, ...)] with [size >= 1]: at most [size - 1]
    characters are kept. *)
Definition snprintf (size : nat) (fmt : string) (args : list string) : string :=
  substring 0 (size - 1) (format_s fmt args).

Definition PING_FMT : string := cfmt "{'type':'ping','id':'%s'}".
Definition QUERY_FMT : string := cfmt "{'type':'query','id':'%s','query':'%s'}".
Definition INSERT_FMT : string :=
  cfmt "{'type':'insert','id':'%s','collection':'%s','data':%s}".
Definition UPDATE_FMT : string :=
  cfmt "{'type':'update','id':'%s','collection':'%s','document_id':'%s','data':%s}".
Definition DELETE_FMT : string :=
  cfmt "{'type':'delete','id':'%s','collection':'%s','document_id':'%s'}".
Definition LIST_FMT : string := cfmt "{'type':'listcollections','id':'%s'}".
Definition SUBSCRIBE_FMT : string := cfmt "{'type':'subscribe','id':'%s','query':'%s'}".
Definition UNSUBSCRIBE_FMT : string := cfmt "{'type':'unsubscribe','id':'%s'}".

(** The request each operation builds, with the buffer size it passes. *)
Definition ping_json (id : string) : string := snprintf 256 PING_FMT [id].
Definition query_json (id query : string) : string :=
  snprintf (String.length query * 2 + 256) QUERY_FMT [id; query].
Definition insert_json (id collection data : string) : string :=
  snprintf (String.length collection + String.length data + 256) INSERT_FMT
    [id; collection; data].
Definition update_json (id collection document_id data : string) : string :=
  snprintf (String.length collection + String.length document_id + String.length data + 256)
    UPDATE_FMT [id; collection; document_id; data].
Definition delete_json (id collection document_id : string) : string :=
  snprintf (String.length collection + String.length document_id + 256) DELETE_FMT
    [id; collection; document_id].
Definition list_collections_json (id : string) : string := snprintf 256 LIST_FMT [id].
Definition subscribe_json (id query : string) : string :=
  snprintf (String.length query * 2 + 256) SUBSCRIBE_FMT [id; query].
Definition unsubscribe_json (id : string) : string := snprintf 256 UNSUBSCRIBE_FMT [id].

(* ------------------------------------------------------------------------- *)
(** ** The public request operations *)

(** What [send_request] returned: [SQRL_OK] with [*response_out], or an
    error.  The operations are modelled over this outcome; [send_request]
    itself is embedded above ([sr_register] ... [sr_cleanup]). *)
Inductive submit_result := Submitted_ok (response : string) | Submitted_err (e : sqrl_error).

(** An operation's return code, the client afterwards ([None] for a NULL
    client), the request JSON it sent, and what it stored through its
    output pointer. *)
Record op_result (A : Type) := mk_op {
  op_err : sqrl_error;
  op_client : option sqrl_client;
  op_sent : option string;
  op_out : option A
}.
Arguments mk_op {A}.
Arguments op_err {A}.
Arguments op_client {A}.
Arguments op_sent {A}.
Arguments op_out {A}.

Record sqrl_document := mk_document {
  doc_id : option string;
  doc_collection : option string;
  doc_data : option string;
  doc_created_at : option string;
  doc_updated_at : option string
}.

Definition parse_document (json : string) : sqrl_document :=
  mk_document (json_get_string json "id") (json_get_string json "collection")
    (json_get_object json "data") (json_get_string json "created_at")
    (json_get_string json "updated_at").

(** [resp_type && strcmp(resp_type, "error") == 0] *)
Definition response_is_error (response : string) : bool :=
  match json_get_string response "type" with
  | Some t => String.eqb t "error"
  | None => false
  end.

Definition sqrl_ping (c : option sqrl_client) (submit : string -> string -> submit_result)
    : op_result unit :=
  match c with
  | None => mk_op SQRL_ERR_CLOSED c None None
  | Some cl =>
      if negb (connected cl) then mk_op SQRL_ERR_CLOSED c None None else
      let '(cl', id) := next_request_id cl in
      let json := ping_json id in
      match submit json id with
      | Submitted_err e => mk_op e (Some cl') (Some json) None
      | Submitted_ok response =>
          match json_get_string response "type" with
          | Some t => if String.eqb t "pong" then mk_op SQRL_OK (Some cl') (Some json) None
                      else mk_op SQRL_ERR_SERVER (Some cl') (Some json) None
          | None => mk_op SQRL_ERR_SERVER (Some cl') (Some json) None
          end
      end
  end.

Definition DATA_KEY : string := (quote ++ "data" ++ quote ++ ":")%string.

Fixpoint drop_closers (l : list ascii) : list ascii :=
  match l with
  | c :: t => if Ascii.eqb c "}"%char || Ascii.eqb c newline_char then drop_closers t else l
  | [] => []
  end.

(** [while (len > 0 && (data[len-1] == '}' || data[len-1] == '\n')) data[--len] = '\0';] *)
Definition strip_trailing (s : string) : string :=
  string_of_list_ascii (rev (drop_closers (rev (list_ascii_of_string s)))).

(** The result [sqrl_query] stores for a successful, non-error response. *)
Definition query_data (response : string) : string :=
  match json_get_object response "data" with
  | Some d => d
  | None =>
      match strstr response DATA_KEY with
      | Some s => strip_trailing (skip_chars [" "%char] (str_drop 7 s))
      | None => "null"
      end
  end.

Definition sqrl_query (c : option sqrl_client) (query : option string) (result_out : bool)
    (submit : string -> string -> submit_result) : op_result string :=
  match c, query with
  | Some cl, Some q =>
      if negb result_out then mk_op SQRL_ERR_INVALID_ARG c None None else
      if negb (connected cl) then mk_op SQRL_ERR_CLOSED c None None else
      let '(cl', id) := next_request_id cl in
      let json := query_json id q in
      match submit json id with
      | Submitted_err e => mk_op e (Some cl') (Some json) None
      | Submitted_ok response =>
          if response_is_error response then mk_op SQRL_ERR_SERVER (Some cl') (Some json) None
          else mk_op SQRL_OK (Some cl') (Some json) (Some (query_data response))
      end
  | _, _ => mk_op SQRL_ERR_INVALID_ARG c None None
  end.

Definition sqrl_insert (c : option sqrl_client) (collection data : option string)
    (doc_out : bool) (submit : string -> string -> submit_result)
    : op_result sqrl_document :=
  match c, collection, data with
  | Some cl, Some coll, Some d =>
      if negb doc_out then mk_op SQRL_ERR_INVALID_ARG c None None else
      if negb (connected cl) then mk_op SQRL_ERR_CLOSED c None None else
      let '(cl', id) := next_request_id cl in
      let json := insert_json id coll d in
      match submit json id with
      | Submitted_err e => mk_op e (Some cl') (Some json) None
      | Submitted_ok response =>
          if response_is_error response then mk_op SQRL_ERR_SERVER (Some cl') (Some json) None
          else match json_get_object response "data" with
               | None => mk_op SQRL_ERR_DECODE (Some cl') (Some json) None
               | Some doc_json =>
                   mk_op SQRL_OK (Some cl') (Some json) (Some (parse_document doc_json))
               end
      end
  | _, _, _ => mk_op SQRL_ERR_INVALID_ARG c None None
  end.

Definition sqrl_update (c : option sqrl_client) (collection document_id data : option string)
    (doc_out : bool) (submit : string -> string -> submit_result)
    : op_result sqrl_document :=
  match c, collection, document_id, data with
  | Some cl, Some coll, Some did, Some d =>
      if negb doc_out then mk_op SQRL_ERR_INVALID_ARG c None None else
      if negb (connected cl) then mk_op SQRL_ERR_CLOSED c None None else
      let '(cl', id) := next_request_id cl in
      let json := update_json id coll did d in
      match submit json id with
      | Submitted_err e => mk_op e (Some cl') (Some json) None
      | Submitted_ok response =>
          if response_is_error response then mk_op SQRL_ERR_SERVER (Some cl') (Some json) None
          else match json_get_object response "data" with
               | None => mk_op SQRL_ERR_DECODE (Some cl') (Some json) None
               | Some doc_json =>
                   mk_op SQRL_OK (Some cl') (Some json) (Some (parse_document doc_json))
               end
      end
  | _, _, _, _ => mk_op SQRL_ERR_INVALID_ARG c None None
  end.

(** [sqrl_delete]: [doc_out] may be NULL; when it is not, [Some None] is a
    stored NULL. *)
Definition sqrl_delete (c : option sqrl_client) (collection document_id : option string)
    (doc_out : bool) (submit : string -> string -> submit_result)
    : op_result (option sqrl_document) :=
  match c, collection, document_id with
  | Some cl, Some coll, Some did =>
      if negb (connected cl) then mk_op SQRL_ERR_CLOSED c None None else
      let '(cl', id) := next_request_id cl in
      let json := delete_json id coll did in
      match submit json id with
      | Submitted_err e => mk_op e (Some cl') (Some json) None
      | Submitted_ok response =>
          if response_is_error response then mk_op SQRL_ERR_SERVER (Some cl') (Some json) None
          else if doc_out then
            mk_op SQRL_OK (Some cl') (Some json)
              (Some (option_map parse_document (json_get_object response "data")))
          else mk_op SQRL_OK (Some cl') (Some json) None
      end
  | _, _, _ => mk_op SQRL_ERR_INVALID_ARG c None None
  end.

(** [p++] when [*p] is not NUL. *)
Definition step1 (s : string) : string :=
  match s with EmptyString => EmptyString | String _ t => t end.

(** [while ( *p && *p != c) p++;] *)
Fixpoint skip_until (c : ascii) (s : string) : string :=
  match s with
  | EmptyString => s
  | String x t => if Ascii.eqb x c then s else skip_until c t
  end.

(** The counting loop of [sqrl_list_collections] ([fuel] bounds the
    iterations; each one consumes a character). *)
Fixpoint lc_count (fuel : nat) (p : string) (count : nat) : nat :=
  match fuel with
  | O => count
  | S f =>
      match p with
      | EmptyString => count
      | String x t =>
          if Ascii.eqb x "]"%char then count else
          if Ascii.eqb x quote_char then lc_count f (step1 (skip_until quote_char t)) (S count)
          else lc_count f t count
      end
  end.

(** The copying loop: [remaining] is [count - i]; the names copied, in
    order. *)
Fixpoint lc_extract (fuel : nat) (p : string) (remaining : nat) : list string :=
  match fuel with
  | O => []
  | S f =>
      match p with
      | EmptyString => []
      | String x t =>
          if Ascii.eqb x "]"%char then [] else
          match remaining with
          | O => []
          | S r =>
              if Ascii.eqb x quote_char then
                match strchr_before t quote_char with
                | Some name => name :: lc_extract f (step1 (str_drop (String.length name) t)) r
                | None => lc_extract f (step1 t) remaining
                end
              else lc_extract f t remaining
          end
      end
  end.

(** [*names_out] ([None] for NULL) and [*count_out] from a non-error
    response. *)
Definition list_collections_parse (response : string) : option (list string) * nat :=
  match strstr response DATA_KEY with
  | None => (None, O)
  | Some s =>
      let data := skip_chars [" "%char; "["%char] (str_drop 7 s) in
      let count := lc_count (S (String.length data)) data O in
      if Nat.eqb count O then (None, O)
      else let names := lc_extract (S (String.length data)) data count in
           (Some names, List.length names)
  end.

Definition sqrl_list_collections (c : option sqrl_client) (names_out count_out : bool)
    (submit : string -> string -> submit_result) : op_result (option (list string) * nat) :=
  match c with
  | Some cl =>
      if negb names_out || negb count_out then mk_op SQRL_ERR_INVALID_ARG c None None else
      if negb (connected cl) then mk_op SQRL_ERR_CLOSED c None None else
      let '(cl', id) := next_request_id cl in
      let json := list_collections_json id in
      match submit json id with
      | Submitted_err e => mk_op e (Some cl') (Some json) None
      | Submitted_ok response =>
          if response_is_error response then mk_op SQRL_ERR_SERVER (Some cl') (Some json) None
          else mk_op SQRL_OK (Some cl') (Some json) (Some (list_collections_parse response))
      end
  | None => mk_op SQRL_ERR_INVALID_ARG c None None
  end.

Definition set_subscriptions (l : list subscription_entry) (c : sqrl_client) : sqrl_client :=
  mk_client (session_id c) (encoding c) (connected c) (request_id c)
    (client_request_timeout_ms c) (reader_running c) (pending_requests c) l.

(** [sqrl_subscribe]: the entry is pushed at the head of the registry under
    [subs_mutex]; the handle returned holds the request id. *)
Definition sqrl_subscribe (c : option sqrl_client) (query : option string)
    (callback : option nat) (user_data : nat) (sub_out : bool)
    (submit : string -> string -> submit_result) : op_result string :=
  match c, query, callback with
  | Some cl, Some q, Some cb =>
      if negb sub_out then mk_op SQRL_ERR_INVALID_ARG c None None else
      if negb (connected cl) then mk_op SQRL_ERR_CLOSED c None None else
      let '(cl', id) := next_request_id cl in
      let json := subscribe_json id q in
      match submit json id with
      | Submitted_err e => mk_op e (Some cl') (Some json) None
      | Submitted_ok response =>
          if response_is_error response then mk_op SQRL_ERR_SERVER (Some cl') (Some json) None
          else
            let cl'' := set_subscriptions (mk_subscription id cb user_data :: subscriptions cl') cl' in
            mk_op SQRL_OK (Some cl'') (Some json) (Some id)
      end
  | _, _, _ => mk_op SQRL_ERR_INVALID_ARG c None None
  end.

(** The unlink loop of [sqrl_unsubscribe]: the first entry with the id. *)
Fixpoint remove_subscription (l : list subscription_entry) (id : string)
    : list subscription_entry :=
  match l with
  | [] => []
  | e :: t => if String.eqb (se_id e) id then t else e :: remove_subscription t id
  end.

(** [sqrl_unsubscribe]: [sub] is [sub->id] ([None] for a NULL handle), [c]
    is [sub->client].  The [send_frame] result is ignored. *)
Definition sqrl_unsubscribe (sub : option string) (c : option sqrl_client) : op_result unit :=
  match sub, c with
  | Some id, Some cl =>
      let cl' := set_subscriptions (remove_subscription (subscriptions cl) id) cl in
      if connected cl' then mk_op SQRL_OK (Some cl') (Some (unsubscribe_json id)) None
      else mk_op SQRL_OK (Some cl') None None
  | _, _ => mk_op SQRL_ERR_INVALID_ARG c None None
  end.

(* ------------------------------------------------------------------------- *)
(** ** Correlation ids in sequence *)

(** The value of a decimal digit string (as [strtoull] reads it). *)
Fixpoint parse_dec_aux (s : string) (acc : Z) : Z :=
  match s with
  | EmptyString => acc
  | String c t => parse_dec_aux t (acc * 10 + (Z.of_nat (nat_of_ascii c) - 48))
  end.

Definition parse_dec (s : string) : Z := parse_dec_aux s 0.

(** The ids [k] successive uninterrupted [next_request_id] calls return. *)
Fixpoint next_ids (k : nat) (c : sqrl_client) : list string :=
  match k with
  | O => []
  | S k' => let '(c', id) := next_request_id c in id :: next_ids k' c'
  end.

(* ------------------------------------------------------------------------- *)
(** ** Auxiliary notions for stating properties *)

(** [opts && opts->auth_token ? opts->auth_token] or the empty string *)
Definition handshake_token (opts : option sqrl_options) : string :=
  match opts with
  | Some o => match auth_token o with Some t => t | None => EmptyString end
  | None => EmptyString
  end.

(** The number of occurrences of [c] in [s]. *)
Fixpoint count_char (c : ascii) (s : string) : nat :=
  match s with
  | EmptyString => O
  | String x t => (if Ascii.eqb x c then 1 else 0) + count_char c t
  end.

(** A JSON array of strings as a server writes it: [["a","b"]]. *)
Definition json_string_array (names : list string) : string :=
  ("[" ++ String.concat "," (map jstr names) ++ "]")%string.

(** The string has no double quote. *)
Definition quote_free (s : string) : Prop := ~ In quote_char (list_ascii_of_string s).

(* ------------------------------------------------------------------------- *)
(** ** The query builder of [squirreldb.h] *)

Definition MAX_FILTERS : nat := 32.
Definition MAX_SORTS : nat := 8.
Definition BUFFER_SIZE : Z := 4096.

Definition nul_char : ascii := ascii_of_nat 0.
Definition backslash_char : ascii := ascii_of_nat 92.

(** The characters of a [const char *] argument: those before its first NUL. *)
Fixpoint c_str (s : string) : string :=
  match s with
  | EmptyString => EmptyString
  | String c t => if Ascii.eqb c nul_char then EmptyString else String c (c_str t)
  end.

(** [strncpy(dst, src, n)] into a zeroed field of more than [n] bytes: the C
    string left in [dst]. *)
Definition strncpy_field (n : nat) (src : string) : string :=
  substring 0 n (c_str src).

(** The loop of [escape_json_string]: [j] is the number of bytes written,
    [lim] is [buf_size - 2]. *)
Fixpoint escape_loop (s : string) (j lim : Z) : string :=
  match s with
  | EmptyString => EmptyString
  | String c t =>
      if Ascii.eqb c nul_char then EmptyString
      else if j <? lim then
        if Ascii.eqb c quote_char || Ascii.eqb c backslash_char
        then String backslash_char (String c (escape_loop t (j + 2) lim))
        else String c (escape_loop t (j + 1) lim)
      else EmptyString
  end.

(** [escape_json_string(str, buf, buf_size)]: the C string left in [buf];
    [buf_size - 2] is computed on [size_t]. *)
Definition escape_json_string (str : string) (buf_size : Z) : string :=
  escape_loop str 0 ((buf_size - 2) mod 2 ^ 64).

(** Reference definitions for stating what [escape_json_string] produces:
    the escaping with no bound, and the JSON reading of backslash escapes. *)
Fixpoint json_escape (s : string) : string :=
  match s with
  | EmptyString => EmptyString
  | String c t =>
      if Ascii.eqb c quote_char || Ascii.eqb c backslash_char
      then String backslash_char (String c (json_escape t))
      else String c (json_escape t)
  end.

Fixpoint json_unescape (s : string) : string :=
  match s with
  | EmptyString => EmptyString
  | String c t =>
      if Ascii.eqb c backslash_char then
        match t with
        | String d t' => String d (json_unescape t')
        | EmptyString => EmptyString
        end
      else String c (json_unescape t)
  end.

Inductive sqrl_sort_dir := SQRL_ASC | SQRL_DESC.

Record filter_entry := mk_filter {
  f_field : string;
  f_op : string;
  f_value : string
}.

Record sort_entry := mk_sort {
  s_field : string;
  s_direction : sqrl_sort_dir
}.

(** [struct sqrl_query]; [filter_count] and [sort_count] are the lengths of
    [filters] and [sorts]. *)
Record sqrl_query_t := mk_query {
  table_name : string;
  filters : list filter_entry;
  sorts : list sort_entry;
  limit_value : Z;
  skip_value : Z;
  has_limit : bool;
  has_skip : bool;
  is_changes : bool
}.

(** [sqrl_table]; the [calloc] is assumed to succeed. *)
Definition sqrl_table (table_name : option string) : option sqrl_query_t :=
  match table_name with
  | None => None
  | Some t => Some (mk_query (strncpy_field 255 t) [] [] 0 0 false false false)
  end.

Definition add_filter (query : option sqrl_query_t) (field op value : string)
    : option sqrl_query_t :=
  match query with
  | None => None
  | Some q =>
      if (MAX_FILTERS <=? List.length (filters q))%nat then Some q
      else Some (mk_query (table_name q)
                   (filters q ++ [mk_filter (strncpy_field 127 field)
                                   (strncpy_field 15 op) (strncpy_field 511 value)])
                   (sorts q) (limit_value q) (skip_value q)
                   (has_limit q) (has_skip q) (is_changes q))
  end.

(** The body shared by [sqrl_find_eq_str], [sqrl_find_ne_str],
    [sqrl_find_contains], [sqrl_find_starts_with] and [sqrl_find_ends_with]:
    the value escaped into [escaped[512]], then [snprintf(buf, 520, ...)] of it between double quotes. *)
Definition find_str (op : string) (query : option sqrl_query_t) (field value : string)
    : option sqrl_query_t :=
  let escaped := escape_json_string value 512 in
  let buf := substring 0 519 (quote ++ escaped ++ quote) in
  add_filter query field op buf.

Definition sqrl_find_eq_str := find_str "$eq".
Definition sqrl_find_ne_str := find_str "$ne".
Definition sqrl_find_contains := find_str "$contains".
Definition sqrl_find_starts_with := find_str "$startsWith".
Definition sqrl_find_ends_with := find_str "$endsWith".

(** [%ld] of a [long]. *)
Definition ld_string (v : Z) : string :=
  if v <? 0 then ("-" ++ dec_string (- v))%string else dec_string v.

Definition sqrl_find_eq_int (query : option sqrl_query_t) (field : string) (value : Z) :=
  add_filter query field "$eq" (substring 0 63 (ld_string value)).

Definition sqrl_find_ne_int (query : option sqrl_query_t) (field : string) (value : Z) :=
  add_filter query field "$ne" (substring 0 63 (ld_string value)).

Definition sqrl_find_eq_bool (query : option sqrl_query_t) (field : string) (value : bool) :=
  add_filter query field "$eq" (if value then "true" else "false").

Definition sqrl_find_exists (query : option sqrl_query_t) (field : string) (exists_ : bool) :=
  add_filter query field "$exists" (if exists_ then "true" else "false").

Definition sqrl_sort (query : option sqrl_query_t) (field : string) (direction : sqrl_sort_dir)
    : option sqrl_query_t :=
  match query with
  | None => None
  | Some q =>
      if (MAX_SORTS <=? List.length (sorts q))%nat then Some q
      else Some (mk_query (table_name q) (filters q)
                   (sorts q ++ [mk_sort (strncpy_field 127 field) direction])
                   (limit_value q) (skip_value q) (has_limit q) (has_skip q) (is_changes q))
  end.

Definition sqrl_limit (query : option sqrl_query_t) (n : Z) : option sqrl_query_t :=
  match query with
  | None => None
  | Some q => Some (mk_query (table_name q) (filters q) (sorts q) n (skip_value q)
                     true (has_skip q) (is_changes q))
  end.

Definition sqrl_skip (query : option sqrl_query_t) (n : Z) : option sqrl_query_t :=
  match query with
  | None => None
  | Some q => Some (mk_query (table_name q) (filters q) (sorts q) (limit_value q) n
                     (has_limit q) true (is_changes q))
  end.

Definition sqrl_changes (query : option sqrl_query_t) : option sqrl_query_t :=
  match query with
  | None => None
  | Some q => Some (mk_query (table_name q) (filters q) (sorts q) (limit_value q)
                     (skip_value q) (has_limit q) (has_skip q) true)
  end.

(** The text each [snprintf] of [sqrl_query_compile] formats. *)
Definition filter_js (f : filter_entry) : string :=
  let fd := f_field f in
  let v := f_value f in
  if string_dec (f_op f) "$eq" then ("doc." ++ fd ++ " === " ++ v)%string
  else if string_dec (f_op f) "$ne" then ("doc." ++ fd ++ " !== " ++ v)%string
  else if string_dec (f_op f) "$gt" then ("doc." ++ fd ++ " > " ++ v)%string
  else if string_dec (f_op f) "$gte" then ("doc." ++ fd ++ " >= " ++ v)%string
  else if string_dec (f_op f) "$lt" then ("doc." ++ fd ++ " < " ++ v)%string
  else if string_dec (f_op f) "$lte" then ("doc." ++ fd ++ " <= " ++ v)%string
  else if string_dec (f_op f) "$contains" then ("doc." ++ fd ++ ".includes(" ++ v ++ ")")%string
  else if string_dec (f_op f) "$startsWith" then ("doc." ++ fd ++ ".startsWith(" ++ v ++ ")")%string
  else if string_dec (f_op f) "$endsWith" then ("doc." ++ fd ++ ".endsWith(" ++ v ++ ")")%string
  else if string_dec (f_op f) "$exists" then
    if string_dec v "true" then ("doc." ++ fd ++ " !== undefined")%string
    else ("doc." ++ fd ++ " === undefined")%string
  else "true".

(** The filter loop: [" && "%string] before every entry but the first ([i > 0]). *)
Fixpoint filter_pieces (i : nat) (fs : list filter_entry) : list string :=
  match fs with
  | [] => []
  | f :: t => (if (0 <? i)%nat then [" && "%string] else []) ++ filter_js f :: filter_pieces (S i) t
  end.

Definition sort_js (s : sort_entry) : string :=
  match s_direction s with
  | SQRL_DESC => (".orderBy(" ++ quote ++ s_field s ++ quote ++ ", " ++ quote ++ "desc" ++ quote ++ ")")%string
  | SQRL_ASC => (".orderBy(" ++ quote ++ s_field s ++ quote ++ ")")%string
  end.

(** The texts of the [snprintf] calls whose results advance [p], in order. *)
Definition js_pieces (q : sqrl_query_t) : list string :=
  [("db.table(" ++ quote ++ table_name q ++ quote ++ ")")%string]
  ++ (match filters q with
      | [] => []
      | fs => ".filter(doc => "%string :: filter_pieces 0 fs ++ [")"%string]
      end)
  ++ map sort_js (sorts q)
  ++ (if has_limit q then [(".limit(" ++ dec_string (limit_value q) ++ ")")%string] else [])
  ++ (if has_skip q then [(".skip(" ++ dec_string (skip_value q) ++ ")")%string] else []).

(** The last [snprintf], whose result is not used. *)
Definition js_last (q : sqrl_query_t) : string :=
  if is_changes q then ".changes()" else ".run()".

(** The same for [sqrl_query_compile_structured]. *)
Fixpoint struct_filter_pieces (i : nat) (fs : list filter_entry) : list string :=
  match fs with
  | [] => []
  | f :: t =>
      (if (0 <? i)%nat then [","%string] else [])
      ++ (quote ++ f_field f ++ quote ++ ":{" ++ quote ++ f_op f ++ quote ++ ":" ++ f_value f ++ "}")%string
      :: struct_filter_pieces (S i) t
  end.

Fixpoint struct_sort_pieces (i : nat) (ss : list sort_entry) : list string :=
  match ss with
  | [] => []
  | s :: t =>
      (if (0 <? i)%nat then [","%string] else [])
      ++ ("{" ++ quote ++ "field" ++ quote ++ ":" ++ quote ++ s_field s ++ quote ++ ","
          ++ quote ++ "direction" ++ quote ++ ":" ++ quote
          ++ (match s_direction s with SQRL_DESC => "desc" | SQRL_ASC => "asc" end)
          ++ quote ++ "}")%string
      :: struct_sort_pieces (S i) t
  end.

Definition struct_pieces (q : sqrl_query_t) : list string :=
  [("{" ++ quote ++ "table" ++ quote ++ ":" ++ quote ++ table_name q ++ quote)%string]
  ++ (match filters q with
      | [] => []
      | fs => ("," ++ quote ++ "filter" ++ quote ++ ":{")%string
              :: struct_filter_pieces 0 fs ++ ["}"%string]
      end)
  ++ (match sorts q with
      | [] => []
      | ss => ("," ++ quote ++ "sort" ++ quote ++ ":[")%string
              :: struct_sort_pieces 0 ss ++ ["]"%string]
      end)
  ++ (if has_limit q then [("," ++ quote ++ "limit" ++ quote ++ ":" ++ dec_string (limit_value q))%string] else [])
  ++ (if has_skip q then [("," ++ quote ++ "skip" ++ quote ++ ":" ++ dec_string (skip_value q))%string] else [])
  ++ (if is_changes q then [("," ++ quote ++ "changes" ++ quote ++ ":{" ++ quote ++ "includeInitial"
                             ++ quote ++ ":false}")%string] else []).

Definition struct_last : string := "}".

(** The bytes at each offset from [buf]: the [malloc]ed [BUFFER_SIZE] bytes
    and whatever follows them. *)
Definition memory := Z -> ascii.

Definition mem_write (m : memory) (off : Z) (bytes : string) : memory :=
  fun a =>
    if (off <=? a) && (a <? off + Z.of_nat (String.length bytes)) then
      match String.get (Z.to_nat (a - off)) bytes with Some c => c | None => m a end
    else m a.

(** [snprintf(p, remaining, ...)] whose full text is [s], with [p] at offset
    [off]: nothing is written when [remaining] is 0, otherwise at most
    [remaining - 1] characters and a NUL. The flag is set when a written byte
    lies outside the [BUFFER_SIZE] bytes of [buf]. *)
Definition snprintf_at (m : memory) (off rem : Z) (s : string) : memory * bool :=
  if rem =? 0 then (m, false)
  else
    let kept := if Z.of_nat (String.length s) <? rem then s
                else substring 0 (Z.to_nat (rem - 1)) s in
    let w := (kept ++ String nul_char EmptyString)%string in
    (mem_write m off w, (off <? 0) || (BUFFER_SIZE <? off + Z.of_nat (String.length w))).

(** The [n = snprintf(p, remaining, ...); p += n; remaining -= n;] chain, with
    [remaining] a [size_t], ended by a last [snprintf] whose result is not
    used. *)
Fixpoint snprintf_chain (m : memory) (off rem : Z) (pieces : list string) (last : string)
    : memory * bool :=
  match pieces with
  | [] => snprintf_at m off rem last
  | s :: t =>
      let (m1, o1) := snprintf_at m off rem s in
      let n := Z.of_nat (String.length s) in
      let (m2, o2) := snprintf_chain m1 (off + n) ((rem - n) mod 2 ^ 64) t last in
      (m2, o1 || o2)
  end.

(** The C string at offset [a], read within [fuel] bytes. *)
Fixpoint read_c_string (m : memory) (a : Z) (fuel : nat) : string :=
  match fuel with
  | O => EmptyString
  | S f => if Ascii.eqb (m a) nul_char then EmptyString else String (m a) (read_c_string m (a + 1) f)
  end.

(** [sqrl_query_compile] on a heap whose bytes are [heap]; the [malloc] is
    assumed to succeed. The result is the C string at [buf] and whether a
    byte was written outside the buffer. *)
Definition sqrl_query_compile (heap : memory) (query : option sqrl_query_t)
    : option (string * bool) :=
  match query with
  | None => None
  | Some q =>
      let (m, oob) := snprintf_chain heap 0 BUFFER_SIZE (js_pieces q) (js_last q) in
      Some (read_c_string m 0 (Z.to_nat BUFFER_SIZE), oob)
  end.

Definition sqrl_query_compile_structured (heap : memory) (query : option sqrl_query_t)
    : option (string * bool) :=
  match query with
  | None => None
  | Some q =>
      let (m, oob) := snprintf_chain heap 0 BUFFER_SIZE (struct_pieces q) struct_last in
      Some (read_c_string m 0 (Z.to_nat BUFFER_SIZE), oob)
  end.

(** The bounds the builder keeps on a query: the [strncpy] sizes of the
    fields, [MAX_FILTERS], [MAX_SORTS], no NUL inside a stored string, and
    [size_t] values for [limit] and [skip]. *)
Definition field_okb (n : nat) (s : string) : bool :=
  String.eqb (c_str s) s && (String.length s <=? n)%nat.

Definition query_wfb (q : sqrl_query_t) : bool :=
  field_okb 255 (table_name q)
  && (List.length (filters q) <=? MAX_FILTERS)%nat
  && forallb (fun f => field_okb 127 (f_field f) && field_okb 15 (f_op f)
                       && field_okb 511 (f_value f)) (filters q)
  && (List.length (sorts q) <=? MAX_SORTS)%nat
  && forallb (fun s => field_okb 127 (s_field s)) (sorts q)
  && (0 <=? limit_value q) && (limit_value q <? 2 ^ 64)
  && (0 <=? skip_value q) && (skip_value q <? 2 ^ 64).

Definition query_opt_wfb (query : option sqrl_query_t) : bool :=
  match query with Some q => query_wfb q | None => true end.

(* ------------------------------------------------------------------------- *)
(** ** The RESP cache client of [squirreldb.h] *)

Definition CACHE_RECV_BUF_SIZE : nat := 4096.
Definition CACHE_SEND_BUF_SIZE : Z := 4096.

Definition cr_char : ascii := ascii_of_nat 13.
Definition lf_char : ascii := ascii_of_nat 10.
Definition crlf : string := String cr_char (String lf_char EmptyString).

(** The text [snprintf] makes of the format ["$%zu\r\n%s\r\n"] for one
    argument, and of ["*%d\r\n"] for the argument count. *)
Definition resp_bulk_piece (arg : string) : string :=
  let a := c_str arg in
  ("$" ++ dec_string (Z.of_nat (String.length a)) ++ crlf ++ a ++ crlf)%string.

Definition resp_cmd_header (argc : nat) : string :=
  ("*" ++ ld_string (Z.of_nat argc) ++ crlf)%string.

(** [resp_encode_cmd(buf, bufsize, argc, ...)]: [None] for [-1], otherwise
    the text left in [buf], whose length is the value returned. Each
    [snprintf] that passes its check has written its whole text. *)
Fixpoint resp_encode_args (bufsize written : Z) (args : list string) : option string :=
  match args with
  | [] => Some EmptyString
  | arg :: t =>
      let piece := resp_bulk_piece arg in
      let n := Z.of_nat (String.length piece) in
      if bufsize <=? written + n then None
      else match resp_encode_args bufsize (written + n) t with
           | Some rest => Some (piece ++ rest)%string
           | None => None
           end
  end.

Definition resp_encode_cmd (bufsize : Z) (args : list string) : option string :=
  let header := resp_cmd_header (List.length args) in
  let written := Z.of_nat (String.length header) in
  if bufsize <=? written then None
  else match resp_encode_args bufsize written args with
       | Some rest => Some (header ++ rest)%string
       | None => None
       end.

(** The text of the arguments of a command, one bulk string each. *)
Definition resp_args_text (args : list string) : string :=
  fold_right (fun a acc => (resp_bulk_piece a ++ acc)%string) EmptyString args.

(** [struct sqrl_cache]: the bytes [recv_buf[0 .. recv_len)] and [recv_pos]. *)
Record sqrl_cache := mk_cache {
  cache_fd : Z;
  recv_buf : list Byte.byte;
  recv_pos : nat
}.

Definition cr_byte : Byte.byte := Byte.x0d.
Definition lf_byte : Byte.byte := Byte.x0a.

(** One blocking [recv] of at most [room] bytes (there is no timeout on the
    cache socket): an error, EINTR included, or a closed peer is a failure. *)
Inductive cache_recv_result :=
| CR_Data (d : list Byte.byte) (rest : list sock_event)
| CR_Fail (rest : list sock_event)
| CR_Blocked.

Fixpoint cache_recv (evs : list sock_event) (room : nat) : cache_recv_result :=
  match evs with
  | [] => CR_Blocked
  | EvIdle :: t => cache_recv t room
  | EvIntr :: t => CR_Fail t
  | EvError :: t => CR_Fail t
  | EvData [] :: t => CR_Fail t
  | EvData ch :: t =>
      if (List.length ch <=? room)%nat then CR_Data ch t
      else CR_Data (firstn room ch) (EvData (skipn room ch) :: t)
  end.

Inductive fill_result :=
| Fill_Ok (n : nat) (c : sqrl_cache) (rest : list sock_event)
| Fill_Fail (c : sqrl_cache) (rest : list sock_event)
| Fill_Blocked.

Definition cache_fill_buffer (c : sqrl_cache) (evs : list sock_event) : fill_result :=
  let len := List.length (recv_buf c) in
  let pos := recv_pos c in
  let c1 := if (0 <? pos)%nat && (pos <? len)%nat
            then mk_cache (cache_fd c) (skipn pos (recv_buf c)) 0%nat
            else if (0 <? pos)%nat then mk_cache (cache_fd c) [] 0%nat
            else c in
  if (CACHE_RECV_BUF_SIZE <=? List.length (recv_buf c1))%nat then Fill_Ok 0%nat c1 evs
  else match cache_recv evs (CACHE_RECV_BUF_SIZE - List.length (recv_buf c1)) with
       | CR_Data d t => Fill_Ok (List.length d)
                          (mk_cache (cache_fd c1) (recv_buf c1 ++ d) (recv_pos c1)) t
       | CR_Fail t => Fill_Fail c1 t
       | CR_Blocked => Fill_Blocked
       end.

(** The offset of the first CR LF pair in [l]. *)
Fixpoint crlf_index (l : list Byte.byte) : option nat :=
  match l with
  | a :: ((b :: _) as t) =>
      if Byte.eqb a cr_byte && Byte.eqb b lf_byte then Some 0%nat
      else match crlf_index t with Some k => Some (S k) | None => None end
  | _ => None
  end.

(** [cache_read_line]; its [while (1)] loop runs at most [fuel] times and
    [RL_NoFuel] stands for a loop that has not returned yet. *)
Inductive line_result :=
| RL_Line (line : list Byte.byte) (c : sqrl_cache) (rest : list sock_event)
| RL_Null (c : sqrl_cache) (rest : list sock_event)
| RL_Blocked
| RL_NoFuel.

Fixpoint cache_read_line (fuel : nat) (c : sqrl_cache) (evs : list sock_event) : line_result :=
  match fuel with
  | O => RL_NoFuel
  | S f =>
      let pending := skipn (recv_pos c) (recv_buf c) in
      match crlf_index pending with
      | Some k => RL_Line (firstn k pending) (mk_cache (cache_fd c) (recv_buf c) (recv_pos c + k + 2)%nat) evs
      | None =>
          match cache_fill_buffer c evs with
          | Fill_Fail c' t => RL_Null c' t
          | Fill_Blocked => RL_Blocked
          | Fill_Ok _ c' t => cache_read_line f c' t
          end
      end
  end.

Inductive bytes_result :=
| RB_Ok (data : list Byte.byte) (c : sqrl_cache) (rest : list sock_event)
| RB_Null (c : sqrl_cache) (rest : list sock_event)
| RB_Blocked
| RB_NoFuel.

(** The copy loop of [cache_read_bytes]: [need] is [count - read]. *)
Fixpoint read_bytes_loop (fuel : nat) (need : nat) (acc : list Byte.byte) (c : sqrl_cache)
    (evs : list sock_event) : bytes_result :=
  match need with
  | O => RB_Ok acc c evs
  | S _ =>
      match fuel with
      | O => RB_NoFuel
      | S f =>
          let avail := (List.length (recv_buf c) - recv_pos c)%nat in
          if (0 <? avail)%nat then
            let to_copy := Nat.min avail need in
            read_bytes_loop f (need - to_copy)%nat
              (acc ++ firstn to_copy (skipn (recv_pos c) (recv_buf c)))
              (mk_cache (cache_fd c) (recv_buf c) (recv_pos c + to_copy)%nat) evs
          else
            match cache_fill_buffer c evs with
            | Fill_Fail c' t => RB_Null c' t
            | Fill_Blocked => RB_Blocked
            | Fill_Ok _ c' t => read_bytes_loop f need acc c' t
            end
      end
  end.

(** [cache_read_bytes]: the copy loop, then a [cache_read_line] whose result
    is dropped. *)
Definition cache_read_bytes (fuel : nat) (count : nat) (c : sqrl_cache)
    (evs : list sock_event) : bytes_result :=
  match read_bytes_loop fuel count [] c evs with
  | RB_Ok data c' t =>
      match cache_read_line fuel c' t with
      | RL_Line _ c'' t' => RB_Ok data c'' t'
      | RL_Null c'' t' => RB_Ok data c'' t'
      | RL_Blocked => RB_Blocked
      | RL_NoFuel => RB_NoFuel
      end
  | r => r
  end.

(** [strtol(s, NULL, 10)] on a [long] and [atoi] as [(int) strtol]. *)
Definition is_c_space (c : ascii) : bool :=
  let n := nat_of_ascii c in ((n =? 32) || ((9 <=? n) && (n <=? 13)))%nat.

Fixpoint skip_c_space (s : string) : string :=
  match s with
  | String c t => if is_c_space c then skip_c_space t else s
  | EmptyString => EmptyString
  end.

Fixpoint digits_value (s : string) (acc : Z) : Z :=
  match s with
  | String c t =>
      let n := Z.of_nat (nat_of_ascii c) in
      if (48 <=? n) && (n <=? 57) then digits_value t (acc * 10 + (n - 48)) else acc
  | EmptyString => acc
  end.

Definition strtol (s : string) : Z :=
  let v := match skip_c_space s with
           | String c t =>
               if Ascii.eqb c "-"%char then - digits_value t 0
               else if Ascii.eqb c "+"%char then digits_value t 0
               else digits_value (String c t) 0
           | EmptyString => 0
           end in
  Z.max (- 2 ^ 63) (Z.min (2 ^ 63 - 1) v).

Definition atoi (s : string) : Z := (strtol s + 2 ^ 31) mod 2 ^ 32 - 2 ^ 31.

(** [resp_reply_t]: [R_Bulk None] and [R_Array None] are the replies with
    [is_null] set; array elements are [None] where the C array holds NULL. *)
Inductive resp_reply :=
| R_Simple (s : string)
| R_Error (s : string)
| R_Integer (v : Z)
| R_Bulk (data : option (list Byte.byte))
| R_Array (elements : option (list (option (list Byte.byte)))).

Inductive reply_result :=
| Reply (r : resp_reply) (c : sqrl_cache) (rest : list sock_event)
| Reply_Null (c : sqrl_cache) (rest : list sock_event)
| Reply_Blocked
| Reply_NoFuel.

(** What an array element becomes in [resp_parse_reply]. *)
Definition array_element (r : resp_reply) : option (list Byte.byte) :=
  match r with
  | R_Bulk d => d
  | R_Simple s => Some (bytes_of_string s)
  | R_Integer v => Some (bytes_of_string (ld_string v))
  | _ => None
  end.

(** [resp_read_reply] and [resp_parse_reply]; [fuel] bounds the loops and the
    nesting of arrays. *)
Fixpoint resp_read_reply (fuel : nat) (c : sqrl_cache) (evs : list sock_event) : reply_result :=
  match fuel with
  | O => Reply_NoFuel
  | S f =>
      match cache_read_line fuel c evs with
      | RL_Null c' t => Reply_Null c' t
      | RL_Blocked => Reply_Blocked
      | RL_NoFuel => Reply_NoFuel
      | RL_Line line c' t =>
          match c_string line with
          | EmptyString => Reply_Null c' t
          | String ty content =>
              if Ascii.eqb ty "+"%char then Reply (R_Simple content) c' t
              else if Ascii.eqb ty "-"%char then Reply (R_Error content) c' t
              else if Ascii.eqb ty ":"%char then Reply (R_Integer (strtol content)) c' t
              else if Ascii.eqb ty "$"%char then
                let len := atoi content in
                if len <? 0 then Reply (R_Bulk None) c' t
                else match cache_read_bytes fuel (Z.to_nat len) c' t with
                     | RB_Ok data c'' t' => Reply (R_Bulk (Some data)) c'' t'
                     | RB_Null c'' t' => Reply_Null c'' t'
                     | RB_Blocked => Reply_Blocked
                     | RB_NoFuel => Reply_NoFuel
                     end
              else if Ascii.eqb ty "*"%char then
                let count := atoi content in
                if count <? 0 then Reply (R_Array None) c' t
                else if count =? 0 then Reply (R_Array (Some [])) c' t
                else
                  (fix elems (k : nat) (acc : list (option (list Byte.byte)))
                       (c0 : sqrl_cache) (t0 : list sock_event) : reply_result :=
                     match k with
                     | O => Reply (R_Array (Some acc)) c0 t0
                     | S k' =>
                         match resp_read_reply f c0 t0 with
                         | Reply e c1 t1 => elems k' (acc ++ [array_element e]) c1 t1
                         | Reply_Null c1 t1 => Reply_Null c1 t1
                         | Reply_Blocked => Reply_Blocked
                         | Reply_NoFuel => Reply_NoFuel
                         end
                     end) (Z.to_nat count) [] c' t
              else Reply_Null c' t
          end
      end
  end.

(** [cache_exec_cmd] followed by the reply reading, for a command [cmd]
    ([send_ok] tells whether [cache_send_all] succeeds). The bytes handed to
    [send] are returned with the result. *)
Definition cache_exec_cmd (fuel : nat) (c : sqrl_cache) (cmd : string) (send_ok : bool)
    (evs : list sock_event) : list Byte.byte * reply_result :=
  if cache_fd c <? 0 then ([], Reply_Null c evs)
  else if negb send_ok then (bytes_of_string cmd, Reply_Null c evs)
  else (bytes_of_string cmd, resp_read_reply fuel c evs).

Inductive get_result :=
| Get_Value (v : option (list Byte.byte)) (c : sqrl_cache) (rest : list sock_event)
| Get_Blocked
| Get_NoFuel
| Get_NullArg.

(** [sqrl_cache_get]: the bytes sent and the [char *] returned ([None] for
    NULL); [Get_NullArg] is the NULL returned for a NULL [cache] or [key]. *)
Definition sqrl_cache_get (fuel : nat) (cache : option sqrl_cache) (key : option string)
    (send_ok : bool) (evs : list sock_event) : list Byte.byte * get_result :=
  match cache, key with
  | Some c, Some k =>
      match resp_encode_cmd CACHE_SEND_BUF_SIZE ["GET"; k]%string with
      | None => ([], Get_Value None c evs)
      | Some cmd =>
          let (sent, r) := cache_exec_cmd fuel c cmd send_ok evs in
          (sent, match r with
                 | Reply (R_Bulk (Some data)) c' t => Get_Value (Some data) c' t
                 | Reply _ c' t => Get_Value None c' t
                 | Reply_Null c' t => Get_Value None c' t
                 | Reply_Blocked => Get_Blocked
                 | Reply_NoFuel => Get_NoFuel
                 end)
      end
  | _, _ => ([], Get_NullArg)
  end.

(** A RESP bulk-string reply carrying the bytes [v], as a server sends it. *)
Definition resp_bulk_reply (v : list Byte.byte) : list Byte.byte :=
  bytes_of_string ("$" ++ dec_string (Z.of_nat (List.length v)) ++ crlf)%string
  ++ v ++ bytes_of_string crlf.

(* ------------------------------------------------------------------------- *)
(** ** The remaining operations of the query builder and the cache client *)

(** [sqrl_find_eq_double], [sqrl_find_gt], [sqrl_find_gte], [sqrl_find_lt]
    and [sqrl_find_lte]: [value_g] is the text [snprintf(buf, 64, "%g",
    value)] makes of the [double] (floating-point formatting is not
    embedded), cut to the 63 characters [buf] keeps. *)
Definition sqrl_find_eq_double (query : option sqrl_query_t) (field value_g : string) :=
  add_filter query field "$eq" (substring 0 63 value_g).
Definition sqrl_find_gt (query : option sqrl_query_t) (field value_g : string) :=
  add_filter query field "$gt" (substring 0 63 value_g).
Definition sqrl_find_gte (query : option sqrl_query_t) (field value_g : string) :=
  add_filter query field "$gte" (substring 0 63 value_g).
Definition sqrl_find_lt (query : option sqrl_query_t) (field value_g : string) :=
  add_filter query field "$lt" (substring 0 63 value_g).
Definition sqrl_find_lte (query : option sqrl_query_t) (field value_g : string) :=
  add_filter query field "$lte" (substring 0 63 value_g).

(** [sqrl_cache_connect]: [calloc_ok], [resolve_ok] and [connect_ok] tell
    whether [calloc], [getaddrinfo] and [connect] succeed, [fd] is what
    [socket] returns.  The cache starts with an empty receive buffer. *)
Definition sqrl_cache_connect (host : option string) (port : Z) (calloc_ok resolve_ok : bool)
    (fd : Z) (connect_ok : bool) : option sqrl_cache :=
  match host with
  | None => None
  | Some _ =>
      if port <=? 0 then None
      else if negb calloc_ok then None
      else if negb resolve_ok then None
      else if fd <? 0 then None
      else if negb connect_ok then None
      else Some (mk_cache fd [] 0)
  end.

(** [sqrl_cache_close] closes the socket and frees the cache: no cache is
    left to the caller. *)
Definition sqrl_cache_close (cache : option sqrl_cache) : option sqrl_cache := None.

(** [(int)] applied to a [long]: the value modulo [2^32]. *)
Definition int_of_long (v : Z) : Z := (v + 2 ^ 31) mod 2 ^ 32 - 2 ^ 31.

Definition LONG_MIN : Z := - 2 ^ 63.

(** What a cache command returns: its value with the cache and the socket
    afterwards, a read that never returns, the model's fuel running out, or
    the value returned at once for a NULL argument. *)
Inductive cache_result (A : Type) :=
| Cache_Value (v : A) (c : sqrl_cache) (rest : list sock_event)
| Cache_Blocked
| Cache_NoFuel
| Cache_NullArg (v : A).
Arguments Cache_Value {A}.
Arguments Cache_Blocked {A}.
Arguments Cache_NoFuel {A}.
Arguments Cache_NullArg {A}.

(** The body the cache commands share after their NULL checks:
    [resp_encode_cmd] ([dflt] if it fails), [cache_exec_cmd] ([dflt] for a
    NULL reply), then [conv] of the reply. *)
Definition cache_command {A : Type} (fuel : nat) (c : sqrl_cache) (args : list string)
    (send_ok : bool) (evs : list sock_event) (dflt : A) (conv : resp_reply -> A)
    : list Byte.byte * cache_result A :=
  match resp_encode_cmd CACHE_SEND_BUF_SIZE args with
  | None => ([], Cache_Value dflt c evs)
  | Some cmd =>
      let (sent, r) := cache_exec_cmd fuel c cmd send_ok evs in
      (sent, match r with
             | Reply rp c' t => Cache_Value (conv rp) c' t
             | Reply_Null c' t => Cache_Value dflt c' t
             | Reply_Blocked => Cache_Blocked
             | Reply_NoFuel => Cache_NoFuel
             end)
  end.

(** [reply->type == RESP_INTEGER ? (int)reply->data.integer : -1] *)
Definition reply_int (r : resp_reply) : Z :=
  match r with R_Integer v => int_of_long v | _ => -1 end.

(** [reply->type == RESP_INTEGER ? reply->data.integer : dflt] *)
Definition reply_long (dflt : Z) (r : resp_reply) : Z :=
  match r with R_Integer v => v | _ => dflt end.

(** [reply->type == RESP_SIMPLE_STRING && reply->data.str &&
    strcmp(reply->data.str, expected) == 0 ? 0 : -1] *)
Definition reply_status (expected : string) (r : resp_reply) : Z :=
  match r with R_Simple s => if String.eqb s expected then 0 else -1 | _ => -1 end.

Definition sqrl_cache_set (fuel : nat) (cache : option sqrl_cache) (key value : option string)
    (ttl : Z) (send_ok : bool) (evs : list sock_event) : list Byte.byte * cache_result Z :=
  match cache, key, value with
  | Some c, Some k, Some v =>
      cache_command fuel c
        (if 0 <? ttl then ["SET"; k; v; "EX"; ld_string ttl]%string else ["SET"; k; v]%string)
        send_ok evs (-1) (reply_status "OK")
  | _, _, _ => ([], Cache_NullArg (-1))
  end.

(** The commands of one key whose reply is an [int]: [sqrl_cache_del],
    [sqrl_cache_exists] and [sqrl_cache_persist]. *)
Definition cache_key_int (cmd : string) (fuel : nat) (cache : option sqrl_cache)
    (key : option string) (send_ok : bool) (evs : list sock_event)
    : list Byte.byte * cache_result Z :=
  match cache, key with
  | Some c, Some k => cache_command fuel c [cmd; k] send_ok evs (-1) reply_int
  | _, _ => ([], Cache_NullArg (-1))
  end.

Definition sqrl_cache_del := cache_key_int "DEL".
Definition sqrl_cache_exists := cache_key_int "EXISTS".
Definition sqrl_cache_persist := cache_key_int "PERSIST".

(** [sqrl_cache_expire] through [resp_encode_cmd_with_int]. *)
Definition sqrl_cache_expire (fuel : nat) (cache : option sqrl_cache) (key : option string)
    (seconds : Z) (send_ok : bool) (evs : list sock_event) : list Byte.byte * cache_result Z :=
  match cache, key with
  | Some c, Some k =>
      cache_command fuel c ["EXPIRE"; k; ld_string seconds]%string send_ok evs (-1) reply_int
  | _, _ => ([], Cache_NullArg (-1))
  end.

Definition sqrl_cache_ttl (fuel : nat) (cache : option sqrl_cache) (key : option string)
    (send_ok : bool) (evs : list sock_event) : list Byte.byte * cache_result Z :=
  match cache, key with
  | Some c, Some k => cache_command fuel c ["TTL"; k]%string send_ok evs (-3) (reply_long (-3))
  | _, _ => ([], Cache_NullArg (-3))
  end.

(** The commands of one key whose reply is a [long] and whose failure value
    is [LONG_MIN]: [sqrl_cache_incr] and [sqrl_cache_decr]. *)
Definition cache_key_long (cmd : string) (fuel : nat) (cache : option sqrl_cache)
    (key : option string) (send_ok : bool) (evs : list sock_event)
    : list Byte.byte * cache_result Z :=
  match cache, key with
  | Some c, Some k => cache_command fuel c [cmd; k] send_ok evs LONG_MIN (reply_long LONG_MIN)
  | _, _ => ([], Cache_NullArg LONG_MIN)
  end.

Definition sqrl_cache_incr := cache_key_long "INCR".
Definition sqrl_cache_decr := cache_key_long "DECR".

Definition sqrl_cache_incrby (fuel : nat) (cache : option sqrl_cache) (key : option string)
    (amount : Z) (send_ok : bool) (evs : list sock_event) : list Byte.byte * cache_result Z :=
  match cache, key with
  | Some c, Some k =>
      cache_command fuel c ["INCRBY"; k; ld_string amount]%string send_ok evs LONG_MIN
        (reply_long LONG_MIN)
  | _, _ => ([], Cache_NullArg LONG_MIN)
  end.

(** The commands without a key: [sqrl_cache_dbsize] (an [int] reply),
    [sqrl_cache_flush] (["OK"]) and [sqrl_cache_ping] (["PONG"]). *)
Definition sqrl_cache_dbsize (fuel : nat) (cache : option sqrl_cache) (send_ok : bool)
    (evs : list sock_event) : list Byte.byte * cache_result Z :=
  match cache with
  | Some c => cache_command fuel c ["DBSIZE"]%string send_ok evs (-1) reply_int
  | None => ([], Cache_NullArg (-1))
  end.

Definition sqrl_cache_flush (fuel : nat) (cache : option sqrl_cache) (send_ok : bool)
    (evs : list sock_event) : list Byte.byte * cache_result Z :=
  match cache with
  | Some c => cache_command fuel c ["FLUSHDB"]%string send_ok evs (-1) (reply_status "OK")
  | None => ([], Cache_NullArg (-1))
  end.

Definition sqrl_cache_ping (fuel : nat) (cache : option sqrl_cache) (send_ok : bool)
    (evs : list sock_event) : list Byte.byte * cache_result Z :=
  match cache with
  | Some c => cache_command fuel c ["PING"]%string send_ok evs (-1) (reply_status "PONG")
  | None => ([], Cache_NullArg (-1))
  end.

(** [sqrl_cache_keys]: the array returned ([None] for NULL) and what is
    stored in [*count] ([None] when nothing is: a NULL [cache], [pattern] or
    [count]).  [alloc_ok] tells whether the [malloc] of the array succeeds. *)
Definition sqrl_cache_keys (fuel : nat) (cache : option sqrl_cache) (pattern : option string)
    (count_out alloc_ok send_ok : bool) (evs : list sock_event)
    : list Byte.byte * cache_result (option (list (option (list Byte.byte))) * option Z) :=
  match cache, pattern with
  | Some c, Some p =>
      if negb count_out then ([], Cache_NullArg (None, None)) else
      cache_command fuel c ["KEYS"; p]%string send_ok evs (None, Some 0)
        (fun r => match r with
                  | R_Array (Some (e :: es)) =>
                      if alloc_ok then (Some (e :: es), Some (Z.of_nat (List.length (e :: es))))
                      else (None, Some 0)
                  | _ => (None, Some 0)
                  end)
  | _, _ => ([], Cache_NullArg (None, None))
  end.

(* ------------------------------------------------------------------------- *)
(** ** [sqrl_disconnect], [sqrl_is_connected], [sqrl_session_id],
    [sqrl_subscription_id] *)

(** [sqrl_disconnect] stops the reader, closes the socket and frees the
    client with its pending requests and subscriptions: no client is left
    to the caller.  A NULL client is left as it is. *)
Definition sqrl_disconnect (c : option sqrl_client) : option sqrl_client := None.

Definition sqrl_is_connected (c : option sqrl_client) : bool :=
  match c with Some cl => connected cl | None => false end.

Definition sqrl_session_id (c : option sqrl_client) : option string :=
  match c with Some cl => session_id cl | None => None end.

(** A subscription handle is modelled by its id ([None] for NULL). *)
Definition sqrl_subscription_id (sub : option string) : option string := sub.

(* ------------------------------------------------------------------------- *)
(** ** Library flag: [sqrl_init], [sqrl_cleanup], and the public API as one
    state machine *)

Definition sqrl_init (g_initialized : bool) : sqrl_error * bool :=
  if g_initialized then (SQRL_OK, g_initialized) else (SQRL_OK, true).

Definition sqrl_cleanup (g_initialized : bool) : bool := false.

(** The objects a program holds through the API: a client, a query under
    construction and a cache connection, each [None] for NULL. *)
Record api_state := mk_api_state {
  st_client : option sqrl_client;
  st_query : option sqrl_query_t;
  st_cache : option sqrl_cache
}.

(** The process state: the static [g_initialized] and those objects. *)
Record world := mk_world {
  g_initialized : bool;
  w_state : api_state
}.

(** The query builder's calls, with their arguments after the query. *)
Inductive builder_call :=
| BFindEqStr (field value : string)
| BFindNeStr (field value : string)
| BFindContains (field value : string)
| BFindStartsWith (field value : string)
| BFindEndsWith (field value : string)
| BFindEqInt (field : string) (value : Z)
| BFindNeInt (field : string) (value : Z)
| BFindEqDouble (field value_g : string)
| BFindGt (field value_g : string)
| BFindGte (field value_g : string)
| BFindLt (field value_g : string)
| BFindLte (field value_g : string)
| BFindEqBool (field : string) (value : bool)
| BFindExists (field : string) (exists_ : bool)
| BSort (field : string) (direction : sqrl_sort_dir)
| BLimit (n : Z)
| BSkip (n : Z)
| BChanges.

Definition builder_apply (b : builder_call) (q : option sqrl_query_t) : option sqrl_query_t :=
  match b with
  | BFindEqStr f v => sqrl_find_eq_str q f v
  | BFindNeStr f v => sqrl_find_ne_str q f v
  | BFindContains f v => sqrl_find_contains q f v
  | BFindStartsWith f v => sqrl_find_starts_with q f v
  | BFindEndsWith f v => sqrl_find_ends_with q f v
  | BFindEqInt f v => sqrl_find_eq_int q f v
  | BFindNeInt f v => sqrl_find_ne_int q f v
  | BFindEqDouble f v => sqrl_find_eq_double q f v
  | BFindGt f v => sqrl_find_gt q f v
  | BFindGte f v => sqrl_find_gte q f v
  | BFindLt f v => sqrl_find_lt q f v
  | BFindLte f v => sqrl_find_lte q f v
  | BFindEqBool f v => sqrl_find_eq_bool q f v
  | BFindExists f v => sqrl_find_exists q f v
  | BSort f d => sqrl_sort q f d
  | BLimit n => sqrl_limit q n
  | BSkip n => sqrl_skip q n
  | BChanges => sqrl_changes q
  end.

(** The cache commands whose value is an integer. *)
Inductive cache_int_call :=
| KSet (key value : option string) (ttl : Z)
| KDel (key : option string)
| KExists (key : option string)
| KExpire (key : option string) (seconds : Z)
| KTtl (key : option string)
| KPersist (key : option string)
| KIncr (key : option string)
| KDecr (key : option string)
| KIncrby (key : option string) (amount : Z)
| KDbsize
| KFlush
| KPing.

Definition cache_int_apply (fuel : nat) (c : option sqrl_cache) (k : cache_int_call)
    (send_ok : bool) (evs : list sock_event) : list Byte.byte * cache_result Z :=
  match k with
  | KSet key value ttl => sqrl_cache_set fuel c key value ttl send_ok evs
  | KDel key => sqrl_cache_del fuel c key send_ok evs
  | KExists key => sqrl_cache_exists fuel c key send_ok evs
  | KExpire key s => sqrl_cache_expire fuel c key s send_ok evs
  | KTtl key => sqrl_cache_ttl fuel c key send_ok evs
  | KPersist key => sqrl_cache_persist fuel c key send_ok evs
  | KIncr key => sqrl_cache_incr fuel c key send_ok evs
  | KDecr key => sqrl_cache_decr fuel c key send_ok evs
  | KIncrby key a => sqrl_cache_incrby fuel c key a send_ok evs
  | KDbsize => sqrl_cache_dbsize fuel c send_ok evs
  | KFlush => sqrl_cache_flush fuel c send_ok evs
  | KPing => sqrl_cache_ping fuel c send_ok evs
  end.

(** A call of the public API.  [null] passes NULL instead of the object the
    program holds; a request operation's [submit] is what [send_request]
    returns for its request; a cache call's [fuel], [send_ok] and [evs] are
    the model's bound, whether [cache_send_all] succeeds and the socket. *)
Inductive api_call :=
| CInit
| CCleanup
| CErrorString (e : sqrl_error)
| COptionsDefault
| CConnect (client_out : bool) (host : option string) (options : option sqrl_options)
    (env : connect_env)
| CDisconnect (null : bool)
| CIsConnected (null : bool)
| CSessionId (null : bool)
| CPing (null : bool) (submit : string -> string -> submit_result)
| CQuery (null : bool) (query : option string) (result_out : bool)
    (submit : string -> string -> submit_result)
| CInsert (null : bool) (collection data : option string) (doc_out : bool)
    (submit : string -> string -> submit_result)
| CUpdate (null : bool) (collection document_id data : option string) (doc_out : bool)
    (submit : string -> string -> submit_result)
| CDelete (null : bool) (collection document_id : option string) (doc_out : bool)
    (submit : string -> string -> submit_result)
| CListCollections (null : bool) (names_out count_out : bool)
    (submit : string -> string -> submit_result)
| CSubscribe (null : bool) (query : option string) (callback : option nat) (user_data : nat)
    (sub_out : bool) (submit : string -> string -> submit_result)
| CUnsubscribe (sub : option string)
| CSubscriptionId (sub : option string)
| CTable (table_name : option string)
| CBuild (null : bool) (b : builder_call)
| CCompile (structured : bool) (heap : memory)
| CQueryFree
| CCacheConnect (host : option string) (port : Z) (calloc_ok resolve_ok : bool) (fd : Z)
    (connect_ok : bool)
| CCacheClose
| CCacheGet (null : bool) (fuel : nat) (key : option string) (send_ok : bool)
    (evs : list sock_event)
| CCacheInt (null : bool) (fuel : nat) (k : cache_int_call) (send_ok : bool)
    (evs : list sock_event)
| CCacheKeys (null : bool) (fuel : nat) (pattern : option string)
    (count_out alloc_ok send_ok : bool) (evs : list sock_event).

Inductive api_result :=
| RInit (e : sqrl_error)
| RCleanup
| RErrorString (s : string)
| ROptions (o : sqrl_options)
| RConnect (o : connect_outcome)
| RUnit
| RBool (b : bool)
| RString (s : option string)
| ROpUnit (o : op_result unit)
| ROpString (o : op_result string)
| ROpDoc (o : op_result sqrl_document)
| ROpDelete (o : op_result (option sqrl_document))
| ROpList (o : op_result (option (list string) * nat))
| RQuery (q : option sqrl_query_t)
| RCompiled (s : option (string * bool))
| RCache (c : option sqrl_cache)
| RCacheGet (r : list Byte.byte * get_result)
| RCacheInt (r : list Byte.byte * cache_result Z)
| RCacheKeys (r : list Byte.byte * cache_result (option (list (option (list Byte.byte))) * option Z)).

(** The argument passed for an object: NULL, or the one held. *)
Definition arg_of {A : Type} (null : bool) (x : option A) : option A :=
  if null then None else x.

(** The objects after a call: a request operation leaves its client as
    [op_client] says; a NULL argument leaves the held object alone. *)
Definition client_after_op {A : Type} (null : bool) (c : option sqrl_client) (o : op_result A)
    : option sqrl_client :=
  if null then c else op_client o.

Definition client_after_connect (c : option sqrl_client) (o : connect_outcome)
    : option sqrl_client :=
  match o with
  | Conn_Done SQRL_OK (Some c') => Some c'
  | _ => c
  end.

Definition cache_after_get (c : option sqrl_cache) (r : get_result) : option sqrl_cache :=
  match r with Get_Value _ c' _ => Some c' | _ => c end.

Definition cache_after {A : Type} (c : option sqrl_cache) (r : cache_result A)
    : option sqrl_cache :=
  match r with Cache_Value _ c' _ => Some c' | _ => c end.

Definition set_client (s : api_state) (c : option sqrl_client) : api_state :=
  mk_api_state c (st_query s) (st_cache s).
Definition set_query (s : api_state) (q : option sqrl_query_t) : api_state :=
  mk_api_state (st_client s) q (st_cache s).
Definition set_cache (s : api_state) (c : option sqrl_cache) : api_state :=
  mk_api_state (st_client s) (st_query s) c.

Definition api_step (w : world) (call : api_call) : world * api_result :=
  let g := g_initialized w in
  let s := w_state w in
  let c := st_client s in
  match call with
  | CInit => let '(e, g') := sqrl_init g in (mk_world g' s, RInit e)
  | CCleanup => (mk_world (sqrl_cleanup g) s, RCleanup)
  | CErrorString e => (mk_world g s, RErrorString (sqrl_error_string e))
  | COptionsDefault => (mk_world g s, ROptions sqrl_options_default)
  | CConnect out host opts env =>
      let o := sqrl_connect out host opts env in
      (mk_world g (set_client s (client_after_connect c o)), RConnect o)
  | CDisconnect null =>
      (mk_world g (set_client s (if null then c else sqrl_disconnect c)), RUnit)
  | CIsConnected null => (mk_world g s, RBool (sqrl_is_connected (arg_of null c)))
  | CSessionId null => (mk_world g s, RString (sqrl_session_id (arg_of null c)))
  | CPing null submit =>
      let o := sqrl_ping (arg_of null c) submit in
      (mk_world g (set_client s (client_after_op null c o)), ROpUnit o)
  | CQuery null q out submit =>
      let o := sqrl_query (arg_of null c) q out submit in
      (mk_world g (set_client s (client_after_op null c o)), ROpString o)
  | CInsert null coll data out submit =>
      let o := sqrl_insert (arg_of null c) coll data out submit in
      (mk_world g (set_client s (client_after_op null c o)), ROpDoc o)
  | CUpdate null coll did data out submit =>
      let o := sqrl_update (arg_of null c) coll did data out submit in
      (mk_world g (set_client s (client_after_op null c o)), ROpDoc o)
  | CDelete null coll did out submit =>
      let o := sqrl_delete (arg_of null c) coll did out submit in
      (mk_world g (set_client s (client_after_op null c o)), ROpDelete o)
  | CListCollections null names_out count_out submit =>
      let o := sqrl_list_collections (arg_of null c) names_out count_out submit in
      (mk_world g (set_client s (client_after_op null c o)), ROpList o)
  | CSubscribe null q cb ud out submit =>
      let o := sqrl_subscribe (arg_of null c) q cb ud out submit in
      (mk_world g (set_client s (client_after_op null c o)), ROpString o)
  | CUnsubscribe sub =>
      let o := sqrl_unsubscribe sub c in
      (mk_world g (set_client s (op_client o)), ROpUnit o)
  | CSubscriptionId sub => (mk_world g s, RString (sqrl_subscription_id sub))
  | CTable name =>
      let q := sqrl_table name in (mk_world g (set_query s q), RQuery q)
  | CBuild null b =>
      let q := builder_apply b (arg_of null (st_query s)) in
      (mk_world g (set_query s (if null then st_query s else q)), RQuery q)
  | CCompile structured heap =>
      (mk_world g s,
       RCompiled (if structured then sqrl_query_compile_structured heap (st_query s)
                  else sqrl_query_compile heap (st_query s)))
  | CQueryFree => (mk_world g (set_query s None), RUnit)
  | CCacheConnect host port calloc_ok resolve_ok fd connect_ok =>
      let k := sqrl_cache_connect host port calloc_ok resolve_ok fd connect_ok in
      (mk_world g (set_cache s k), RCache k)
  | CCacheClose => (mk_world g (set_cache s (sqrl_cache_close (st_cache s))), RUnit)
  | CCacheGet null fuel key send_ok evs =>
      let r := sqrl_cache_get fuel (arg_of null (st_cache s)) key send_ok evs in
      (mk_world g (set_cache s (if null then st_cache s else cache_after_get (st_cache s) (snd r))),
       RCacheGet r)
  | CCacheInt null fuel k send_ok evs =>
      let r := cache_int_apply fuel (arg_of null (st_cache s)) k send_ok evs in
      (mk_world g (set_cache s (if null then st_cache s else cache_after (st_cache s) (snd r))),
       RCacheInt r)
  | CCacheKeys null fuel p count_out alloc_ok send_ok evs =>
      let r := sqrl_cache_keys fuel (arg_of null (st_cache s)) p count_out alloc_ok send_ok evs in
      (mk_world g (set_cache s (if null then st_cache s else cache_after (st_cache s) (snd r))),
       RCacheKeys r)
  end.

Fixpoint api_run (w : world) (calls : list api_call) : world * list api_result :=
  match calls with
  | [] => (w, [])
  | call :: rest =>
      let '(w', r) := api_step w call in
      let '(w'', rs) := api_run w' rest in
      (w'', r :: rs)
  end.

Definition is_flag_call (call : api_call) : bool :=
  match call with CInit | CCleanup => true | _ => false end.

Definition is_flag_result (r : api_result) : bool :=
  match r with RInit _ | RCleanup => true | _ => false end.

(* ========================================================================= *)
(** * Properties *)

(* ------------------------------------------------------------------------- *)
(** ** Bytes and big-endian words *)

Lemma land_255 (z : Z) : Z.land z 255 = z mod 256.
Proof. change 255 with (Z.ones 8). rewrite Z.land_ones by lia. reflexivity. Qed.

Lemma byte_val_byte_of_Z (z : Z) : byte_val (byte_of_Z z) = Z.land z 255.
Proof.
  unfold byte_of_Z, byte_val.
  assert (Hr : 0 <= Z.land z 255 <= 255).
  { rewrite land_255. pose proof (Z.mod_pos_bound z 256 ltac:(lia)). lia. }
  pose proof (Byte.to_of_N_option_map (Z.to_N (Z.land z 255))) as H.
  assert (Hle : N.leb (Z.to_N (Z.land z 255)) 255 = true) by (apply N.leb_le; lia).
  rewrite Hle in H.
  destruct (Byte.of_N (Z.to_N (Z.land z 255))) as [b|] eqn:E; simpl in H;
    inversion H as [H1].
  rewrite H1. apply Z2N.id. lia.
Qed.

Ltac bits_simpl :=
  repeat first
    [ rewrite Z.lor_spec
    | rewrite Z.land_spec
    | rewrite Z.testbit_neg_r by lia
    | rewrite Z.shiftl_spec by lia
    | rewrite Z.shiftr_spec by lia
    | rewrite Z.testbit_ones_nonneg by lia ].

Lemma read_write_u32_be (v : Z) (rest : list Byte.byte) :
  0 <= v < 2 ^ 32 -> read_u32_be (write_u32_be v ++ rest) = v.
Proof.
  intros Hv. unfold write_u32_be, read_u32_be. cbn [app].
  rewrite !byte_val_byte_of_Z.
  change 255 with (Z.ones 8).
  apply Z.bits_inj'; intros n Hn.
  assert (Hhi : 32 <= n -> Z.testbit v n = false).
  { intros Hn32. rewrite <- (Z.mod_small v (2 ^ 32)) by lia.
    apply Z.mod_pow2_bits_high. lia. }
  destruct (Z.lt_ge_cases n 8);
  [| destruct (Z.lt_ge_cases n 16);
  [| destruct (Z.lt_ge_cases n 24);
  [| destruct (Z.lt_ge_cases n 32)]]];
  bits_simpl;
  repeat match goal with
         | |- context [?a <? ?b] =>
             let E := fresh in
             destruct (Z.ltb_spec a b) as [E|E]; try lia
         end;
  rewrite ?Bool.andb_true_r, ?Bool.andb_false_r, ?Bool.orb_false_r, ?Bool.orb_false_l;
  try (rewrite Hhi by lia);
  repeat match goal with
         | |- context [Z.testbit v ?i] =>
             assert_fails (constr_eq i n); replace i with n by lia
         end;
  rewrite ?Bool.orb_false_r, ?Bool.orb_false_l, ?Bool.orb_diag; reflexivity.
Qed.

(* ------------------------------------------------------------------------- *)
(** ** Frame encoding *)

Lemma send_frame_bytes_field (json : list Byte.byte) :
  read_u32_be (send_frame_bytes json) = (Z.of_nat (List.length json) + 2) mod 2 ^ 32.
Proof.
  unfold send_frame_bytes. apply read_write_u32_be.
  apply Z.mod_pos_bound. lia.
Qed.

(** C7 (as amended): the frame [send_frame] writes for the C string [json]
    is the 4-byte big-endian length field, the type byte 0x01 (request), the
    encoding byte 0x02 (JSON) and the payload, 6 + len(json) bytes in all;
    the field holds (2 + len(json)) mod 2^32, which is 2 + len(json) for
    every payload shorter than 2^32 - 2 bytes. *)
Theorem send_frame_layout (json : list Byte.byte) :
  let len := Z.of_nat (List.length json) in
  send_frame_bytes json
    = write_u32_be ((len + 2) mod 2 ^ 32) ++ [Byte.x01; Byte.x02] ++ json /\
  read_u32_be (send_frame_bytes json) = (len + 2) mod 2 ^ 32 /\
  (len + 2 < 2 ^ 32 -> read_u32_be (send_frame_bytes json) = len + 2) /\
  List.length (send_frame_bytes json) = (6 + List.length json)%nat.
Proof.
  cbn zeta. rewrite send_frame_bytes_field.
  split; [reflexivity|]. split; [reflexivity|]. split.
  - intros H. apply Z.mod_small. lia.
  - unfold send_frame_bytes. rewrite length_app. reflexivity.
Qed.

(** C7 counterexample: for a payload of 2^32 - 2 bytes the length field
    wraps to 0, not 2 + len(payload) = 2^32. *)
Lemma send_frame_length_wraps :
  read_u32_be (send_frame_bytes oversized_json) = 0 /\
  Z.of_nat (List.length oversized_json) + 2 = 2 ^ 32.
Proof.
  assert (Hlen : Z.of_nat (List.length oversized_json) = 2 ^ 32 - 2).
  { unfold oversized_json. rewrite repeat_length. apply Z2Nat.id. lia. }
  rewrite send_frame_bytes_field, Hlen. split; reflexivity.
Qed.

(* ------------------------------------------------------------------------- *)
(** ** [recv_all] and frame decoding *)

Lemma recv_all_loop_ok (evs : list sock_event) (n : nat) (acc d : list Byte.byte)
    (t : Z) (r : list sock_event) :
  t <= 0 -> recv_all_loop evs n acc t = RecvOk d r ->
  exists x, d = acc ++ x /\ List.length x = n /\ data_bytes evs = x ++ data_bytes r.
Proof.
  intros Ht. revert n acc.
  induction evs as [|ev evs IH]; intros n acc H.
  - destruct n; simpl in H.
    + inversion H; subst. exists []. rewrite app_nil_r. auto.
    + destruct (Z.ltb_spec 0 t); [lia | discriminate].
  - destruct n as [|n'].
    + simpl in H. inversion H; subst. exists []. rewrite app_nil_r. auto.
    + destruct ev as [[|b l]| | |]; simpl in H; try discriminate.
      * destruct (Nat.leb_spec (List.length l) n') as [Hle|Hgt].
        -- destruct (IH _ _ H) as [x [Hd [Hx Hb]]].
           exists ((b :: l) ++ x). repeat split.
           ++ rewrite Hd, app_assoc. reflexivity.
           ++ rewrite length_app, Hx. simpl. lia.
           ++ simpl. rewrite Hb, app_assoc. reflexivity.
        -- inversion H; subst. clear H.
           exists (b :: firstn n' l). repeat split.
           ++ simpl. rewrite length_firstn. lia.
           ++ destruct (skipn n' l) as [|b' l'] eqn:Hs.
              ** exfalso. pose proof (length_skipn n' l) as Hl.
                 rewrite Hs in Hl. simpl in Hl. lia.
              ** transitivity ((b :: firstn n' l) ++ (skipn n' l ++ data_bytes evs)).
                 --- simpl. rewrite app_assoc, firstn_skipn. reflexivity.
                 --- rewrite Hs. reflexivity.
      * apply IH. exact H.
      * destruct (Z.ltb_spec 0 t); [lia|]. apply IH. exact H.
Qed.

Lemma recv_frame_cases (evs : list sock_event) :
  match recv_all evs 6 0 with
  | RecvBlocked => recv_frame evs = RF_Blocked
  | RecvFail _ rest => recv_frame evs = RF_Err SQRL_ERR_RECV rest
  | RecvOk hdr rest =>
      let len := read_u32_be hdr in
      if (len <? 2) || (SQRL_MAX_MESSAGE_SIZE <? len)
      then recv_frame evs = RF_Err SQRL_ERR_DECODE rest
      else recv_frame evs =
             match recv_all rest (Z.to_nat (len - 2)) 0 with
             | RecvBlocked => RF_Blocked
             | RecvFail _ rest' => RF_Err SQRL_ERR_RECV rest'
             | RecvOk payload rest' => RF_Ok (nth 4 hdr Byte.x00) payload rest'
             end
  end.
Proof.
  unfold recv_frame. destruct (recv_all evs 6 0) as [hdr rest| |]; try reflexivity.
  cbn zeta. destruct ((read_u32_be hdr <? 2) || (SQRL_MAX_MESSAGE_SIZE <? read_u32_be hdr));
    reflexivity.
Qed.

(** C5 (as amended): [recv_frame] reads exactly 6 header bytes and fails
    with [SQRL_ERR_DECODE] exactly when the declared length is below 2 or
    above [SQRL_MAX_MESSAGE_SIZE] (a payload above 16 MiB - 2); otherwise it
    reads exactly length - 2 further bytes and returns them as the payload,
    nothing beyond them being consumed; any other failure is
    [SQRL_ERR_RECV] (a failed or closed read). *)
Theorem recv_frame_decode_rule (evs : list sock_event) :
  (forall r, recv_frame evs = RF_Err SQRL_ERR_DECODE r <->
     exists hdr, recv_all evs 6 0 = RecvOk hdr r /\
       (read_u32_be hdr < 2 \/ SQRL_MAX_MESSAGE_SIZE < read_u32_be hdr)) /\
  (forall ty p r, recv_frame evs = RF_Ok ty p r ->
     exists hdr, List.length hdr = 6%nat /\
       data_bytes evs = hdr ++ p ++ data_bytes r /\
       2 <= read_u32_be hdr <= SQRL_MAX_MESSAGE_SIZE /\
       Z.of_nat (List.length p) = read_u32_be hdr - 2 /\
       ty = nth 4 hdr Byte.x00) /\
  (forall hdr r p r', recv_all evs 6 0 = RecvOk hdr r ->
     2 <= read_u32_be hdr <= SQRL_MAX_MESSAGE_SIZE ->
     recv_all r (Z.to_nat (read_u32_be hdr - 2)) 0 = RecvOk p r' ->
     recv_frame evs = RF_Ok (nth 4 hdr Byte.x00) p r') /\
  (forall e r, recv_frame evs = RF_Err e r -> e = SQRL_ERR_DECODE \/ e = SQRL_ERR_RECV).
Proof.
  pose proof (recv_frame_cases evs) as H.
  destruct (recv_all evs 6 0) as [hdr rest|e rest|] eqn:E.
  - cbn zeta in H.
    destruct ((read_u32_be hdr <? 2) || (SQRL_MAX_MESSAGE_SIZE <? read_u32_be hdr)) eqn:Hb.
    + apply orb_true_iff in Hb. rewrite !Z.ltb_lt in Hb.
      repeat split.
      * intros Heq. rewrite H in Heq. inversion Heq; subst. eauto.
      * intros [hdr' [E' _]]. inversion E'; subst. exact H.
      * intros ty p r Heq. rewrite H in Heq. discriminate.
      * intros hdr' r p r' E' Hr. inversion E'; subst. lia.
      * intros e r Heq. rewrite H in Heq. inversion Heq. auto.
    + apply orb_false_iff in Hb. rewrite !Z.ltb_ge in Hb.
      repeat split.
      * intros Heq. rewrite H in Heq.
        destruct (recv_all rest _ 0); discriminate.
      * intros [hdr' [E' Hc]]. inversion E'; subst. lia.
      * intros ty p r Heq. rewrite H in Heq.
        destruct (recv_all rest (Z.to_nat (read_u32_be hdr - 2)) 0) as [p' r'| |] eqn:E2;
          inversion Heq; subst.
        unfold recv_all in E, E2.
        destruct (recv_all_loop_ok _ _ _ _ 0 _ (Z.le_refl 0) E) as [x [Hx [Lx Dx]]].
        destruct (recv_all_loop_ok _ _ _ _ 0 _ (Z.le_refl 0) E2) as [y [Hy [Ly Dy]]].
        simpl in Hx, Hy; subst.
        exists x. repeat split; auto; try lia.
        all: first [rewrite Dx, Dy; reflexivity | rewrite Ly; apply Z2Nat.id; lia].
      * intros hdr' r p r' E' _ E2. inversion E'; subst.
        rewrite H, E2. reflexivity.
      * intros e r Heq. rewrite H in Heq.
        destruct (recv_all rest _ 0); inversion Heq; auto.
  - repeat split.
    + intros Heq. rewrite H in Heq. discriminate.
    + intros [hdr' [E' _]]. discriminate.
    + intros ty p r Heq. rewrite H in Heq. discriminate.
    + intros hdr' r p r' E'. discriminate.
    + intros e' r Heq. rewrite H in Heq. inversion Heq. auto.
  - repeat split.
    + intros Heq. rewrite H in Heq. discriminate.
    + intros [hdr' [E' _]]. discriminate.
    + intros ty p r Heq. rewrite H in Heq. discriminate.
    + intros hdr' r p r' E'. discriminate.
    + intros e' r Heq. rewrite H in Heq. discriminate.
Qed.

(** C5 counterexample: a header declaring [SQRL_MAX_MESSAGE_SIZE + 1] bytes
    (a 16 MiB - 1 byte payload) is refused with [SQRL_ERR_DECODE], though
    neither length < 2 nor length - 2 > 16 MiB holds. *)
Lemma recv_frame_rejects_max_plus_one :
  recv_frame [EvData header_over_cap] = RF_Err SQRL_ERR_DECODE [] /\
  ~ (read_u32_be header_over_cap < 2 \/
     read_u32_be header_over_cap - 2 > SQRL_MAX_MESSAGE_SIZE).
Proof.
  split.
  - vm_compute. reflexivity.
  - unfold header_over_cap. rewrite read_write_u32_be.
    + unfold SQRL_MAX_MESSAGE_SIZE. lia.
    + unfold SQRL_MAX_MESSAGE_SIZE. lia.
Qed.

(* ------------------------------------------------------------------------- *)
(** ** Handshake and session id *)

Lemma recv_all_loop_length (evs : list sock_event) (n : nat) (acc d : list Byte.byte)
    (t : Z) (r : list sock_event) :
  recv_all_loop evs n acc t = RecvOk d r -> List.length d = (List.length acc + n)%nat.
Proof.
  revert n acc.
  induction evs as [|ev evs IH]; intros n acc H; destruct n as [|n'];
    simpl in H; try (inversion H; subst; lia).
  - destruct (0 <? t); discriminate.
  - destruct ev as [[|b l]| | |]; simpl in H; try discriminate.
    + destruct (Nat.leb_spec (List.length l) n') as [Hle|Hgt].
      * apply IH in H. rewrite length_app in H. simpl in H. lia.
      * inversion H; subst. rewrite length_app. simpl. rewrite length_firstn. lia.
    + apply IH in H. exact H.
    + destruct (0 <? t); [discriminate|]. apply IH in H. exact H.
Qed.

Lemma parse_uuid_fmt : parse_fmt uuid_fmt = uuid_pieces.
Proof. reflexivity. Qed.

Lemma printf_02x_byte (b : Byte.byte) :
  printf_02x (byte_val b)
  = String (spec_nibble (byte_val b / 16)) (String (spec_nibble (byte_val b mod 16)) EmptyString).
Proof. destruct b; vm_compute; reflexivity. Qed.

Ltac destruct_16 l :=
  do 16 (let b := fresh "b" in destruct l as [|b l]; [discriminate|]);
  destruct l; [|discriminate].

Lemma uuid_to_string_spec (l : list Byte.byte) :
  List.length l = 16%nat -> uuid_to_string l = spec_session_id l.
Proof.
  intros Hl. destruct_16 l.
  unfold uuid_to_string. rewrite parse_uuid_fmt.
  cbn [firstn map]. unfold uuid_pieces. cbn [sprintf].
  rewrite !printf_02x_byte. reflexivity.
Qed.

Lemma spec_session_id_length (l : list Byte.byte) :
  List.length l = 16%nat -> String.length (spec_session_id l) = 36%nat.
Proof. intros Hl. destruct_16 l. reflexivity. Qed.

Lemma land_1_odd (z : Z) : negb (Z.land z 1 =? 0) = Z.odd z.
Proof.
  change 1 with (Z.ones 1). rewrite Z.land_ones by lia.
  rewrite Zmod_odd. destruct (Z.odd z); reflexivity.
Qed.

(** What [do_handshake] does with a complete 19-byte response. *)
Lemma do_handshake_response (opts : option sqrl_options) (evs : list sock_event)
    (resp : list Byte.byte) (rest : list sock_event) :
  recv_all evs 19 (handshake_timeout opts) = RecvOk resp rest ->
  let status := byte_val (nth 0 resp Byte.x00) in
  do_handshake opts true evs =
    if status =? 1 then HS_Done SQRL_ERR_VERSION_MISMATCH None
    else if status =? 2 then HS_Done SQRL_ERR_AUTH_FAILED None
    else if negb (status =? 0) then HS_Done SQRL_ERR_HANDSHAKE None
    else HS_Done SQRL_OK (Some (spec_session_id (skipn 3 resp),
                                flags_encoding (nth 2 resp Byte.x00))).
Proof.
  intros H. cbn zeta. unfold do_handshake. cbn [negb]. rewrite H. cbn zeta.
  unfold HANDSHAKE_VERSION_MISMATCH, HANDSHAKE_AUTH_FAILED, HANDSHAKE_SUCCESS.
  destruct (byte_val (nth 0 resp Byte.x00) =? 1); [reflexivity|].
  destruct (byte_val (nth 0 resp Byte.x00) =? 2); [reflexivity|].
  destruct (byte_val (nth 0 resp Byte.x00) =? 0); [|reflexivity].
  cbn [negb]. apply recv_all_loop_length in H. simpl in H.
  rewrite uuid_to_string_spec by (rewrite length_skipn; lia).
  unfold flags_encoding. rewrite <- land_1_odd. reflexivity.
Qed.

(** C6: when the 19-byte handshake response has status 0, the session id is
    bytes 3..18 of the response rendered as lower-case hexadecimal in
    8-4-4-4-12 dash-separated groups, 36 characters. *)
Theorem handshake_session_id (opts : option sqrl_options) (evs : list sock_event)
    (resp : list Byte.byte) (rest : list sock_event) :
  recv_all evs 19 (handshake_timeout opts) = RecvOk resp rest ->
  nth 0 resp Byte.x00 = Byte.x00 ->
  exists enc,
    do_handshake opts true evs
      = HS_Done SQRL_OK (Some (spec_session_id (firstn 16 (skipn 3 resp)), enc)) /\
    String.length (spec_session_id (firstn 16 (skipn 3 resp))) = 36%nat.
Proof.
  intros H H0.
  pose proof (recv_all_loop_length _ _ _ _ _ _ H) as Hl. simpl in Hl.
  assert (H16 : List.length (skipn 3 resp) = 16%nat) by (rewrite length_skipn; lia).
  rewrite firstn_all2 by lia.
  exists (flags_encoding (nth 2 resp Byte.x00)). split.
  - rewrite (do_handshake_response _ _ _ _ H). cbn zeta. rewrite H0. reflexivity.
  - apply spec_session_id_length. exact H16.
Qed.

Lemma handshake_session_id_witness :
  recv_all [EvData (sample_response Byte.x00)] 19 (handshake_timeout None)
    = RecvOk (sample_response Byte.x00) [] /\
  exists enc,
    do_handshake None true [EvData (sample_response Byte.x00)]
      = HS_Done SQRL_OK (Some (spec_session_id
                                 (firstn 16 (skipn 3 (sample_response Byte.x00))), enc)) /\
    String.length (spec_session_id (firstn 16 (skipn 3 (sample_response Byte.x00)))) = 36%nat.
Proof.
  split; [reflexivity|].
  apply (handshake_session_id None [EvData (sample_response Byte.x00)]
           (sample_response Byte.x00) []); reflexivity.
Defined.

(** C4 (as amended): status 0 succeeds with the session id and the
    encoding bit 0 of the response flags indicates, status 1 fails with
    [SQRL_ERR_VERSION_MISMATCH], status 2 with [SQRL_ERR_AUTH_FAILED], any
    other status with [SQRL_ERR_HANDSHAKE]; a failed write gives
    [SQRL_ERR_SEND] and every failed read of the 19-byte response (error,
    closed connection, or the read timeout) gives [SQRL_ERR_RECV]. *)
Theorem handshake_outcomes (opts : option sqrl_options) :
  (forall evs, do_handshake opts false evs = HS_Done SQRL_ERR_SEND None) /\
  (forall evs e r, recv_all evs 19 (handshake_timeout opts) = RecvFail e r ->
     do_handshake opts true evs = HS_Done SQRL_ERR_RECV None) /\
  (0 < handshake_timeout opts -> forall evs,
     do_handshake opts true (EvIdle :: evs) = HS_Done SQRL_ERR_RECV None) /\
  (forall evs resp r, recv_all evs 19 (handshake_timeout opts) = RecvOk resp r ->
     (nth 0 resp Byte.x00 = Byte.x00 ->
        do_handshake opts true evs
          = HS_Done SQRL_OK (Some (spec_session_id (skipn 3 resp),
                                   flags_encoding (nth 2 resp Byte.x00)))) /\
     (nth 0 resp Byte.x00 = Byte.x01 ->
        do_handshake opts true evs = HS_Done SQRL_ERR_VERSION_MISMATCH None) /\
     (nth 0 resp Byte.x00 = Byte.x02 ->
        do_handshake opts true evs = HS_Done SQRL_ERR_AUTH_FAILED None) /\
     (2 < byte_val (nth 0 resp Byte.x00) ->
        do_handshake opts true evs = HS_Done SQRL_ERR_HANDSHAKE None)).
Proof.
  split; [reflexivity|]. split; [|split].
  - intros evs e r H. unfold do_handshake. cbn [negb]. rewrite H. reflexivity.
  - intros Ht evs. unfold do_handshake. cbn [negb recv_all recv_all_loop].
    destruct (Z.ltb_spec 0 (handshake_timeout opts)); [reflexivity | lia].
  - intros evs resp r H.
    pose proof (do_handshake_response _ _ _ _ H) as Hd. cbn zeta in Hd.
    rewrite Hd. clear Hd.
    repeat split; intros Hs; try (rewrite Hs; reflexivity).
    destruct (Z.eqb_spec (byte_val (nth 0 resp Byte.x00)) 1); [lia|].
    destruct (Z.eqb_spec (byte_val (nth 0 resp Byte.x00)) 2); [lia|].
    destruct (Z.eqb_spec (byte_val (nth 0 resp Byte.x00)) 0); [lia|].
    reflexivity.
Qed.

(** C4 counterexample: a read timeout while awaiting the response gives
    [SQRL_ERR_RECV], not [SQRL_ERR_TIMEOUT]; a failed write gives
    [SQRL_ERR_SEND] and a connection closed mid-response gives
    [SQRL_ERR_RECV], not [SQRL_ERR_HANDSHAKE]. *)
Lemma handshake_read_timeout_is_recv :
  do_handshake None true [EvIdle] = HS_Done SQRL_ERR_RECV None /\
  do_handshake None false [] = HS_Done SQRL_ERR_SEND None /\
  do_handshake None true [EvData [Byte.x00; Byte.x01]; EvData []]
    = HS_Done SQRL_ERR_RECV None.
Proof. repeat split; reflexivity. Qed.

(* ------------------------------------------------------------------------- *)
(** ** Reader thread *)

Lemma set_pending_same (c : sqrl_client) : set_pending (pending_requests c) c = c.
Proof. destruct c; reflexivity. Qed.

Lemma complete_first_absent (l : list pending_request) (id json : string) :
  ~ In id (map pr_id l) -> complete_first l id json = l.
Proof.
  induction l as [|r t IH]; intros Hn; [reflexivity|].
  simpl in *. destruct (String.eqb_spec (pr_id r) id) as [E|E].
  - exfalso. apply Hn. left. exact E.
  - rewrite IH; [reflexivity|]. intros Hi. apply Hn. right. exact Hi.
Qed.

Lemma dispatch_response_absent (c : sqrl_client) (id json : string) :
  ~ In id (map pr_id (pending_requests c)) -> dispatch_response c id json = c.
Proof.
  intros Hn. unfold dispatch_response.
  rewrite complete_first_absent by exact Hn. apply set_pending_same.
Qed.

Lemma dispatch_change_absent (c : sqrl_client) (id json : string) :
  ~ In id (map se_id (subscriptions c)) -> dispatch_change c id json = [].
Proof.
  intros Hn. unfold dispatch_change.
  destruct (find (fun e => String.eqb (se_id e) id) (subscriptions c)) as [e|] eqn:E;
    [|reflexivity].
  exfalso. apply find_some in E as [Hin Heq].
  apply String.eqb_eq in Heq. apply Hn. rewrite <- Heq. apply in_map. exact Hin.
Qed.

(** Routing a message whose id is in neither table does nothing. *)
Lemma route_unknown (c : sqrl_client) (json id : string) :
  json_get_string json "id" = Some id ->
  ~ In id (map pr_id (pending_requests c)) ->
  ~ In id (map se_id (subscriptions c)) ->
  route c json = (c, []).
Proof.
  intros Hid Hp Hs. unfold route. rewrite Hid.
  destruct (json_get_string json "type") as [t|]; [|reflexivity].
  destruct (String.eqb t "change").
  - destruct (json_get_object json "change"); [|reflexivity].
    rewrite dispatch_change_absent by exact Hs. reflexivity.
  - rewrite dispatch_response_absent by exact Hp. reflexivity.
Qed.

Lemma reader_iter_decoded (c : sqrl_client) (evs : list sock_event)
    (ty : Byte.byte) (p : list Byte.byte) (r : list sock_event) :
  recv_frame evs = RF_Ok ty p r ->
  reader_iter c evs = Reader_continue (fst (route c (c_string p))) (snd (route c (c_string p))) r.
Proof.
  intros H. unfold reader_iter. rewrite H.
  destruct (route c (c_string p)); reflexivity.
Qed.

(** C3: a decoded message whose id matches neither a pending request nor a
    subscription completes nothing, invokes no callback, leaves both tables
    (indeed the whole client) unchanged, and the loop goes on to the next
    frame. *)
Theorem reader_drops_unknown_id (c : sqrl_client) (evs : list sock_event)
    (ty : Byte.byte) (p : list Byte.byte) (r : list sock_event) (id : string) :
  recv_frame evs = RF_Ok ty p r ->
  json_get_string (c_string p) "id" = Some id ->
  ~ In id (map pr_id (pending_requests c)) ->
  ~ In id (map se_id (subscriptions c)) ->
  reader_iter c evs = Reader_continue c [] r.
Proof.
  intros H Hid Hp Hs. rewrite (reader_iter_decoded c evs ty p r H).
  rewrite (route_unknown c (c_string p) id Hid Hp Hs). reflexivity.
Qed.

Lemma reader_drops_unknown_id_witness :
  recv_frame (server_frame stray_response)
    = RF_Ok Byte.x02 (bytes_of_string stray_response) [] /\
  json_get_string (c_string (bytes_of_string stray_response)) "id" = Some "9"%string /\
  reader_iter sample_client (server_frame stray_response)
    = Reader_continue sample_client [] [].
Proof.
  split; [vm_compute; reflexivity|]. split; [vm_compute; reflexivity|].
  apply (reader_drops_unknown_id sample_client (server_frame stray_response)
           Byte.x02 (bytes_of_string stray_response) [] "9"%string).
  - vm_compute. reflexivity.
  - vm_compute. reflexivity.
  - simpl. intros [H|[]]. discriminate H.
  - simpl. intros [H|[]]. discriminate H.
Defined.

(** C9: a decoded frame whose payload lacks an extractable [id] string or
    [type] string is discarded: no pending request completed, no callback,
    the client unchanged, and the loop goes on to the next frame. *)
Theorem reader_discards_untagged (c : sqrl_client) (evs : list sock_event)
    (ty : Byte.byte) (p : list Byte.byte) (r : list sock_event) :
  recv_frame evs = RF_Ok ty p r ->
  json_get_string (c_string p) "id" = None \/ json_get_string (c_string p) "type" = None ->
  reader_iter c evs = Reader_continue c [] r.
Proof.
  intros H Hn. rewrite (reader_iter_decoded c evs ty p r H).
  unfold route.
  destruct Hn as [Hn|Hn]; rewrite Hn; [reflexivity|].
  destruct (json_get_string (c_string p) "id"); reflexivity.
Qed.

Lemma reader_discards_untagged_witness :
  recv_frame (server_frame untagged_payload)
    = RF_Ok Byte.x02 (bytes_of_string untagged_payload) [] /\
  reader_iter sample_client (server_frame untagged_payload)
    = Reader_continue sample_client [] [].
Proof.
  split; [vm_compute; reflexivity|].
  apply (reader_discards_untagged sample_client (server_frame untagged_payload)
           Byte.x02 (bytes_of_string untagged_payload) []).
  - vm_compute. reflexivity.
  - left. vm_compute. reflexivity.
Defined.





(* ------------------------------------------------------------------------- *)
(** ** Request timeout *)

Lemma unlink_sub (l : list pending_request) (h : nat) (r : pending_request) :
  In r (unlink l h) -> In r l.
Proof.
  induction l as [|x t IH]; simpl; [tauto|].
  destruct (Nat.eqb (pr_handle x) h); [tauto|].
  intros [E|Hi]; [left; exact E | right; apply IH; exact Hi].
Qed.

Lemma unlink_removes (l : list pending_request) (h : nat) :
  NoDup (map pr_handle l) -> ~ In h (map pr_handle (unlink l h)).
Proof.
  induction l as [|x t IH]; simpl; [tauto|].
  intros Hnd. inversion Hnd as [|? ? Hx Ht]; subst.
  destruct (Nat.eqb_spec (pr_handle x) h) as [E|E].
  - subst h. exact Hx.
  - simpl. intros [E'|Hi]; [exact (E E') | exact (IH Ht Hi)].
Qed.

(** C2: a request whose wait times out returns [SQRL_ERR_TIMEOUT]; after the
    cleanup the table holds neither its node nor its correlation id (the
    table holding that id only at this node, and node addresses being
    distinct), so a late response carrying the id changes nothing: neither
    [dispatch_response] nor a whole reader iteration on such a frame. *)
Theorem timeout_drops_entry (c : sqrl_client) (h : nat) (id : string) :
  NoDup (map pr_handle (pending_requests c)) ->
  (forall r, In r (pending_requests c) -> pr_id r = id -> pr_handle r = h) ->
  sr_wait_return c h W_TIMEDOUT = Some (SQRL_ERR_TIMEOUT, None) /\
  find_pending (sr_cleanup c h) h = None /\
  ~ In id (map pr_id (pending_requests (sr_cleanup c h))) /\
  (forall json, dispatch_response (sr_cleanup c h) id json = sr_cleanup c h) /\
  (forall evs ty p r,
     recv_frame evs = RF_Ok ty p r ->
     json_get_string (c_string p) "id" = Some id ->
     ~ In id (map se_id (subscriptions c)) ->
     reader_iter (sr_cleanup c h) evs = Reader_continue (sr_cleanup c h) [] r).
Proof.
  intros Hnd Hid.
  assert (Hgone : ~ In h (map pr_handle (pending_requests (sr_cleanup c h)))).
  { unfold sr_cleanup, sr_unlink. destruct c; simpl in *. apply unlink_removes. exact Hnd. }
  assert (Hsub : forall r, In r (pending_requests (sr_cleanup c h)) -> In r (pending_requests c)).
  { unfold sr_cleanup, sr_unlink. destruct c; simpl. apply unlink_sub. }
  assert (Hnoid : ~ In id (map pr_id (pending_requests (sr_cleanup c h)))).
  { intros Hi. apply in_map_iff in Hi as [r [Er Hr]].
    apply Hgone. apply in_map_iff. exists r. split; [|exact Hr].
    apply Hid; [apply Hsub; exact Hr | exact Er]. }
  split; [reflexivity|]. split; [|split; [exact Hnoid|split]].
  - unfold find_pending.
    destruct (find (fun r => Nat.eqb (pr_handle r) h) (pending_requests (sr_cleanup c h)))
      as [r|] eqn:E; [|reflexivity].
    exfalso. apply find_some in E as [Hr Eh]. apply Nat.eqb_eq in Eh.
    apply Hgone. apply in_map_iff. exists r. split; [exact Eh | exact Hr].
  - intros json. apply dispatch_response_absent. exact Hnoid.
  - intros evs ty p r Hf Hj Hs.
    rewrite (reader_iter_decoded _ evs ty p r Hf).
    assert (Hsame : subscriptions (sr_cleanup c h) = subscriptions c) by (destruct c; reflexivity).
    rewrite (route_unknown (sr_cleanup c h) (c_string p) id Hj Hnoid
               ltac:(rewrite Hsame; exact Hs)).
    reflexivity.
Qed.

Lemma timeout_drops_entry_witness :
  sr_wait_return sample_client 7 W_TIMEDOUT = Some (SQRL_ERR_TIMEOUT, None) /\
  find_pending (sr_cleanup sample_client 7) 7 = None /\
  ~ In "1"%string (map pr_id (pending_requests (sr_cleanup sample_client 7))) /\
  (forall json, dispatch_response (sr_cleanup sample_client 7) "1" json
                = sr_cleanup sample_client 7) /\
  (forall evs ty p r,
     recv_frame evs = RF_Ok ty p r ->
     json_get_string (c_string p) "id" = Some "1"%string ->
     ~ In "1"%string (map se_id (subscriptions sample_client)) ->
     reader_iter (sr_cleanup sample_client 7) evs
       = Reader_continue (sr_cleanup sample_client 7) [] r).
Proof.
  apply (timeout_drops_entry sample_client 7 "1"%string).
  - simpl. constructor; [simpl; tauto | constructor].
  - simpl. intros r [E|[]] _. subst r. reflexivity.
Defined.

(* ------------------------------------------------------------------------- *)
(** ** Correlation ids *)

(** Run without interruption, the load/store pair is [next_request_id]. *)
Lemma micro_atomic_next_request_id (c : sqrl_client) :
  run_micro (c, [IncIdle]) [MLoad 0; MStore 0]
    = (fst (next_request_id c), [IncDone ((request_id c + 1) mod 2 ^ 64)]) /\
  obtained_id (IncDone ((request_id c + 1) mod 2 ^ 64)) = Some (snd (next_request_id c)).
Proof. destruct c; split; reflexivity. Qed.

(** Back to back, two callers get ids "1" and "2". *)
Lemma sequential_ids_distinct :
  run_micro (fresh_client, [IncIdle; IncIdle]) [MLoad 0; MStore 0; MLoad 1; MStore 1]
    = (set_request_id 2 fresh_client, [IncDone 1; IncDone 2]) /\
  obtained_id (IncDone 1) = Some "1"%string /\ obtained_id (IncDone 2) = Some "2"%string.
Proof. repeat split; vm_compute; reflexivity. Qed.

(** C8 (code defect): two callers whose unlocked [++client->request_id]
    interleave both obtain id "1"; both requests are then outstanding under
    the same id, the response for "1" completes only the node pushed last
    (11), and the other caller (node 10) is left to time out. *)
Theorem concurrent_ids_collide :
  run_micro (fresh_client, [IncIdle; IncIdle]) interleaved_increments
    = (set_request_id 1 fresh_client, [IncDone 1; IncDone 1]) /\
  obtained_id (IncDone 1) = Some "1"%string /\
  (let c := sr_register (sr_register (set_request_id 1 fresh_client) 10 "1") 11 "1" in
   let c' := dispatch_response c "1" response_for_1 in
   map pr_id (pending_requests c) = ["1"; "1"]%string /\
   sr_check c' 11 = Some (SQRL_OK, Some response_for_1) /\
   sr_check c' 10 = None /\
   sr_wait_return c' 10 W_TIMEDOUT = Some (SQRL_ERR_TIMEOUT, None)).
Proof. repeat split; vm_compute; reflexivity. Qed.

(* ------------------------------------------------------------------------- *)
(** ** The library flag *)

Lemma api_run_cons (w : world) (call : api_call) (rest : list api_call) :
  api_run w (call :: rest)
    = (fst (api_run (fst (api_step w call)) rest),
       snd (api_step w call) :: snd (api_run (fst (api_step w call)) rest)).
Proof.
  simpl. destruct (api_step w call) as [w' r]. simpl.
  destruct (api_run w' rest) as [w'' rs]. reflexivity.
Qed.

(** Every call but [sqrl_init]/[sqrl_cleanup] ignores the flag and keeps it. *)
Lemma api_step_flag_free (call : api_call) (s : api_state) :
  is_flag_call call = false ->
  exists s' r, (forall g, api_step (mk_world g s) call = (mk_world g s', r)) /\
    is_flag_result r = false.
Proof.
  intros Hf. destruct call; try discriminate; cbn [api_step g_initialized w_state];
    (eexists; eexists; split; [intros g; reflexivity | reflexivity]).
Qed.

(** [sqrl_init] and [sqrl_cleanup] touch only the flag. *)
Lemma api_step_flag_call (call : api_call) (g : bool) (s : api_state) :
  is_flag_call call = true ->
  exists g1 r, api_step (mk_world g s) call = (mk_world g1 s, r) /\
    is_flag_result r = true /\ (forall e, r = RInit e -> e = SQRL_OK).
Proof.
  intros Hf. destruct call; try discriminate; simpl.
  - destruct g; simpl; do 2 eexists; (split; [reflexivity | split; [reflexivity |]]);
      intros e He; inversion He; reflexivity.
  - do 2 eexists; split; [reflexivity | split; [reflexivity |]]; intros e He; discriminate.
Qed.

(** C10: [sqrl_init] always returns [SQRL_OK], and whatever calls of
    [sqrl_init] and [sqrl_cleanup] are interleaved with the other public
    operations (connect, disconnect, is_connected, session_id, ping, query,
    insert, update, delete, list_collections, subscribe, unsubscribe,
    subscription_id, error_string, options_default, the query builder and
    its compilers, and the cache client), whatever their inputs and
    whatever the flag's initial value, those operations return the same
    results and leave the client, the query and the cache in the same
    state as without any of those calls. *)
Theorem init_flag_unobserved (calls : list api_call) (g g' : bool) (s : api_state) :
  filter (fun r => negb (is_flag_result r)) (snd (api_run (mk_world g s) calls))
    = snd (api_run (mk_world g' s) (filter (fun x => negb (is_flag_call x)) calls)) /\
  w_state (fst (api_run (mk_world g s) calls))
    = w_state (fst (api_run (mk_world g' s) (filter (fun x => negb (is_flag_call x)) calls))) /\
  (forall e, In (RInit e) (snd (api_run (mk_world g s) calls)) -> e = SQRL_OK).
Proof.
  revert g g' s.
  induction calls as [|call rest IH]; intros g g' s.
  - simpl. repeat split; tauto.
  - rewrite api_run_cons. cbn [filter].
    destruct (is_flag_call call) eqn:Hf.
    + destruct (api_step_flag_call call g s Hf) as [g1 [r [Hs [Hr Hi]]]].
      rewrite Hs. simpl. rewrite Hr. simpl.
      destruct (IH g1 g' s) as [IH1 [IH2 IH3]].
      split; [exact IH1 | split; [exact IH2 |]].
      intros e [E|E]; [apply Hi; exact E | apply IH3; exact E].
    + destruct (api_step_flag_free call s Hf) as [s' [r [Hs Hr]]].
      cbn [negb]. rewrite api_run_cons, !Hs. simpl. rewrite Hr. simpl.
      destruct (IH g g' s') as [IH1 [IH2 IH3]].
      split; [f_equal; exact IH1 | split; [exact IH2 |]].
      intros e [E|E]; [subst r; discriminate | apply IH3; exact E].
Qed.

Lemma recv_all_loop_chunk (ch1 ch2 : list Byte.byte) (evs : list sock_event)
    (acc : list Byte.byte) (t : Z) :
  ch1 <> [] ->
  recv_all_loop (EvData (ch1 ++ ch2) :: evs) (List.length ch1) acc t
    = RecvOk (acc ++ ch1) (match ch2 with [] => evs | _ => EvData ch2 :: evs end).
Proof.
  intros Hne. destruct ch1 as [|b l]; [contradiction|].
  cbn [List.length app recv_all_loop].
  destruct ch2 as [|b2 l2].
  - rewrite app_nil_r, Nat.leb_refl, Nat.sub_diag. destruct evs; reflexivity.
  - assert (Hlt : Nat.leb (List.length (b :: l ++ b2 :: l2)) (S (List.length l)) = false).
    { apply Nat.leb_gt. simpl. rewrite length_app. simpl. lia. }
    simpl List.length in Hlt. rewrite Hlt.
    change (b :: l ++ b2 :: l2) with ((b :: l) ++ b2 :: l2).
    change (S (List.length l)) with (List.length (b :: l)).
    rewrite firstn_app, skipn_app, firstn_all, Nat.sub_diag, skipn_all, firstn_O, app_nil_r.
    reflexivity.
Qed.

Lemma recv_all_loop_zero (evs : list sock_event) (acc : list Byte.byte) (t : Z) :
  recv_all_loop evs 0 acc t = RecvOk acc evs.
Proof. destruct evs; reflexivity. Qed.

Lemma length_write_u32_be (v : Z) : List.length (write_u32_be v) = 4%nat.
Proof. reflexivity. Qed.

(** X1: [recv_frame] decodes any frame whose length field is within the cap:
    type byte and payload back, the bytes after the frame left unread. *)
Theorem recv_frame_decodes_frame (ty enc : Byte.byte) (payload more : list Byte.byte)
    (evs : list sock_event) :
  Z.of_nat (List.length payload) + 2 <= SQRL_MAX_MESSAGE_SIZE ->
  recv_frame (EvData (write_u32_be (Z.of_nat (List.length payload) + 2) ++ [ty; enc]
                      ++ payload ++ more) :: evs)
    = RF_Ok ty payload (match more with [] => evs | _ => EvData more :: evs end) /\
  recv_frame (EvData (send_frame_bytes payload ++ more) :: evs)
    = RF_Ok MSG_TYPE_REQUEST payload (match more with [] => evs | _ => EvData more :: evs end).
Proof.
  intros Hcap.
  assert (Hgen : forall ty enc,
    recv_frame (EvData (write_u32_be (Z.of_nat (List.length payload) + 2) ++ [ty; enc]
                        ++ payload ++ more) :: evs)
      = RF_Ok ty payload (match more with [] => evs | _ => EvData more :: evs end)).
  { clear ty enc. intros ty enc.
    unfold recv_frame, recv_all.
    rewrite app_assoc.
    set (hdr := write_u32_be (Z.of_nat (List.length payload) + 2) ++ [ty; enc]).
    assert (Hl : List.length hdr = 6%nat) by reflexivity.
    rewrite <- Hl, recv_all_loop_chunk by (intros E; rewrite E in Hl; discriminate).
    cbn [app].
    assert (Hr : read_u32_be hdr = Z.of_nat (List.length payload) + 2).
    { unfold hdr. apply read_write_u32_be. unfold SQRL_MAX_MESSAGE_SIZE in Hcap. lia. }
    rewrite Hr. cbn zeta.
    replace ((Z.of_nat (List.length payload) + 2 <? 2)
             || (SQRL_MAX_MESSAGE_SIZE <? Z.of_nat (List.length payload) + 2)) with false
      by (symmetry; apply orb_false_iff; split; apply Z.ltb_ge; lia).
    replace (Z.to_nat (Z.of_nat (List.length payload) + 2 - 2)) with (List.length payload) by lia.
    assert (Hty : nth 4 hdr Byte.x00 = ty) by reflexivity. rewrite Hty.
    destruct payload as [|b l].
    - destruct more, evs; reflexivity.
    - pose proof (recv_all_loop_chunk (b :: l) more evs [] 0 ltac:(discriminate)) as Hc.
      unfold recv_all. simpl in Hc |- *. rewrite Hc. reflexivity. }
  split; [apply Hgen|].
  unfold send_frame_bytes. rewrite Z.mod_small by (unfold SQRL_MAX_MESSAGE_SIZE in Hcap; lia).
  rewrite !app_assoc. rewrite <- (app_assoc _ payload more).
  rewrite <- app_assoc. apply Hgen.
Qed.

Lemma recv_frame_decodes_frame_witness :
  recv_frame (EvData (write_u32_be 4 ++ [Byte.x02; Byte.x01] ++ [Byte.x7b; Byte.x7d] ++ [Byte.x00]) :: [])
    = RF_Ok Byte.x02 [Byte.x7b; Byte.x7d] [EvData [Byte.x00]] /\
  recv_frame (EvData (send_frame_bytes [Byte.x7b; Byte.x7d] ++ [Byte.x00]) :: [])
    = RF_Ok MSG_TYPE_REQUEST [Byte.x7b; Byte.x7d] [EvData [Byte.x00]].
Proof.
  exact (recv_frame_decodes_frame Byte.x02 Byte.x01 [Byte.x7b; Byte.x7d] [Byte.x00] []
           ltac:(vm_compute; discriminate)).
Defined.

(** X2: [recv_all] does not depend on how the peer's bytes are split into
    segments: it returns the first [n] bytes of their concatenation. *)
Theorem recv_all_reassembles (chunks : list (list Byte.byte)) (evs : list sock_event)
    (n : nat) (timeout_ms : Z) :
  Forall (fun ch => ch <> []) chunks ->
  (n <= List.length (List.concat chunks))%nat ->
  exists rest, recv_all (map EvData chunks ++ evs) n timeout_ms
               = RecvOk (firstn n (List.concat chunks)) rest.
Proof.
  intros Hne. revert n.
  unfold recv_all. intros n.
  change (firstn n (List.concat chunks)) with ([] ++ firstn n (List.concat chunks)).
  generalize (@nil Byte.byte) as acc. revert n.
  induction Hne as [|ch cs Hch Hcs IH]; intros n acc Hn.
  - simpl in Hn. assert (n = 0%nat) by lia. subst n. rewrite recv_all_loop_zero. cbn [firstn]. eexists. rewrite app_nil_r. reflexivity.
  - destruct n as [|n'].
    + rewrite recv_all_loop_zero. cbn [firstn]. eexists. rewrite app_nil_r. reflexivity.
    + cbn [map app List.concat].
      destruct ch as [|b l]; [contradiction|].
      cbn [recv_all_loop].
      destruct (Nat.leb_spec (List.length (b :: l)) (S n')) as [Hle|Hgt].
      * simpl in Hn. rewrite length_app in Hn.
        destruct (IH (S n' - List.length (b :: l))%nat (acc ++ b :: l)) as [rest Hrest];
          [simpl in *; lia|].
        exists rest. rewrite Hrest. rewrite firstn_app.
        replace (firstn (S n') (b :: l)) with (b :: l) by (symmetry; apply firstn_all2; exact Hle).
        rewrite app_assoc. reflexivity.
      * eexists. rewrite firstn_app.
        replace (S n' - List.length (b :: l))%nat with 0%nat by lia.
        rewrite firstn_O, app_nil_r. reflexivity.
Qed.

Lemma recv_all_reassembles_witness :
  exists rest, recv_all (map EvData [[Byte.x01]; [Byte.x02; Byte.x03]] ++ []) 2 1000
               = RecvOk (firstn 2 (List.concat [[Byte.x01]; [Byte.x02; Byte.x03]])) rest.
Proof.
  apply (recv_all_reassembles [[Byte.x01]; [Byte.x02; Byte.x03]] [] 2 1000).
  - repeat constructor; discriminate.
  - vm_compute. repeat constructor.
Defined.

(* JSON read-back *)

Lemma str_app_assoc (a b c : string) : (a ++ b ++ c)%string = ((a ++ b) ++ c)%string.
Proof. induction a; simpl; congruence. Qed.

Lemma str_length_app (a b : string) : String.length (a ++ b) = (String.length a + String.length b)%nat.
Proof. induction a; simpl; congruence. Qed.

Lemma prefix_app_long (s1 s2 x : string) :
  (String.length s1 <= String.length s2)%nat ->
  String.prefix s1 (s2 ++ x) = String.prefix s1 s2.
Proof.
  revert s2. induction s1 as [|a s1 IH]; intros s2 H; [destruct s2, x; reflexivity|].
  destruct s2 as [|b s2]; simpl in *; [lia|].
  destruct (ascii_dec a b); [apply IH; lia|reflexivity].
Qed.

Lemma prefix_self_app (s x : string) : String.prefix s (s ++ x) = true.
Proof. induction s; simpl; [destruct x; reflexivity|]. destruct (ascii_dec a a); [assumption|congruence]. Qed.

Lemma prefix_length (s1 s2 : string) : String.prefix s1 s2 = true ->
  (String.length s1 <= String.length s2)%nat.
Proof.
  revert s2. induction s1 as [|a s1 IH]; intros s2 H; simpl; [lia|].
  destruct s2 as [|b s2]; simpl in H; [discriminate|].
  destruct (ascii_dec a b); [simpl; specialize (IH s2 H); lia|discriminate].
Qed.

Lemma strstr_eq (hay needle : string) :
  strstr hay needle = if String.prefix needle hay then Some hay
                      else match hay with
                           | EmptyString => None
                           | String _ t => strstr t needle
                           end.
Proof. destruct hay; reflexivity. Qed.

Lemma strstr_app (pre s x : string) :
  strstr (pre ++ s)%string s = Some s -> strstr (pre ++ s ++ x)%string s = Some (s ++ x)%string.
Proof.
  induction pre as [|a pre IH]; intros H.
  - simpl. rewrite strstr_eq, prefix_self_app. reflexivity.
  - change (strstr (String a (pre ++ s)) s = Some s) in H.
    change (strstr (String a (pre ++ s ++ x)) s = Some (s ++ x)%string).
    rewrite strstr_eq in H. rewrite strstr_eq.
    destruct (String.prefix s (String a (pre ++ s))) eqn:E.
    + inversion H as [H']. exfalso. assert (Hc := f_equal String.length H').
      simpl in Hc. rewrite str_length_app in Hc. lia.
    + replace (String a (pre ++ s ++ x)) with (String a (pre ++ s) ++ x)%string
        by (simpl; rewrite str_app_assoc; reflexivity).
      rewrite prefix_app_long, E by (simpl; rewrite str_length_app; lia).
      simpl. apply IH. simpl in H. exact H.
Qed.

Lemma str_drop_app (a b : string) : str_drop (String.length a) (a ++ b)%string = b.
Proof. induction a; simpl; auto. Qed.

Lemma strchr_before_app (v rest : string) (c : ascii) :
  ~ In c (list_ascii_of_string v) -> strchr_before (v ++ String c rest)%string c = Some v.
Proof.
  induction v as [|x v IH]; intros H; simpl.
  - rewrite Ascii.eqb_refl. reflexivity.
  - simpl in H. destruct (Ascii.eqb_spec x c); [exfalso; auto|].
    rewrite IH by auto. reflexivity.
Qed.

Lemma strchr_before_free (s v : string) (c : ascii) :
  strchr_before s c = Some v -> ~ In c (list_ascii_of_string v).
Proof.
  revert v. induction s as [|x s IH]; intros v H; simpl in H; [discriminate|].
  destruct (Ascii.eqb_spec x c).
  - inversion H; subst. simpl. tauto.
  - destruct (strchr_before s c) as [v'|] eqn:E; simpl in H; [|discriminate].
    inversion H; subst. simpl. intros [Hx|Hx]; [congruence|]. exact (IH v' eq_refl Hx).
Qed.

Lemma json_get_string_after (pre key v rest : string) :
  let search := (quote ++ key ++ quote ++ ":" ++ quote)%string in
  strstr (pre ++ search)%string search = Some search ->
  quote_free v ->
  json_get_string (pre ++ search ++ v ++ quote ++ rest)%string key = Some v.
Proof.
  intros search Hs Hv. unfold json_get_string. fold search.
  rewrite (strstr_app pre search (v ++ quote ++ rest) Hs).
  rewrite str_drop_app. apply strchr_before_app. exact Hv.
Qed.

(** X3: when the first occurrence of the search text (the key between
    double quotes, a colon, a double quote) ends [pre], [json_get_string]
    returns the value written after it, up to the next double quote. *)
Theorem json_get_string_reads_value (pre key v rest : string) :
  let search := (quote ++ key ++ quote ++ ":" ++ quote)%string in
  strstr (pre ++ search)%string search = Some search ->
  quote_free v ->
  json_get_string (pre ++ search ++ v ++ quote ++ rest)%string key = Some v.
Proof. apply json_get_string_after. Qed.

Lemma json_get_string_reads_value_witness :
  json_get_string ("{" ++ quote ++ "type" ++ quote ++ ":" ++ quote ++ "pong" ++ quote ++ "}")%string "type"
  = Some "pong"%string.
Proof.
  apply (json_get_string_reads_value "{" "type" "pong" "}"); [vm_compute; reflexivity|].
  unfold quote_free. simpl. intros H. repeat destruct H as [H|H]; try discriminate; exact H.
Defined.

Lemma prefix_app_l (a b h : string) :
  String.prefix (a ++ b)%string h = true -> String.prefix a h = true.
Proof.
  revert h. induction a as [|x a IH]; intros h H; [destruct h; reflexivity|].
  destruct h as [|y h]; simpl in H |- *; [discriminate|].
  destruct (ascii_dec x y); [apply IH; exact H|discriminate].
Qed.

Lemma strstr_app_none (hay a b : string) :
  strstr hay a = None -> strstr hay (a ++ b)%string = None.
Proof.
  induction hay as [|x hay IH]; intros H; rewrite strstr_eq in H |- *.
  - destruct (String.prefix a EmptyString) eqn:E; [discriminate|].
    destruct (String.prefix (a ++ b) EmptyString) eqn:E'; [|reflexivity].
    apply prefix_app_l in E'. congruence.
  - destruct (String.prefix a (String x hay)) eqn:E; [discriminate|].
    destruct (String.prefix (a ++ b) (String x hay)) eqn:E'.
    + apply prefix_app_l in E'. congruence.
    + apply IH. exact H.
Qed.

(** X4: a key whose text (the key between double quotes and a colon) does
    not occur in the JSON is read by neither [json_get_string] nor
    [json_get_object]: both return NULL. *)
Theorem json_get_missing_key (json key : string) :
  strstr json (quote ++ key ++ quote ++ ":")%string = None ->
  json_get_string json key = None /\ json_get_object json key = None.
Proof.
  intros H. unfold json_get_string, json_get_object.
  replace (quote ++ key ++ quote ++ ":" ++ quote)%string
    with ((quote ++ key ++ quote ++ ":") ++ quote)%string
    by (rewrite <- !str_app_assoc; reflexivity).
  rewrite (strstr_app_none json _ quote H), H. split; reflexivity.
Qed.

Lemma json_get_missing_key_witness :
  json_get_string (jstr "ok" ++ ":1")%string "type" = None /\
  json_get_object (jstr "ok" ++ ":1")%string "type" = None.
Proof. apply json_get_missing_key. vm_compute. reflexivity. Defined.

(** X5: a value [json_get_string] returns never contains a double quote:
    the copy stops at the first one, escaped or not. *)
Theorem json_get_string_quote_free (json key v : string) :
  json_get_string json key = Some v -> quote_free v.
Proof.
  unfold json_get_string, quote_free. intros H.
  destruct (strstr json _) as [s|] in H.
  - exact (strchr_before_free _ _ _ H).
  - destruct (strstr json _) as [s|] in H; [|discriminate].
    destruct (skip_chars _ _) as [|c t] in H; [discriminate|].
    destruct (Ascii.eqb c quote_char); [|discriminate].
    exact (strchr_before_free _ _ _ H).
Qed.

Lemma json_get_string_quote_free_witness :
  json_get_string ("{" ++ jstr "id" ++ ":" ++ jstr "a\" ++ quote ++ "b}")%string "id"
    = Some "a\"%string /\ quote_free "a\"%string.
Proof.
  split; [vm_compute; reflexivity|].
  apply (json_get_string_quote_free ("{" ++ jstr "id" ++ ":" ++ jstr "a\" ++ quote ++ "b}")%string "id").
  vm_compute. reflexivity.
Defined.

Lemma substring_S (c : ascii) (t : string) (n : nat) :
  substring 0 (S n) (String c t) = String c (substring 0 n t).
Proof. reflexivity. Qed.

Lemma substring_0 (s : string) : substring 0 0 s = EmptyString.
Proof. destruct s; reflexivity. Qed.

Lemma count_char_app (c : ascii) (a b : string) :
  count_char c (a ++ b)%string = (count_char c a + count_char c b)%nat.
Proof. induction a as [|x a IH]; simpl; [reflexivity|]. rewrite IH. lia. Qed.

Lemma brace_scan_close (s : string) (d n : nat) :
  brace_scan s (S d) = Some n ->
  (exists m, substring 0 n s = (m ++ "}")%string) /\
  (count_char "{" (substring 0 n s) + S d = count_char "}" (substring 0 n s))%nat /\
  (forall k, k < n -> count_char "}" (substring 0 k s) <= count_char "{" (substring 0 k s) + d)%nat.
Proof.
  revert d n. induction s as [|c t IH]; intros d n H; [discriminate|].
  cbn [brace_scan] in H.
  destruct (Ascii.eqb_spec c "{"%char) as [Ho|Ho].
  - subst c. destruct (brace_scan t (S (S d))) as [n'|] eqn:E; simpl in H; [|discriminate].
    inversion H; subst n. destruct (IH (S d) n' E) as [[m Hm] [Hc Hk]].
    split; [|split].
    + exists (String "{" m). rewrite substring_S, Hm. reflexivity.
    + rewrite substring_S. simpl. lia.
    + intros [|k] Hk'; [rewrite substring_0; simpl; lia|].
      rewrite substring_S. simpl. specialize (Hk k ltac:(lia)). lia.
  - destruct (Ascii.eqb_spec c "}"%char) as [Hc'|Hc'].
    + subst c. destruct d as [|d0].
      * assert (E : brace_scan t 0 = Some 0%nat) by (destruct t; reflexivity).
        rewrite E in H. simpl in H. inversion H; subst.
        split; [|split].
        -- exists EmptyString. rewrite substring_S, substring_0. reflexivity.
        -- rewrite substring_S, substring_0. reflexivity.
        -- intros k Hk. assert (k = 0%nat) by lia. subst k. rewrite substring_0. simpl. lia.
      * destruct (brace_scan t (S d0)) as [n'|] eqn:E; simpl in H; [|discriminate].
        inversion H; subst n. destruct (IH d0 n' E) as [[m Hm] [Hc Hk]].
        split; [|split].
        -- exists (String "}" m). rewrite substring_S, Hm. reflexivity.
        -- rewrite substring_S. simpl. lia.
        -- intros [|k] Hk'; [rewrite substring_0; simpl; lia|].
           rewrite substring_S. simpl. specialize (Hk k ltac:(lia)). lia.
    + destruct (brace_scan t (S d)) as [n'|] eqn:E; simpl in H; [|discriminate].
      inversion H; subst n. destruct (IH d n' E) as [[m Hm] [Hc Hk]].
      assert (Hx : forall x, count_char x (String c EmptyString) = if Ascii.eqb c x then 1%nat else 0%nat)
        by (intros x; simpl; lia).
      assert (E1 : Ascii.eqb c "{"%char = false) by (apply Ascii.eqb_neq; exact Ho).
      assert (E2 : Ascii.eqb c "}"%char = false) by (apply Ascii.eqb_neq; exact Hc').
      split; [|split].
      * exists (String c m). rewrite substring_S, Hm. reflexivity.
      * rewrite substring_S. simpl. rewrite E1, E2. simpl. lia.
      * intros [|k] Hk'; [rewrite substring_0; simpl; lia|].
        rewrite substring_S. simpl. rewrite E1, E2. simpl. specialize (Hk k ltac:(lia)). lia.
Qed.

Lemma substring_length_le (s : string) (n : nat) :
  (String.length (substring 0 n s) <= n)%nat.
Proof.
  revert n. induction s as [|c t IH]; intros [|n]; simpl; try lia.
  specialize (IH n). lia.
Qed.

Lemma substring_substring (s : string) (k n : nat) :
  (k <= n)%nat -> substring 0 k (substring 0 n s) = substring 0 k s.
Proof.
  revert k n. induction s as [|c t IH]; intros k n H.
  - destruct n, k; reflexivity.
  - destruct k as [|k]; [rewrite !substring_0; reflexivity|].
    destruct n as [|n]; [lia|].
    rewrite !substring_S. rewrite IH by lia. reflexivity.
Qed.

(** X6: an object [json_get_object] returns is the shortest balanced text
    after the key: it starts with an opening brace, ends with a closing
    one, has as many of each, and every shorter non-empty prefix has more
    opening than closing braces. *)
Theorem json_get_object_balanced (json key o : string) :
  json_get_object json key = Some o ->
  (exists m, o = ("{" ++ m ++ "}")%string) /\
  count_char "{" o = count_char "}" o /\
  (forall k, 0 < k < String.length o ->
     count_char "}" (substring 0 k o) < count_char "{" (substring 0 k o))%nat.
Proof.
  unfold json_get_object. intros H.
  destruct (strstr json _) as [s|] in H; [|discriminate].
  destruct (skip_chars _ _) as [|c t] in H; [discriminate|].
  destruct (Ascii.eqb_spec c "{"%char) as [->|]; [|discriminate].
  destruct (brace_scan t 1) as [n|] eqn:E; [|discriminate].
  inversion H; subst o. clear H.
  destruct (brace_scan_close t 0 n E) as [[m Hm] [Hc Hk]].
  try rewrite substring_S. split; [|split].
  - exists m. rewrite Hm. reflexivity.
  - simpl. lia.
  - intros [|k] Hk'; [lia|].
    simpl String.length in Hk'. pose proof (substring_length_le t n).
    change (substring 0 (S k) (String "{" (substring 0 n t)))
      with (String "{" (substring 0 k (substring 0 n t))).
    rewrite substring_substring by lia. simpl. specialize (Hk k ltac:(lia)). lia.
Qed.

Lemma json_get_object_balanced_witness :
  json_get_object (jstr "data" ++ ": {" ++ jstr "a" ++ ":{}}, " ++ jstr "x" ++ ":1}")%string "data"
    = Some ("{" ++ jstr "a" ++ ":{}}")%string /\
  count_char "{" ("{" ++ jstr "a" ++ ":{}}")%string = count_char "}" ("{" ++ jstr "a" ++ ":{}}")%string.
Proof.
  split; [vm_compute; reflexivity|].
  apply (json_get_object_balanced (jstr "data" ++ ": {" ++ jstr "a" ++ ":{}}, " ++ jstr "x" ++ ":1}")%string "data").
  vm_compute. reflexivity.
Defined.

(* decimal ids *)

Lemma digit_value (v : Z) :
  (Z.of_nat (nat_of_ascii (ascii_of_nat (Z.to_nat (48 + v mod 10)))) - 48) = v mod 10.
Proof.
  pose proof (Z.mod_pos_bound v 10 ltac:(lia)).
  rewrite nat_ascii_embedding by lia. rewrite Z2Nat.id by lia. lia.
Qed.

Lemma dec_digits_aux_parse (fuel : nat) (v : Z) (acc : string) :
  0 <= v < 10 ^ Z.of_nat fuel ->
  exists k, forall a, parse_dec_aux (dec_digits_aux fuel v acc) a
                      = parse_dec_aux acc (a * 10 ^ Z.of_nat k + v).
Proof.
  revert v acc. induction fuel as [|f IH]; intros v acc Hv.
  - exists 0%nat. intros a. simpl in *. replace v with 0 by lia. f_equal; lia.
  - cbn [dec_digits_aux]. destruct (Z.ltb_spec v 10) as [Hlt|Hge].
    + exists 1%nat. intros a. cbn [parse_dec_aux]. rewrite digit_value.
      rewrite Z.mod_small by lia. f_equal; lia.
    + rewrite Nat2Z.inj_succ, Z.pow_succ_r in Hv by lia.
      destruct (IH (v / 10) (String (ascii_of_nat (Z.to_nat (48 + v mod 10))) acc))
        as [k Hk]; [split; [apply Z.div_pos; lia|apply Z.div_lt_upper_bound; lia]|].
      exists (S k). intros a. rewrite Hk. cbn [parse_dec_aux]. rewrite digit_value.
      f_equal. rewrite Nat2Z.inj_succ, Z.pow_succ_r by lia.
      pose proof (Z.div_mod v 10 ltac:(lia)). nia.
Qed.

Lemma parse_dec_dec_string (v : Z) : 0 <= v < 10 ^ 20 -> parse_dec (dec_string v) = v.
Proof.
  intros Hv. unfold parse_dec, dec_string.
  destruct (dec_digits_aux_parse 20 v EmptyString Hv) as [k Hk].
  rewrite Hk. simpl. lia.
Qed.

Lemma next_ids_map (k : nat) (c : sqrl_client) :
  next_ids k c = map (fun i => dec_string ((request_id c + Z.of_nat i) mod 2 ^ 64)) (seq 1 k).
Proof.
  revert c. induction k as [|k IH]; intros c; [reflexivity|].
  cbn [next_ids]. unfold next_request_id at 1. cbn [seq map]. rewrite IH.
  f_equal. rewrite <- (seq_shift k 1), map_map. apply map_ext. intros i.
  unfold set_request_id. cbn [request_id]. f_equal.
  rewrite Z.add_mod_idemp_l by lia. f_equal; lia.
Qed.

Lemma NoDup_map_offset (r : Z) (s k : nat) :
  NoDup (map (fun i => r + Z.of_nat i) (seq s k)).
Proof.
  revert s. induction k as [|k IH]; intros s; simpl; constructor; [|apply IH].
  rewrite in_map_iff. intros [i [Hi Hin]]. rewrite in_seq in Hin. lia.
Qed.

(** X7: [k] uninterrupted [next_request_id] calls from a counter [r] with
    [r + k < 2^64] return the decimal renderings of [r + 1], ..., [r + k]
    ([strtoull] reads them back), pairwise distinct. *)
Theorem next_ids_distinct (k : nat) (c : sqrl_client) :
  0 <= request_id c -> request_id c + Z.of_nat k < 2 ^ 64 ->
  map parse_dec (next_ids k c) = map (fun i => request_id c + Z.of_nat i) (seq 1 k) /\
  NoDup (next_ids k c).
Proof.
  intros H0 Hk.
  assert (Hm : map parse_dec (next_ids k c) = map (fun i => request_id c + Z.of_nat i) (seq 1 k)).
  { rewrite next_ids_map, map_map. apply map_ext_in. intros i Hi. apply in_seq in Hi.
    rewrite Z.mod_small by lia. apply parse_dec_dec_string.
    assert (2 ^ 64 < 10 ^ 20) by (vm_compute; reflexivity). lia. }
  split; [exact Hm|].
  apply (NoDup_map_inv parse_dec). rewrite Hm. apply NoDup_map_offset.
Qed.

Lemma next_ids_distinct_witness :
  map parse_dec (next_ids 12 (set_request_id 95 fresh_client))
    = map (fun i => 95 + Z.of_nat i) (seq 1 12) /\
  NoDup (next_ids 12 (set_request_id 95 fresh_client)).
Proof. apply next_ids_distinct; vm_compute; [discriminate|reflexivity]. Defined.

(* request builders *)

Lemma format_s_length_aux (n : nat) (fmt : string) (args : list string) :
  (String.length fmt <= n)%nat ->
  (String.length (format_s fmt args)
     <= String.length fmt + fold_right (fun a m => String.length a + m) 0 args)%nat.
Proof.
  revert fmt args. induction n as [|n IH]; intros fmt args Hn.
  - destruct fmt; simpl in *; lia.
  - destruct fmt as [|c t]; [simpl; lia|]. cbn [format_s].
    simpl in Hn.
    destruct (Ascii.eqb c "%"%char).
    + destruct t as [|d t'].
      * simpl. lia.
      * destruct (Ascii.eqb d "s"%char).
        -- simpl in Hn. destruct args as [|a r].
           ++ specialize (IH t' [] ltac:(lia)). simpl in *. lia.
           ++ rewrite str_length_app. specialize (IH t' r ltac:(lia)). simpl in *. lia.
        -- cbn [String.length] in Hn |- *. specialize (IH (String d t') args ltac:(simpl; lia)).
           simpl in IH |- *. lia.
    + cbn [String.length]. specialize (IH t args ltac:(lia)). lia.
Qed.

Lemma format_s_length (fmt : string) (args : list string) :
  (String.length (format_s fmt args)
     <= String.length fmt + fold_right (fun a m => String.length a + m) 0 args)%nat.
Proof. apply (format_s_length_aux (String.length fmt)). lia. Qed.

Lemma substring_all (s : string) (n : nat) :
  (String.length s <= n)%nat -> substring 0 n s = s.
Proof.
  revert n. induction s as [|c t IH]; intros n H; [destruct n; reflexivity|].
  destruct n as [|n]; simpl in H; [lia|]. rewrite substring_S, IH by lia. reflexivity.
Qed.

Lemma snprintf_fits (size : nat) (fmt : string) (args : list string) :
  (String.length fmt + fold_right (fun a m => String.length a + m) 0 args < size)%nat ->
  snprintf size fmt args = format_s fmt args.
Proof.
  intros H. unfold snprintf. apply substring_all.
  pose proof (format_s_length fmt args). lia.
Qed.

Lemma dec_digits_aux_length (fuel : nat) (v : Z) (acc : string) :
  (String.length (dec_digits_aux fuel v acc) <= fuel + String.length acc)%nat.
Proof.
  revert v acc. induction fuel as [|f IH]; intros v acc; simpl; [lia|].
  destruct (v <? 10); simpl; [lia|]. specialize (IH (v / 10) (String (ascii_of_nat (Z.to_nat (48 + v mod 10))) acc)).
  simpl in IH. lia.
Qed.

Lemma dec_string_length (v : Z) : (String.length (dec_string v) <= 20)%nat.
Proof. apply (dec_digits_aux_length 20 v EmptyString). Qed.

Lemma request_json_fits (v : Z) (q coll did d : string) :
  let id := dec_string v in
  (ping_json id = format_s PING_FMT [id]) /\
  (query_json id q = format_s QUERY_FMT [id; q]) /\
  (insert_json id coll d = format_s INSERT_FMT [id; coll; d]) /\
  (update_json id coll did d = format_s UPDATE_FMT [id; coll; did; d]) /\
  (delete_json id coll did = format_s DELETE_FMT [id; coll; did]) /\
  (list_collections_json id = format_s LIST_FMT [id]) /\
  (subscribe_json id q = format_s SUBSCRIBE_FMT [id; q]) /\
  (unsubscribe_json id = format_s UNSUBSCRIBE_FMT [id]).
Proof.
  intros id. pose proof (dec_string_length v) as Hid. fold id in Hid.
  unfold ping_json, query_json, insert_json, update_json, delete_json,
    list_collections_json, subscribe_json, unsubscribe_json.
  repeat split; apply snprintf_fits; cbn [fold_right];
    match goal with |- context [String.length ?F] =>
      match F with
      | PING_FMT => idtac | QUERY_FMT => idtac | INSERT_FMT => idtac
      | UPDATE_FMT => idtac | DELETE_FMT => idtac | LIST_FMT => idtac
      | SUBSCRIBE_FMT => idtac | UNSUBSCRIBE_FMT => idtac
      end;
      let x := eval vm_compute in (String.length F) in change (String.length F) with x
    end; lia.
Qed.

(** X8: the buffers the operations size for their request JSON are always
    large enough: for an id from [next_request_id] and any user strings,
    [snprintf] writes the whole formatted text, nothing is cut off. *)
Theorem request_json_untruncated (v : Z) (q coll did d : string) :
  let id := dec_string v in
  (ping_json id = format_s PING_FMT [id]) /\
  (query_json id q = format_s QUERY_FMT [id; q]) /\
  (insert_json id coll d = format_s INSERT_FMT [id; coll; d]) /\
  (update_json id coll did d = format_s UPDATE_FMT [id; coll; did; d]) /\
  (delete_json id coll did = format_s DELETE_FMT [id; coll; did]) /\
  (list_collections_json id = format_s LIST_FMT [id]) /\
  (subscribe_json id q = format_s SUBSCRIBE_FMT [id; q]) /\
  (unsubscribe_json id = format_s UNSUBSCRIBE_FMT [id]).
Proof. apply request_json_fits. Qed.

Lemma dec_digits_aux_chars (fuel : nat) (v : Z) (acc : string) (c : ascii) :
  In c (list_ascii_of_string (dec_digits_aux fuel v acc)) ->
  In c (list_ascii_of_string acc) \/
  exists x, 0 <= x < 10 /\ c = ascii_of_nat (Z.to_nat (48 + x)).
Proof.
  revert v acc. induction fuel as [|f IH]; intros v acc H; simpl in H; [left; exact H|].
  assert (Hd : forall acc', In c (list_ascii_of_string
                 (String (ascii_of_nat (Z.to_nat (48 + v mod 10))) acc')) ->
               In c (list_ascii_of_string acc') \/
               exists x, 0 <= x < 10 /\ c = ascii_of_nat (Z.to_nat (48 + x))).
  { intros acc' [Hc|Hc]; [right; exists (v mod 10); split; [apply Z.mod_pos_bound; lia|auto]|left; exact Hc]. }
  destruct (v <? 10).
  - apply Hd. exact H.
  - destruct (IH _ _ H) as [H'|H']; [|right; exact H']. apply Hd. exact H'.
Qed.

Lemma dec_string_quote_free (v : Z) : quote_free (dec_string v).
Proof.
  unfold quote_free, dec_string. intros H.
  destruct (dec_digits_aux_chars _ _ _ _ H) as [[]|[x [Hx Hc]]].
  assert (Hn := f_equal nat_of_ascii Hc). unfold quote_char in Hn.
  rewrite !nat_ascii_embedding in Hn by lia. lia.
Qed.

Ltac request_read_back :=
  match goal with
  | |- json_get_string (format_s ?F ?args) ?key = Some ?val =>
      let x := eval vm_compute in (format_s F args) in
      change (format_s F args) with x;
      let pre := eval vm_compute in
        (match strstr F (quote ++ key ++ quote ++ ":" ++ quote)%string with
         | Some s => substring 0 (String.length F - String.length s) F
         | None => EmptyString
         end) in
      let search := constr:((quote ++ key ++ quote ++ ":" ++ quote)%string) in
      let H := fresh in
      assert (H : exists rest, x = (pre ++ search ++ val ++ quote ++ rest)%string)
        by (eexists; reflexivity);
      let rest := fresh "rest" in
      destruct H as [rest H]; rewrite H;
      apply json_get_string_after;
      [vm_compute; reflexivity
      |first [assumption
             |unfold quote_free; simpl; intros Hq; repeat destruct Hq as [Hq|Hq]; try discriminate; exact Hq]]
  end.

Lemma request_formats_type_id (id q coll did d : string) :
  quote_free id ->
  json_get_string (format_s PING_FMT [id]) "type" = Some "ping"%string /\
  json_get_string (format_s PING_FMT [id]) "id" = Some id /\
  json_get_string (format_s QUERY_FMT [id; q]) "type" = Some "query"%string /\
  json_get_string (format_s QUERY_FMT [id; q]) "id" = Some id /\
  json_get_string (format_s INSERT_FMT [id; coll; d]) "type" = Some "insert"%string /\
  json_get_string (format_s INSERT_FMT [id; coll; d]) "id" = Some id /\
  json_get_string (format_s UPDATE_FMT [id; coll; did; d]) "type" = Some "update"%string /\
  json_get_string (format_s UPDATE_FMT [id; coll; did; d]) "id" = Some id /\
  json_get_string (format_s DELETE_FMT [id; coll; did]) "type" = Some "delete"%string /\
  json_get_string (format_s DELETE_FMT [id; coll; did]) "id" = Some id /\
  json_get_string (format_s LIST_FMT [id]) "type" = Some "listcollections"%string /\
  json_get_string (format_s LIST_FMT [id]) "id" = Some id /\
  json_get_string (format_s SUBSCRIBE_FMT [id; q]) "type" = Some "subscribe"%string /\
  json_get_string (format_s SUBSCRIBE_FMT [id; q]) "id" = Some id /\
  json_get_string (format_s UNSUBSCRIBE_FMT [id]) "type" = Some "unsubscribe"%string /\
  json_get_string (format_s UNSUBSCRIBE_FMT [id]) "id" = Some id.
Proof. intros Hid. repeat split; request_read_back. Qed.

(** X9: every request JSON an operation sends carries its type and the id
    [next_request_id] gave it, read back by [json_get_string] as the
    reader thread reads responses, whatever the user strings. *)
Theorem request_json_type_id (v : Z) (q coll did d : string) :
  let id := dec_string v in
  json_get_string (ping_json id) "type" = Some "ping"%string /\
  json_get_string (ping_json id) "id" = Some id /\
  json_get_string (query_json id q) "type" = Some "query"%string /\
  json_get_string (query_json id q) "id" = Some id /\
  json_get_string (insert_json id coll d) "type" = Some "insert"%string /\
  json_get_string (insert_json id coll d) "id" = Some id /\
  json_get_string (update_json id coll did d) "type" = Some "update"%string /\
  json_get_string (update_json id coll did d) "id" = Some id /\
  json_get_string (delete_json id coll did) "type" = Some "delete"%string /\
  json_get_string (delete_json id coll did) "id" = Some id /\
  json_get_string (list_collections_json id) "type" = Some "listcollections"%string /\
  json_get_string (list_collections_json id) "id" = Some id /\
  json_get_string (subscribe_json id q) "type" = Some "subscribe"%string /\
  json_get_string (subscribe_json id q) "id" = Some id /\
  json_get_string (unsubscribe_json id) "type" = Some "unsubscribe"%string /\
  json_get_string (unsubscribe_json id) "id" = Some id.
Proof.
  intros id.
  assert (Hq : quote_free id) by apply dec_string_quote_free.
  destruct (request_json_fits v q coll did d) as (E1 & E2 & E3 & E4 & E5 & E6 & E7 & E8).
  fold id in E1, E2, E3, E4, E5, E6, E7, E8. clearbody id.
  rewrite E1, E2, E3, E4, E5, E6, E7, E8.
  apply request_formats_type_id. exact Hq.
Qed.

(* error strings, options, connect, handshake packet *)

(** X10: [sqrl_error_string] gives each error code its own message: two
    codes with the same message are the same code. *)
Theorem sqrl_error_string_injective (e1 e2 : sqrl_error) :
  sqrl_error_string e1 = sqrl_error_string e2 -> e1 = e2.
Proof. destruct e1, e2; intros H; try reflexivity; discriminate H. Qed.

Lemma sqrl_error_string_injective_witness :
  sqrl_error_string SQRL_ERR_TIMEOUT = sqrl_error_string SQRL_ERR_TIMEOUT /\
  SQRL_ERR_TIMEOUT = SQRL_ERR_TIMEOUT.
Proof. split; [reflexivity|]. apply sqrl_error_string_injective. reflexivity. Defined.

(** X11: passing [sqrl_options_default()] to [sqrl_connect] behaves exactly
    as passing NULL: the same handshake packet and the same outcome. *)
Theorem options_default_as_null (client_out : bool) (host : option string)
    (env : connect_env) :
  handshake_packet (Some sqrl_options_default) = handshake_packet None /\
  do_handshake (Some sqrl_options_default) (env_hs_send_ok env) (env_hs_events env)
    = do_handshake None (env_hs_send_ok env) (env_hs_events env) /\
  sqrl_connect client_out host (Some sqrl_options_default) env
    = sqrl_connect client_out host None env.
Proof.
  assert (Hh : forall s evs, do_handshake (Some sqrl_options_default) s evs = do_handshake None s evs)
    by reflexivity.
  split; [reflexivity|split; [apply Hh|]].
  unfold sqrl_connect, do_handshake_mem. rewrite Hh. reflexivity.
Qed.

Ltac in_list := simpl; repeat first [left; reflexivity | right].

Lemma do_handshake_codes (opts : option sqrl_options) (send_ok : bool)
    (evs : list sock_event) (e : sqrl_error) (n : option (string * sqrl_encoding)) :
  do_handshake opts send_ok evs = HS_Done e n ->
  (e = SQRL_OK /\ exists sid enc, n = Some (sid, enc)) \/
  (n = None /\ In e [SQRL_ERR_SEND; SQRL_ERR_RECV; SQRL_ERR_VERSION_MISMATCH;
                     SQRL_ERR_AUTH_FAILED; SQRL_ERR_HANDSHAKE]).
Proof.
  unfold do_handshake. intros H.
  destruct send_ok; simpl in H; [|inversion H; right; split; [reflexivity|in_list]].
  destruct (recv_all evs 19 (handshake_timeout opts)) as [resp rest|er rest|];
    [|inversion H; right; split; [reflexivity|in_list]|discriminate].
  repeat match type of H with
  | context [if ?b then _ else _] => destruct b
  end; inversion H; subst;
    first [left; split; [reflexivity|eauto] | right; split; [reflexivity|in_list]].
Qed.

Ltac connect_fail Hfail :=
  match goal with
  | H : Conn_Done ?e' None = Conn_Done _ _ |- _ =>
      let A := fresh in let B := fresh in let C := fresh in
      destruct (Hfail e' ltac:(in_list) H) as (A & B & C);
      split; [exact A|split; [exact B|intros ? Hc; destruct (C _ Hc)]]
  end.

Lemma do_handshake_mem_codes (pkt_ok sid_ok : bool) (opts : option sqrl_options)
    (send_ok : bool) (evs : list sock_event) (e : sqrl_error)
    (n : option (string * sqrl_encoding)) :
  do_handshake_mem pkt_ok sid_ok opts send_ok evs = HS_Done e n ->
  (e = SQRL_OK /\ exists sid enc, n = Some (sid, enc) /\
     do_handshake opts send_ok evs = HS_Done SQRL_OK (Some (sid, enc))) \/
  (n = None /\ In e [SQRL_ERR_MEMORY; SQRL_ERR_SEND; SQRL_ERR_RECV; SQRL_ERR_VERSION_MISMATCH;
                     SQRL_ERR_AUTH_FAILED; SQRL_ERR_HANDSHAKE]).
Proof.
  unfold do_handshake_mem. intros H.
  destruct pkt_ok; simpl in H; [|inversion H; right; split; [reflexivity|in_list]].
  destruct (do_handshake opts send_ok evs) as [e0 n0|] eqn:Eh; [|discriminate].
  destruct (do_handshake_codes _ _ _ _ _ Eh) as [[-> [sid [enc ->]]]|[-> Hin]].
  - destruct sid_ok; inversion H; subst.
    + left. split; [reflexivity|]. exists sid, enc. split; reflexivity.
    + right. split; [reflexivity|in_list].
  - destruct e0; inversion H; subst; try (simpl in Hin; intuition discriminate);
      right; (split; [reflexivity|simpl in *; tauto]).
Qed.

(** X12: [sqrl_connect] stores a client exactly when it returns [SQRL_OK],
    and its only error codes are INVALID_ARG, MEMORY (a failed [calloc] of
    the client or [malloc] in the handshake), CONNECT and those of the
    handshake (SEND, RECV, VERSION_MISMATCH, AUTH_FAILED, HANDSHAKE); the
    client is connected, its reader running, its counter 0, both tables
    empty, the session id and encoding those the handshake negotiated, and
    its request timeout the option's or 30000. *)
Theorem sqrl_connect_result (client_out : bool) (host : option string)
    (opts : option sqrl_options) (env : connect_env) (e : sqrl_error)
    (r : option sqrl_client) :
  sqrl_connect client_out host opts env = Conn_Done e r ->
  (e = SQRL_OK <-> r <> None) /\
  In e [SQRL_OK; SQRL_ERR_INVALID_ARG; SQRL_ERR_MEMORY; SQRL_ERR_CONNECT; SQRL_ERR_SEND;
        SQRL_ERR_RECV; SQRL_ERR_VERSION_MISMATCH; SQRL_ERR_AUTH_FAILED; SQRL_ERR_HANDSHAKE] /\
  (forall cl, r = Some cl ->
     connected cl = true /\ reader_running cl = true /\ request_id cl = 0 /\
     pending_requests cl = [] /\ subscriptions cl = [] /\
     client_request_timeout_ms cl
       = match opts with Some o => request_timeout_ms o | None => 30000 end /\
     exists sid, session_id cl = Some sid /\
       do_handshake opts (env_hs_send_ok env) (env_hs_events env)
         = HS_Done SQRL_OK (Some (sid, encoding cl))).
Proof.
  unfold sqrl_connect. intros H.
  assert (Hfail : forall e', In e' [SQRL_ERR_INVALID_ARG; SQRL_ERR_MEMORY; SQRL_ERR_CONNECT] ->
            Conn_Done e' None = Conn_Done e r ->
            (e = SQRL_OK <-> r <> None) /\
            In e [SQRL_OK; SQRL_ERR_INVALID_ARG; SQRL_ERR_MEMORY; SQRL_ERR_CONNECT; SQRL_ERR_SEND;
                  SQRL_ERR_RECV; SQRL_ERR_VERSION_MISMATCH; SQRL_ERR_AUTH_FAILED;
                  SQRL_ERR_HANDSHAKE] /\
            (forall cl, r = Some cl -> False)).
  { intros e' He' Hd. inversion Hd; subst.
    split; [|split; [simpl in *; tauto|discriminate]].
    split; [intros ->; simpl in He'; intuition discriminate|congruence]. }
  destruct client_out; simpl in H;
    [|connect_fail Hfail].
  destruct host as [h|];
    [|connect_fail Hfail].
  destruct (env_calloc_ok env) eqn:E0; simpl in H;
    [|connect_fail Hfail].
  destruct (env_resolve_ok env) eqn:E1; simpl in H;
    [|connect_fail Hfail].
  destruct (env_socket_ok env) eqn:E2; simpl in H;
    [|connect_fail Hfail].
  destruct (env_connect_ok env) eqn:E3; simpl in H;
    [|connect_fail Hfail].
  destruct (do_handshake_mem (env_pkt_alloc_ok env) (env_sid_alloc_ok env) opts
              (env_hs_send_ok env) (env_hs_events env)) as [he hn|] eqn:Eh;
    [|discriminate].
  destruct (do_handshake_mem_codes _ _ _ _ _ _ _ Eh) as [[-> [sid [enc [-> Hd0]]]]|[-> Hin]].
  - destruct (env_thread_ok env) eqn:E4.
    + inversion H; subst. split; [split; [discriminate|reflexivity]|split; [simpl; tauto|]].
      intros cl Hc. inversion Hc; subst. simpl.
      repeat split; try reflexivity. exists sid. split; [reflexivity|exact Hd0].
    + connect_fail Hfail.
  - assert (Hd : Conn_Done he None = Conn_Done e r) by
      (rewrite <- H; destruct he; simpl in Hin; intuition discriminate).
    inversion Hd; subst.
    split; [split; [intros ->; simpl in Hin; intuition discriminate|congruence]|].
    split; [simpl in *; tauto|discriminate].
Qed.

Lemma sqrl_connect_result_witness :
  let env := mk_connect_env true true true true true true
               [EvData (Byte.x00 :: Byte.x01 :: Byte.x01 :: repeat Byte.x07 16)] true true in
  sqrl_connect true (Some "localhost"%string) None env
    = Conn_Done SQRL_OK (Some (mk_client (Some "07070707-0707-0707-0707-070707070707"%string)
                               SQRL_ENCODING_MSGPACK true 0 30000 true [] [])) /\
  connected (mk_client (Some "07070707-0707-0707-0707-070707070707"%string)
               SQRL_ENCODING_MSGPACK true 0 30000 true [] []) = true /\
  sqrl_connect true (Some "localhost"%string) None
    (mk_connect_env true true true true true true
       [EvData (Byte.x00 :: Byte.x01 :: Byte.x01 :: repeat Byte.x07 16)] false true)
    = Conn_Done SQRL_ERR_MEMORY None /\
  In SQRL_ERR_MEMORY [SQRL_OK; SQRL_ERR_INVALID_ARG; SQRL_ERR_MEMORY; SQRL_ERR_CONNECT; SQRL_ERR_SEND;
        SQRL_ERR_RECV; SQRL_ERR_VERSION_MISMATCH; SQRL_ERR_AUTH_FAILED; SQRL_ERR_HANDSHAKE].
Proof.
  intros env. split; [vm_compute; reflexivity|]. split.
  - apply (sqrl_connect_result true (Some "localhost"%string) None env SQRL_OK
             (Some (mk_client (Some "07070707-0707-0707-0707-070707070707"%string)
                      SQRL_ENCODING_MSGPACK true 0 30000 true [] []))); [vm_compute; reflexivity|reflexivity].
  - split; [vm_compute; reflexivity|].
    apply (sqrl_connect_result true (Some "localhost"%string) None
             (mk_connect_env true true true true true true
                [EvData (Byte.x00 :: Byte.x01 :: Byte.x01 :: repeat Byte.x07 16)] false true)
             SQRL_ERR_MEMORY None).
    vm_compute. reflexivity.
Defined.

Lemma u16_fields (v : Z) :
  0 <= v < 2 ^ 16 ->
  Z.land (Z.shiftr v 8) 255 * 256 + Z.land v 255 = v.
Proof.
  intros Hv. rewrite !land_255, Z.shiftr_div_pow2 by lia.
  change (2 ^ 8) with 256.
  rewrite (Z.mod_small (v / 256)) by (split; [apply Z.div_pos|apply Z.div_lt_upper_bound]; lia).
  pose proof (Z.div_mod v 256 ltac:(lia)). lia.
Qed.

(** X13: the handshake packet is the four magic bytes, version 1, a flags
    byte (3 when [opts] is NULL or asks for MessagePack, else 2), the token
    length as a big-endian 16-bit field, then the whole token: [8 + n]
    bytes for a token of [n] bytes, the field holding [n mod 2^16] (so a
    token of 65536 bytes or more is sent in full under a wrapped length). *)
Theorem handshake_packet_layout (opts : option sqrl_options) :
  let token := handshake_token opts in
  let pkt := handshake_packet opts in
  List.length pkt = (8 + String.length token)%nat /\
  firstn 4 pkt = bytes_of_string "SQRL" /\
  nth 4 pkt Byte.x00 = Byte.x01 /\
  byte_val (nth 5 pkt Byte.x00)
    = (match opts with None => 3 | Some o => if use_msgpack o then 3 else 2 end) /\
  byte_val (nth 6 pkt Byte.x00) * 256 + byte_val (nth 7 pkt Byte.x00)
    = Z.of_nat (String.length token) mod 2 ^ 16 /\
  skipn 8 pkt = bytes_of_string token.
Proof.
  intros token pkt.
  assert (Hp : pkt = MAGIC ++ [SQRL_PROTOCOL_VERSION;
             byte_of_Z (Z.lor (match opts with None => 1 | Some o => if use_msgpack o then 1 else 0 end) 2)]
             ++ write_u16_be (Z.of_nat (String.length token) mod 2 ^ 16) ++ bytes_of_string token)
    by (subst pkt token; unfold handshake_packet, handshake_token; destruct opts; reflexivity).
  rewrite Hp. clear Hp pkt.
  assert (Hb : forall s, List.length (bytes_of_string s) = String.length s)
    by (intros s; unfold bytes_of_string; rewrite length_map;
        induction s; simpl; congruence).
  split; [cbn [List.length MAGIC app]; unfold write_u16_be; simpl; rewrite Hb; reflexivity|].
  split; [reflexivity|]. split; [reflexivity|].
  split; [cbn; rewrite byte_val_byte_of_Z; destruct opts as [o|]; [destruct (use_msgpack o)|]; reflexivity|].
  split; [|reflexivity].
  unfold MAGIC, write_u16_be.
  change (bytes_of_string "SQRL") with [Byte.x53; Byte.x51; Byte.x52; Byte.x4c].
  cbn [app nth].
  rewrite !byte_val_byte_of_Z, <- !Z.land_assoc, !Z.land_diag. apply u16_fields.
  apply Z.mod_pos_bound. lia.
Qed.

(* send_request and the reader together *)

(** X14: a request registered by [send_request] under a fresh node [h] is
    completed by the first frame whose JSON carries its id and a type other
    than "change": before it the waiter keeps waiting, after it the waiter
    leaves with [SQRL_OK] and exactly that JSON, no callback runs, and the
    cleanup leaves the client as it was before the request. *)
Theorem request_response_round_trip (c : sqrl_client) (h : nat) (id t : string)
    (evs : list sock_event) (ty : Byte.byte) (p : list Byte.byte) (r : list sock_event) :
  recv_frame evs = RF_Ok ty p r ->
  json_get_string (c_string p) "id" = Some id ->
  json_get_string (c_string p) "type" = Some t ->
  t <> "change"%string ->
  let c1 := sr_register c h id in
  sr_check c1 h = None /\
  exists c2, reader_iter c1 evs = Reader_continue c2 [] r /\
             sr_check c2 h = Some (SQRL_OK, Some (c_string p)) /\
             sr_cleanup c2 h = c.
Proof.
  intros Hf Hid Ht Hne c1. split.
  - unfold sr_check, find_pending, c1, sr_register. simpl. rewrite Nat.eqb_refl. reflexivity.
  - exists (dispatch_response c1 id (c_string p)).
    rewrite (reader_iter_decoded c1 evs ty p r Hf).
    assert (Hr : route c1 (c_string p) = (dispatch_response c1 id (c_string p), [])).
    { unfold route. rewrite Hid, Ht. apply String.eqb_neq in Hne. rewrite Hne. reflexivity. }
    rewrite Hr. split; [reflexivity|].
    unfold dispatch_response, c1, sr_register. simpl. rewrite String.eqb_refl.
    split.
    + unfold sr_check, find_pending. simpl. rewrite Nat.eqb_refl. reflexivity.
    + unfold sr_cleanup, sr_unlink. simpl. rewrite Nat.eqb_refl. destruct c; reflexivity.
Qed.

Lemma request_response_round_trip_witness :
  sr_check (sr_register fresh_client 5 "1") 5 = None /\
  exists c2, reader_iter (sr_register fresh_client 5 "1") (server_frame response_for_1)
               = Reader_continue c2 [] [] /\
             sr_check c2 5 = Some (SQRL_OK, Some response_for_1) /\
             sr_cleanup c2 5 = fresh_client.
Proof.
  assert (Hc : c_string (bytes_of_string response_for_1) = response_for_1) by (vm_compute; reflexivity).
  pose proof (request_response_round_trip fresh_client 5 "1" "result" (server_frame response_for_1)
           MSG_TYPE_RESPONSE (bytes_of_string response_for_1) []
           ltac:(vm_compute; reflexivity) ltac:(vm_compute; reflexivity)
           ltac:(vm_compute; reflexivity) ltac:(discriminate)) as H.
  rewrite Hc in H. exact H.
Defined.

(* the public operations *)

(** X15: on a client that is not connected every request operation returns
    [SQRL_ERR_CLOSED] (so does [sqrl_ping] on a NULL client) before taking
    an id or sending anything: the client, its counter included, is
    unchanged and nothing is stored.  [sqrl_unsubscribe] still removes the
    subscription locally, sends nothing and returns [SQRL_OK]. *)
Theorem ops_when_disconnected (cl : sqrl_client) (submit : string -> string -> submit_result)
    (q coll did d id : string) (cb ud : nat) (doc_out : bool) :
  connected cl = false ->
  sqrl_ping None submit = mk_op SQRL_ERR_CLOSED None None None /\
  sqrl_ping (Some cl) submit = mk_op SQRL_ERR_CLOSED (Some cl) None None /\
  sqrl_query (Some cl) (Some q) true submit = mk_op SQRL_ERR_CLOSED (Some cl) None None /\
  sqrl_insert (Some cl) (Some coll) (Some d) true submit
    = mk_op SQRL_ERR_CLOSED (Some cl) None None /\
  sqrl_update (Some cl) (Some coll) (Some did) (Some d) true submit
    = mk_op SQRL_ERR_CLOSED (Some cl) None None /\
  sqrl_delete (Some cl) (Some coll) (Some did) doc_out submit
    = mk_op SQRL_ERR_CLOSED (Some cl) None None /\
  sqrl_list_collections (Some cl) true true submit = mk_op SQRL_ERR_CLOSED (Some cl) None None /\
  sqrl_subscribe (Some cl) (Some q) (Some cb) ud true submit
    = mk_op SQRL_ERR_CLOSED (Some cl) None None /\
  sqrl_unsubscribe (Some id) (Some cl)
    = mk_op SQRL_OK (Some (set_subscriptions (remove_subscription (subscriptions cl) id) cl))
        None None.
Proof.
  intros H. unfold sqrl_ping, sqrl_query, sqrl_insert, sqrl_update, sqrl_delete,
    sqrl_list_collections, sqrl_subscribe, sqrl_unsubscribe.
  rewrite H. simpl. rewrite H. repeat split; reflexivity.
Qed.

Lemma ops_when_disconnected_witness :
  sqrl_ping (Some (set_connected false sample_client)) (fun _ _ => Submitted_err SQRL_ERR_SEND)
    = mk_op SQRL_ERR_CLOSED (Some (set_connected false sample_client)) None None.
Proof.
  destruct (ops_when_disconnected (set_connected false sample_client)
              (fun _ _ => Submitted_err SQRL_ERR_SEND) "q" "c" "d" "{}" "2" 1 2 true
              ltac:(reflexivity)) as (_ & H & _). exact H.
Defined.

(** A response of type "error". *)
Lemma response_is_error_type (response : string) :
  response_is_error response = true -> json_get_string response "type" = Some "error"%string.
Proof.
  unfold response_is_error. destruct (json_get_string response "type") as [t|]; [|discriminate].
  intros H. apply String.eqb_eq in H. subst t. reflexivity.
Qed.

(** X16: a response of type "error" makes every request operation return
    [SQRL_ERR_SERVER] after it sent its request: nothing is stored through
    the output pointer, and [sqrl_subscribe] registers no subscription
    (the client only has its counter advanced). *)
Theorem ops_server_error (cl : sqrl_client) (response q coll did d : string)
    (cb ud : nat) (doc_out : bool) :
  connected cl = true ->
  response_is_error response = true ->
  let submit := fun _ _ : string => Submitted_ok response in
  let cl' := fst (next_request_id cl) in
  let id := snd (next_request_id cl) in
  sqrl_ping (Some cl) submit = mk_op SQRL_ERR_SERVER (Some cl') (Some (ping_json id)) None /\
  sqrl_query (Some cl) (Some q) true submit
    = mk_op SQRL_ERR_SERVER (Some cl') (Some (query_json id q)) None /\
  sqrl_insert (Some cl) (Some coll) (Some d) true submit
    = mk_op SQRL_ERR_SERVER (Some cl') (Some (insert_json id coll d)) None /\
  sqrl_update (Some cl) (Some coll) (Some did) (Some d) true submit
    = mk_op SQRL_ERR_SERVER (Some cl') (Some (update_json id coll did d)) None /\
  sqrl_delete (Some cl) (Some coll) (Some did) doc_out submit
    = mk_op SQRL_ERR_SERVER (Some cl') (Some (delete_json id coll did)) None /\
  sqrl_list_collections (Some cl) true true submit
    = mk_op SQRL_ERR_SERVER (Some cl') (Some (list_collections_json id)) None /\
  sqrl_subscribe (Some cl) (Some q) (Some cb) ud true submit
    = mk_op SQRL_ERR_SERVER (Some cl') (Some (subscribe_json id q)) None.
Proof.
  intros Hc He submit cl' id.
  pose proof (response_is_error_type response He) as Ht.
  unfold sqrl_ping, sqrl_query, sqrl_insert, sqrl_update, sqrl_delete,
    sqrl_list_collections, sqrl_subscribe, submit, cl', id.
  rewrite Hc. simpl. rewrite Ht, He. simpl. repeat split; reflexivity.
Qed.

Lemma ops_server_error_witness :
  let response := ("{" ++ jstr "type" ++ ":" ++ jstr "error" ++ "," ++ jstr "id" ++ ":" ++ jstr "3" ++ "}")%string in
  sqrl_ping (Some sample_client) (fun _ _ => Submitted_ok response)
    = mk_op SQRL_ERR_SERVER (Some (fst (next_request_id sample_client)))
        (Some (ping_json (snd (next_request_id sample_client)))) None.
Proof.
  intros response.
  destruct (ops_server_error sample_client response "q" "c" "d" "{}" 1 2 true
              ltac:(reflexivity) ltac:(vm_compute; reflexivity)) as (H & _). exact H.
Defined.

(** X17: a non-error response without a "data" object makes [sqrl_insert]
    and [sqrl_update] fail with [SQRL_ERR_DECODE] (nothing stored), while
    [sqrl_delete] succeeds and stores NULL. *)
Theorem ops_missing_data (cl : sqrl_client) (response coll did d : string) :
  connected cl = true ->
  response_is_error response = false ->
  json_get_object response "data" = None ->
  let submit := fun _ _ : string => Submitted_ok response in
  let cl' := fst (next_request_id cl) in
  let id := snd (next_request_id cl) in
  sqrl_insert (Some cl) (Some coll) (Some d) true submit
    = mk_op SQRL_ERR_DECODE (Some cl') (Some (insert_json id coll d)) None /\
  sqrl_update (Some cl) (Some coll) (Some did) (Some d) true submit
    = mk_op SQRL_ERR_DECODE (Some cl') (Some (update_json id coll did d)) None /\
  sqrl_delete (Some cl) (Some coll) (Some did) true submit
    = mk_op SQRL_OK (Some cl') (Some (delete_json id coll did)) (Some None).
Proof.
  intros Hc He Hd submit cl' id.
  unfold sqrl_insert, sqrl_update, sqrl_delete, submit, cl', id.
  rewrite Hc. simpl. rewrite He, Hd. repeat split; reflexivity.
Qed.

Lemma ops_missing_data_witness :
  sqrl_delete (Some sample_client) (Some "users"%string) (Some "u1"%string) true
    (fun _ _ => Submitted_ok response_for_1)
    = mk_op SQRL_OK (Some (fst (next_request_id sample_client)))
        (Some (delete_json (snd (next_request_id sample_client)) "users" "u1")) (Some None).
Proof.
  destruct (ops_missing_data sample_client response_for_1 "users" "u1" "{}"
              ltac:(reflexivity) ltac:(vm_compute; reflexivity) ltac:(vm_compute; reflexivity))
    as (_ & _ & H). exact H.
Defined.

Lemma list_ascii_of_string_app (a b : string) :
  list_ascii_of_string (a ++ b)%string = list_ascii_of_string a ++ list_ascii_of_string b.
Proof. induction a; simpl; congruence. Qed.

Lemma rev_last_cons {A} (l : list A) (d : A) :
  l <> [] -> exists t, rev l = last l d :: t.
Proof.
  intros Hl. destruct (exists_last Hl) as [l' [x ->]].
  exists (rev l'). rewrite rev_app_distr, last_last. reflexivity.
Qed.

Lemma strip_trailing_closer (v : string) :
  v <> EmptyString ->
  ~ In (last (list_ascii_of_string v) " "%char) ["}"%char; newline_char] ->
  strip_trailing (v ++ "}")%string = v.
Proof.
  intros Hv Hl. unfold strip_trailing.
  rewrite list_ascii_of_string_app, rev_app_distr. cbn [list_ascii_of_string rev app].
  cbn [drop_closers]. rewrite Ascii.eqb_refl. simpl orb. cbn iota.
  assert (Hne : list_ascii_of_string v <> []) by (destruct v; [congruence|discriminate]).
  destruct (rev_last_cons (list_ascii_of_string v) " "%char Hne) as [t Ht].
  rewrite Ht. cbn [drop_closers].
  destruct (Ascii.eqb_spec (last (list_ascii_of_string v) " "%char) "}"%char) as [E|_];
    [exfalso; apply Hl; left; symmetry; exact E|].
  destruct (Ascii.eqb_spec (last (list_ascii_of_string v) " "%char) newline_char) as [E|_];
    [exfalso; apply Hl; right; left; symmetry; exact E|].
  simpl orb. cbn iota. rewrite <- Ht, rev_involutive. apply string_of_list_ascii_of_string.
Qed.

Lemma DATA_KEY_length : String.length DATA_KEY = 7%nat.
Proof. reflexivity. Qed.

(** X18: when a non-error response has no object under "data", [sqrl_query]
    returns as its result the text after the first ["data":] (spaces
    skipped) with the trailing closing braces and newlines cut: a value [v]
    closing the response is returned as written (a string with its
    quotes).  Without any "data" key the result is "null". *)
Theorem query_data_scalar (response : string) (c : ascii) (m : string) :
  let v := String c m in
  strstr response DATA_KEY = Some (DATA_KEY ++ v ++ "}")%string ->
  ~ In c [" "%char; tab_char; newline_char; "{"%char] ->
  ~ In (last (list_ascii_of_string v) " "%char) ["}"%char; newline_char] ->
  query_data response = v.
Proof.
  intros v Hs Hc Hl. unfold query_data, json_get_object.
  change (quote ++ "data" ++ quote ++ ":")%string with DATA_KEY.
  rewrite Hs, str_drop_app. subst v. cbn [String.append skip_chars existsb].
  assert (Hb : forall x, In x [" "%char; tab_char; newline_char; "{"%char] -> Ascii.eqb c x = false)
    by (intros x Hx; apply Ascii.eqb_neq; intros ->; exact (Hc Hx)).
  rewrite (Hb " "%char), (Hb tab_char), (Hb newline_char) by (simpl; tauto). cbn [orb].
  rewrite (Hb "{"%char) by (simpl; tauto).
  rewrite <- DATA_KEY_length, str_drop_app. cbn [String.append skip_chars existsb].
  rewrite (Hb " "%char) by (simpl; tauto). cbn [orb].
  apply (strip_trailing_closer (String c m)); [discriminate|exact Hl].
Qed.

Lemma query_data_scalar_witness :
  query_data ("{" ++ jstr "type" ++ ":" ++ jstr "result" ++ "," ++ DATA_KEY ++ jstr "x" ++ "}")%string
    = jstr "x".
Proof.
  apply (query_data_scalar _ quote_char ("x" ++ quote)%string);
    [vm_compute; reflexivity| |]; simpl; intros H; repeat destruct H as [H|H]; try discriminate H; exact H.
Defined.

(** X19: without a "data" key, [sqrl_query] stores "null" and
    [sqrl_list_collections] stores a NULL list and a count of 0. *)
Theorem data_key_absent (response : string) :
  strstr response DATA_KEY = None ->
  query_data response = "null"%string /\ list_collections_parse response = (None, 0%nat).
Proof.
  intros H. unfold query_data, list_collections_parse, json_get_object.
  change (quote ++ "data" ++ quote ++ ":")%string with DATA_KEY.
  rewrite H. split; reflexivity.
Qed.

Lemma data_key_absent_witness :
  query_data response_for_1 = "null"%string /\ list_collections_parse response_for_1 = (None, 0%nat).
Proof. apply data_key_absent. vm_compute. reflexivity. Defined.

Lemma skip_until_quote_free (n t : string) :
  quote_free n -> skip_until quote_char (n ++ String quote_char t)%string = String quote_char t.
Proof.
  unfold quote_free. induction n as [|x n IH]; intros H; simpl.
  - reflexivity.
  - simpl in H. destruct (Ascii.eqb_spec x quote_char) as [E|E]; [exfalso; auto|].
    apply IH. auto.
Qed.

Lemma items_cons2 (n n2 : string) (l : list string) :
  String.concat "," (map jstr (n :: n2 :: l))
  = String quote_char (n ++ String quote_char (String "," (String.concat "," (map jstr (n2 :: l)))))%string.
Proof. cbn [map]. change (String.concat "," (jstr n :: jstr n2 :: map jstr l)) with
  (jstr n ++ "," ++ String.concat "," (jstr n2 :: map jstr l))%string.
  unfold jstr at 1. simpl. rewrite <- str_app_assoc. reflexivity. Qed.

Lemma items_one (n : string) :
  String.concat "," (map jstr [n]) = String quote_char (n ++ String quote_char EmptyString)%string.
Proof. reflexivity. Qed.

Lemma lc_count_name (f : nat) (n t : string) (k : nat) :
  quote_free n ->
  lc_count (S f) (String quote_char (n ++ String quote_char t)) k = lc_count f t (S k).
Proof.
  intros Hn. cbn [lc_count].
  replace (Ascii.eqb quote_char "]"%char) with false by reflexivity.
  rewrite Ascii.eqb_refl, skip_until_quote_free by exact Hn. reflexivity.
Qed.

Lemma lc_extract_name (f : nat) (n t : string) (r : nat) :
  quote_free n ->
  lc_extract (S f) (String quote_char (n ++ String quote_char t)) (S r)
  = n :: lc_extract f t r.
Proof.
  intros Hn. cbn [lc_extract].
  replace (Ascii.eqb quote_char "]"%char) with false by reflexivity.
  rewrite Ascii.eqb_refl, strchr_before_app by exact Hn.
  rewrite str_drop_app. reflexivity.
Qed.

Lemma lc_count_items (ns : list string) (rest : string) (f k : nat) :
  Forall quote_free ns -> ns <> [] ->
  (String.length (String.concat "," (map jstr ns) ++ "]" ++ rest) < f)%nat ->
  lc_count f (String.concat "," (map jstr ns) ++ "]" ++ rest)%string k = (k + List.length ns)%nat.
Proof.
  revert f k. induction ns as [|n ns IH]; intros f k Hq Hne Hf; [congruence|].
  inversion Hq as [|? ? Hn Hns]; subst.
  destruct ns as [|n2 l].
  - rewrite items_one in Hf |- *. cbn [String.append] in Hf |- *.
    try rewrite <- !str_app_assoc in Hf. try rewrite <- !str_app_assoc. cbn [String.append] in Hf |- *.
    cbn [String.length] in Hf. rewrite str_length_app in Hf. cbn [String.length] in Hf.
    destruct f as [|f]; [lia|]. rewrite lc_count_name by exact Hn.
    destruct f as [|f]; [lia|]. simpl. lia.
  - rewrite items_cons2 in Hf |- *. cbn [String.append] in Hf |- *.
    try rewrite <- !str_app_assoc in Hf. try rewrite <- !str_app_assoc. cbn [String.append] in Hf |- *.
    cbn [String.length] in Hf. rewrite str_length_app in Hf. cbn [String.length] in Hf.
    destruct f as [|f]; [lia|]. rewrite lc_count_name by exact Hn.
    destruct f as [|f]; [lia|].
    replace (String "]" rest) with ("]" ++ rest)%string by reflexivity.
    change (lc_count (S f) (String "," (String.concat "," (map jstr (n2 :: l)) ++ "]" ++ rest)) (S k))
      with (lc_count f (String.concat "," (map jstr (n2 :: l)) ++ "]" ++ rest) (S k)).
    rewrite IH; [cbn [List.length]; lia|exact Hns|discriminate|]. 
    rewrite !str_length_app in *; cbn [String.length] in *; lia.
Qed.

Lemma lc_extract_items (ns : list string) (rest : string) (f : nat) :
  Forall quote_free ns -> ns <> [] ->
  (String.length (String.concat "," (map jstr ns) ++ "]" ++ rest) < f)%nat ->
  lc_extract f (String.concat "," (map jstr ns) ++ "]" ++ rest)%string (List.length ns) = ns.
Proof.
  revert f. induction ns as [|n ns IH]; intros f Hq Hne Hf; [congruence|].
  inversion Hq as [|? ? Hn Hns]; subst.
  destruct ns as [|n2 l].
  - rewrite items_one in Hf |- *. cbn [String.append] in Hf |- *.
    try rewrite <- !str_app_assoc in Hf. try rewrite <- !str_app_assoc. cbn [String.append] in Hf |- *.
    cbn [String.length] in Hf. rewrite str_length_app in Hf. cbn [String.length] in Hf.
    destruct f as [|f]; [lia|]. cbn [List.length]. rewrite lc_extract_name by exact Hn.
    destruct f as [|f]; reflexivity.
  - rewrite items_cons2 in Hf |- *. cbn [String.append] in Hf |- *.
    try rewrite <- !str_app_assoc in Hf. try rewrite <- !str_app_assoc. cbn [String.append] in Hf |- *.
    cbn [String.length] in Hf. rewrite str_length_app in Hf. cbn [String.length] in Hf.
    destruct f as [|f]; [lia|]. cbn [List.length]. rewrite lc_extract_name by exact Hn.
    destruct f as [|f]; [lia|].
    replace (String "]" rest) with ("]" ++ rest)%string by reflexivity.
    change (lc_extract (S f) (String "," (String.concat "," (map jstr (n2 :: l)) ++ "]" ++ rest))
              (S (List.length l)))
      with (lc_extract f (String.concat "," (map jstr (n2 :: l)) ++ "]" ++ rest)
              (List.length (n2 :: l))).
    f_equal. apply (IH f Hns); [discriminate|].
    rewrite !str_length_app in *; cbn [String.length] in *; lia.
Qed.

(** X20: when the "data" value of a non-error response is a JSON array of
    strings without double quotes inside them, [sqrl_list_collections]
    stores exactly those names in order and their number; an empty array
    gives a NULL list and a count of 0. *)
Theorem list_collections_round_trip (response rest : string) (ns : list string) :
  Forall quote_free ns ->
  strstr response DATA_KEY = Some (DATA_KEY ++ json_string_array ns ++ rest)%string ->
  list_collections_parse response
    = (match ns with [] => None | _ => Some ns end, List.length ns).
Proof.
  intros Hq Hs. unfold list_collections_parse. rewrite Hs, <- DATA_KEY_length, str_drop_app.
  assert (Hj : (json_string_array ns ++ rest)%string
               = String "[" (String.concat "," (map jstr ns) ++ "]" ++ rest)%string)
    by (unfold json_string_array; rewrite <- !str_app_assoc; reflexivity).
  rewrite Hj. cbv zeta.
  destruct ns as [|n ns'].
  - reflexivity.
  - set (data := (String.concat "," (map jstr (n :: ns')) ++ "]" ++ rest)%string).
    assert (Hd : skip_chars [" "%char; "["%char] (String "[" data) = data).
    { subst data. destruct ns' as [|n2 l]; [rewrite items_one|rewrite items_cons2]; reflexivity. }
    rewrite Hd. subst data.
    rewrite lc_count_items by (try exact Hq; try discriminate; lia).
    rewrite Nat.add_0_l. rewrite lc_extract_items by (try exact Hq; try discriminate; lia).
    reflexivity.
Qed.

Lemma list_collections_round_trip_witness :
  list_collections_parse
    ("{" ++ jstr "type" ++ ":" ++ jstr "result" ++ "," ++ DATA_KEY
     ++ json_string_array ["users"; "posts"] ++ "}")%string
  = (Some ["users"; "posts"]%string, 2%nat).
Proof.
  apply (list_collections_round_trip _ "}" ["users"; "posts"]%string);
    [|vm_compute; reflexivity].
  repeat constructor; unfold quote_free; simpl; intros H; repeat destruct H as [H|H];
    try discriminate H; exact H.
Defined.

(** X21: after a successful [sqrl_subscribe], a change message for the
    returned id reaches the new callback with its user data (the entry is
    the first with that id); [sqrl_unsubscribe] on the handle then sends
    the unsubscribe request and restores the registry, so that, if no
    older subscription had the id, later change messages for it invoke
    nothing. *)
Theorem subscribe_then_unsubscribe (cl : sqrl_client) (response q json cj : string)
    (cb ud : nat) :
  connected cl = true ->
  response_is_error response = false ->
  json_get_string json "id" = Some (snd (next_request_id cl)) ->
  json_get_string json "type" = Some "change"%string ->
  json_get_object json "change" = Some cj ->
  let cl' := fst (next_request_id cl) in
  let id := snd (next_request_id cl) in
  exists cl2,
    sqrl_subscribe (Some cl) (Some q) (Some cb) ud true (fun _ _ => Submitted_ok response)
      = mk_op SQRL_OK (Some cl2) (Some (subscribe_json id q)) (Some id) /\
    route cl2 json = (cl2, [mk_call cb ud (change_type_of (json_get_string cj "type"))]) /\
    sqrl_unsubscribe (Some id) (Some cl2)
      = mk_op SQRL_OK (Some cl') (Some (unsubscribe_json id)) None /\
    (~ In id (map se_id (subscriptions cl)) -> route cl' json = (cl', [])).
Proof.
  intros Hc He Hid Ht Hch cl' id.
  exists (set_subscriptions (mk_subscription id cb ud :: subscriptions cl') cl').
  assert (Hcl' : connected cl' = true) by (subst cl'; destruct cl; exact Hc).
  assert (Hroute : forall c, route c json = (c, dispatch_change c id cj)).
  { intros c. unfold route. rewrite Hid, Ht, Hch. reflexivity. }
  split; [|split; [|split]].
  - unfold sqrl_subscribe. rewrite Hc. simpl. rewrite He. reflexivity.
  - rewrite Hroute. unfold dispatch_change. simpl. rewrite String.eqb_refl. reflexivity.
  - unfold sqrl_unsubscribe. simpl. rewrite String.eqb_refl. simpl.
    replace (set_subscriptions (subscriptions cl') (set_subscriptions _ cl')) with cl'
      by (destruct cl'; reflexivity).
    first [rewrite Hcl' | rewrite Hc | idtac]; reflexivity.
  - intros Hn. rewrite Hroute, dispatch_change_absent; [reflexivity|].
    subst cl'. destruct cl; exact Hn.
Qed.

Lemma subscribe_then_unsubscribe_witness :
  let json := ("{" ++ jstr "type" ++ ":" ++ jstr "change" ++ "," ++ jstr "id" ++ ":" ++ jstr "3"
               ++ "," ++ jstr "change" ++ ":{" ++ jstr "type" ++ ":" ++ jstr "insert" ++ "}}")%string in
  exists cl2,
    sqrl_subscribe (Some sample_client) (Some "q"%string) (Some 42%nat) 7%nat true
      (fun _ _ => Submitted_ok response_for_1)
      = mk_op SQRL_OK (Some cl2) (Some (subscribe_json "3" "q")) (Some "3"%string) /\
    route cl2 json = (cl2, [mk_call 42%nat 7%nat SQRL_CHANGE_INSERT]) /\
    sqrl_unsubscribe (Some "3"%string) (Some cl2)
      = mk_op SQRL_OK (Some (fst (next_request_id sample_client))) (Some (unsubscribe_json "3")) None /\
    (~ In "3"%string (map se_id (subscriptions sample_client)) ->
     route (fst (next_request_id sample_client)) json = (fst (next_request_id sample_client), [])).
Proof.
  intros json.
  exact (subscribe_then_unsubscribe sample_client response_for_1 "q" json
           ("{" ++ jstr "type" ++ ":" ++ jstr "insert" ++ "}")%string 42%nat 7%nat
           ltac:(reflexivity) ltac:(vm_compute; reflexivity) ltac:(vm_compute; reflexivity)
           ltac:(vm_compute; reflexivity) ltac:(vm_compute; reflexivity)).
Defined.

Lemma c_str_app (a b : string) :
  c_str a = a -> c_str (a ++ b)%string = (a ++ c_str b)%string.
Proof.
  induction a as [|c t IH]; simpl; [reflexivity|].
  destruct (Ascii.eqb c nul_char); [discriminate|].
  intros H. injection H as H. rewrite IH by exact H. reflexivity.
Qed.

Lemma c_str_app_id (a b : string) :
  c_str a = a -> c_str b = b -> c_str (a ++ b)%string = (a ++ b)%string.
Proof. intros Ha Hb. rewrite c_str_app, Hb by exact Ha. reflexivity. Qed.

Lemma c_str_idem (s : string) : c_str (c_str s) = c_str s.
Proof.
  induction s as [|c t IH]; simpl; [reflexivity|].
  destruct (Ascii.eqb c nul_char) eqn:E; simpl; [reflexivity|]. rewrite E, IH. reflexivity.
Qed.

Lemma c_str_substring (s : string) (n : nat) :
  c_str s = s -> c_str (substring 0 n s) = substring 0 n s.
Proof.
  revert n. induction s as [|c t IH]; intros n H; [destruct n; reflexivity|].
  destruct n as [|n]; [reflexivity|]. simpl in H |- *.
  destruct (Ascii.eqb c nul_char); [discriminate|]. injection H as H. rewrite IH by exact H. reflexivity.
Qed.

Lemma c_str_not_in (s : string) :
  ~ In nul_char (list_ascii_of_string s) -> c_str s = s.
Proof.
  induction s as [|c t IH]; simpl; intros H; [reflexivity|].
  destruct (Ascii.eqb_spec c nul_char) as [E|E]; [subst; tauto|].
  rewrite IH by tauto. reflexivity.
Qed.

Lemma c_str_dec_string (v : Z) : c_str (dec_string v) = dec_string v.
Proof.
  apply c_str_not_in. unfold dec_string. intros H.
  destruct (dec_digits_aux_chars _ _ _ _ H) as [[]|[x [Hx Hc]]].
  assert (Hn := f_equal nat_of_ascii Hc). unfold nul_char in Hn.
  rewrite !nat_ascii_embedding in Hn by lia. lia.
Qed.

Lemma field_okb_strncpy (n : nat) (s : string) : field_okb n (strncpy_field n s) = true.
Proof.
  unfold field_okb, strncpy_field. apply andb_true_iff. split.
  - apply String.eqb_eq. apply c_str_substring, c_str_idem.
  - apply Nat.leb_le, substring_length_le.
Qed.

Lemma substring_app_le (a b : string) (n : nat) :
  (n <= String.length a)%nat -> substring 0 n (a ++ b) = substring 0 n a.
Proof.
  revert n. induction a as [|c t IH]; intros n H; simpl in H.
  - assert (n = 0%nat) by lia. subst. rewrite !substring_0. reflexivity.
  - destruct n as [|n]; [reflexivity|]. simpl. rewrite IH by lia. reflexivity.
Qed.

Lemma json_unescape_escape (s : string) : json_unescape (json_escape s) = s.
Proof.
  induction s as [|c t IH]; simpl; [reflexivity|].
  destruct (Ascii.eqb c quote_char || Ascii.eqb c backslash_char) eqn:E.
  - simpl. rewrite IH. reflexivity.
  - apply orb_false_iff in E. destruct E as [_ B]. simpl. rewrite B, IH. reflexivity.
Qed.

Lemma escape_loop_prefix (s : string) (j lim : Z) :
  exists k, escape_loop s j lim = json_escape (substring 0 k (c_str s)).
Proof.
  revert j. induction s as [|c t IH]; intros j.
  - exists 0%nat. reflexivity.
  - simpl. destruct (Ascii.eqb c nul_char).
    + exists 0%nat. reflexivity.
    + destruct (j <? lim).
      * destruct (Ascii.eqb c quote_char || Ascii.eqb c backslash_char) eqn:E.
        -- destruct (IH (j + 2)) as [k Hk]. exists (S k). simpl. rewrite E, Hk. reflexivity.
        -- destruct (IH (j + 1)) as [k Hk]. exists (S k). simpl. rewrite E, Hk. reflexivity.
      * exists 0%nat. rewrite substring_0. reflexivity.
Qed.

Lemma escape_loop_length (s : string) (j lim : Z) :
  j + Z.of_nat (String.length (escape_loop s j lim)) <= Z.max j (lim + 1).
Proof.
  revert j. induction s as [|c t IH]; intros j; simpl; [lia|].
  destruct (Ascii.eqb c nul_char); [simpl; lia|].
  destruct (j <? lim) eqn:L; [apply Z.ltb_lt in L | simpl; lia].
  destruct (Ascii.eqb c quote_char || Ascii.eqb c backslash_char).
  - specialize (IH (j + 2)). simpl String.length. lia.
  - specialize (IH (j + 1)). simpl String.length. lia.
Qed.

Lemma escape_loop_full (s : string) (j lim : Z) :
  j + Z.of_nat (String.length (json_escape (c_str s))) <= lim ->
  escape_loop s j lim = json_escape (c_str s).
Proof.
  revert j. induction s as [|c t IH]; intros j H; simpl; [reflexivity|].
  simpl in H. destruct (Ascii.eqb c nul_char); [reflexivity|].
  simpl in H |- *.
  destruct (Ascii.eqb c quote_char || Ascii.eqb c backslash_char); simpl in H.
  - replace (j <? lim) with true by lia. rewrite IH by lia. reflexivity.
  - replace (j <? lim) with true by lia. rewrite IH by lia. reflexivity.
Qed.

Lemma escape_loop_long (s : string) (j lim : Z) :
  Z.min (j + Z.of_nat (String.length (c_str s))) lim
    <= j + Z.of_nat (String.length (escape_loop s j lim)).
Proof.
  revert j. induction s as [|c t IH]; intros j; simpl; [lia|].
  destruct (Ascii.eqb c nul_char); [simpl; lia|].
  destruct (j <? lim) eqn:L; [apply Z.ltb_lt in L | apply Z.ltb_ge in L; simpl; lia].
  destruct (Ascii.eqb c quote_char || Ascii.eqb c backslash_char).
  - specialize (IH (j + 2)). simpl String.length. lia.
  - specialize (IH (j + 1)). simpl String.length. lia.
Qed.

Lemma c_str_json_escape (s : string) : c_str s = s -> c_str (json_escape s) = json_escape s.
Proof.
  induction s as [|c t IH]; simpl; [reflexivity|].
  destruct (Ascii.eqb c nul_char) eqn:N; [discriminate|]. intros H. injection H as H.
  destruct (Ascii.eqb c quote_char || Ascii.eqb c backslash_char); simpl.
  - rewrite N, IH by exact H. reflexivity.
  - rewrite N, IH by exact H. reflexivity.
Qed.

Lemma escape_json_string_c_str (s : string) (bs : Z) :
  c_str (escape_json_string s bs) = escape_json_string s bs.
Proof.
  unfold escape_json_string. destruct (escape_loop_prefix s 0 ((bs - 2) mod 2 ^ 64)) as [k ->].
  apply c_str_json_escape, c_str_substring, c_str_idem.
Qed.

(** X22: [escape_json_string] stays within its buffer: the text it leaves
    has at most [buf_size - 1] characters, is the JSON escaping of a prefix
    of the input (read up to its first NUL) that unescaping gives back, has
    at least [min(strlen, buf_size - 2)] characters, and is the escaping of
    the whole input when that fits in [buf_size - 2] characters. *)
Theorem escape_json_string_bounded (s : string) (buf_size : Z) :
  2 <= buf_size <= 2 ^ 64 ->
  let r := escape_json_string s buf_size in
  Z.of_nat (String.length r) <= buf_size - 1 /\
  Z.min (Z.of_nat (String.length (c_str s))) (buf_size - 2) <= Z.of_nat (String.length r) /\
  (exists k, r = json_escape (substring 0 k (c_str s)) /\
             json_unescape r = substring 0 k (c_str s)) /\
  (Z.of_nat (String.length (json_escape (c_str s))) <= buf_size - 2 -> r = json_escape (c_str s)).
Proof.
  intros Hb r. unfold r, escape_json_string.
  assert (Hl : (buf_size - 2) mod 2 ^ 64 = buf_size - 2) by (apply Z.mod_small; lia).
  rewrite Hl. split; [|split; [|split]].
  - pose proof (escape_loop_length s 0 (buf_size - 2)). lia.
  - pose proof (escape_loop_long s 0 (buf_size - 2)). lia.
  - destruct (escape_loop_prefix s 0 (buf_size - 2)) as [k Hk]. exists k. split; [exact Hk|].
    rewrite Hk. apply json_unescape_escape.
  - intros H. apply escape_loop_full. lia.
Qed.

(** X23: below the cap of 32 filters, a string filter ([sqrl_find_eq_str]
    and the like) appends one filter whose value is the escaped value
    between double quotes, cut to 511 characters: when the escaped value has
    more than 509 characters its closing quote is lost, which is always the
    case for a value of 510 characters or more. *)
Theorem find_str_stored_value (op field v : string) (q : sqrl_query_t) :
  (List.length (filters q) < MAX_FILTERS)%nat ->
  let e := escape_json_string v 512 in
  find_str op (Some q) field v =
    Some (mk_query (table_name q)
            (filters q ++ [mk_filter (strncpy_field 127 field) (strncpy_field 15 op)
                             (if (String.length e <=? 509)%nat then (quote ++ e ++ quote)%string
                              else (quote ++ substring 0 510 e)%string)])
            (sorts q) (limit_value q) (skip_value q) (has_limit q) (has_skip q) (is_changes q)) /\
  ((510 <= String.length (c_str v))%nat -> (510 <= String.length e)%nat).
Proof.
  intros Hn e.
  assert (Hlen : (String.length e <= 511)%nat).
  { pose proof (escape_loop_length v 0 510). unfold e, escape_json_string.
    change ((512 - 2) mod 2 ^ 64) with 510. lia. }
  assert (Hc : c_str e = e) by apply escape_json_string_c_str.
  split.
  - unfold find_str. fold e. unfold add_filter.
    replace (MAX_FILTERS <=? List.length (filters q))%nat with false
      by (symmetry; apply Nat.leb_gt; exact Hn).
    do 3 f_equal.
    assert (Hq : c_str (quote ++ e ++ quote)%string = (quote ++ e ++ quote)%string).
    { apply c_str_app_id; [reflexivity|]. apply c_str_app_id; [exact Hc|reflexivity]. }
    unfold strncpy_field.
    rewrite (substring_all (quote ++ e ++ quote)%string 519)
      by (rewrite !str_length_app; cbn [String.length quote]; lia).
    rewrite Hq.
    destruct (String.length e <=? 509)%nat eqn:E.
    + apply Nat.leb_le in E. rewrite (substring_all _ 511); [reflexivity|].
      rewrite !str_length_app; cbn [String.length quote]; lia.
    + apply Nat.leb_gt in E.
      assert (Hs : substring 0 511 (quote ++ e ++ quote)%string = (quote ++ substring 0 510 e)%string).
      { change (substring 0 511 (quote ++ e ++ quote)%string)
          with (String quote_char (substring 0 510 (e ++ quote)%string)).
        rewrite substring_app_le by lia. reflexivity. }
      rewrite Hs. reflexivity.
  - intros H. pose proof (escape_loop_long v 0 510). unfold e, escape_json_string.
    change ((512 - 2) mod 2 ^ 64) with 510. lia.
Qed.

(** X24: filters beyond the 32nd and sorts beyond the 8th are dropped
    without notice: a run of [add_filter] (or [sqrl_sort]) calls appends
    the first entries up to the cap, with field, operator and value cut to
    127, 15 and 511 characters. *)
Theorem builder_caps (q : sqrl_query_t) (fl : list (string * string * string))
    (sl : list (string * sqrl_sort_dir)) :
  fold_left (fun acc '(fd, op, v) => add_filter acc fd op v) fl (Some q)
    = Some (mk_query (table_name q)
              (filters q ++ firstn (MAX_FILTERS - List.length (filters q))
                 (map (fun '(fd, op, v) => mk_filter (strncpy_field 127 fd)
                         (strncpy_field 15 op) (strncpy_field 511 v)) fl))
              (sorts q) (limit_value q) (skip_value q) (has_limit q) (has_skip q) (is_changes q)) /\
  fold_left (fun acc '(fd, d) => sqrl_sort acc fd d) sl (Some q)
    = Some (mk_query (table_name q) (filters q)
              (sorts q ++ firstn (MAX_SORTS - List.length (sorts q))
                 (map (fun '(fd, d) => mk_sort (strncpy_field 127 fd) d) sl))
              (limit_value q) (skip_value q) (has_limit q) (has_skip q) (is_changes q)).
Proof.
  split.
  - revert q. induction fl as [|[[fd op] v] t IH]; intros q.
    + destruct q. cbn [fold_left map]. rewrite firstn_nil, app_nil_r. reflexivity.
    + cbn [fold_left map]. unfold add_filter at 2.
      destruct (MAX_FILTERS <=? List.length (filters q))%nat eqn:E.
      * apply Nat.leb_le in E. rewrite IH.
        replace (MAX_FILTERS - List.length (filters q))%nat with 0%nat by (unfold MAX_FILTERS in *; lia).
        reflexivity.
      * apply Nat.leb_gt in E. rewrite IH. cbn [filters table_name sorts limit_value skip_value has_limit has_skip is_changes].
        rewrite length_app. cbn [List.length].
        replace (MAX_FILTERS - List.length (filters q))%nat
          with (S (MAX_FILTERS - (List.length (filters q) + 1)))%nat by (unfold MAX_FILTERS in *; lia).
        cbn [firstn]. rewrite <- app_assoc. reflexivity.
  - revert q. induction sl as [|[fd d] t IH]; intros q.
    + destruct q. cbn [fold_left map]. rewrite firstn_nil, app_nil_r. reflexivity.
    + cbn [fold_left map]. unfold sqrl_sort at 2.
      destruct (MAX_SORTS <=? List.length (sorts q))%nat eqn:E.
      * apply Nat.leb_le in E. rewrite IH.
        replace (MAX_SORTS - List.length (sorts q))%nat with 0%nat by (unfold MAX_SORTS in *; lia).
        reflexivity.
      * apply Nat.leb_gt in E. rewrite IH. cbn [filters table_name sorts limit_value skip_value has_limit has_skip is_changes].
        rewrite length_app. cbn [List.length].
        replace (MAX_SORTS - List.length (sorts q))%nat
          with (S (MAX_SORTS - (List.length (sorts q) + 1)))%nat by (unfold MAX_SORTS in *; lia).
        cbn [firstn]. rewrite <- app_assoc. reflexivity.
Qed.

(** X25: [sqrl_table] and every builder step keep a query within the
    bounds of its fixed arrays and fields: at most 32 filters and 8 sorts,
    each string NUL-free within its [strncpy] length, limit and skip in
    [0, 2^64). *)
Theorem builder_keeps_bounds (q : sqrl_query_t) (t fd op v : string) (d : sqrl_sort_dir) (n : Z) :
  query_opt_wfb (sqrl_table (Some t)) = true /\
  (query_wfb q = true ->
   query_opt_wfb (add_filter (Some q) fd op v) = true /\
   query_opt_wfb (sqrl_sort (Some q) fd d) = true /\
   (0 <= n < 2 ^ 64 -> query_opt_wfb (sqrl_limit (Some q) n) = true /\
                       query_opt_wfb (sqrl_skip (Some q) n) = true) /\
   query_opt_wfb (sqrl_changes (Some q)) = true).
Proof.
  split.
  - unfold sqrl_table, query_opt_wfb, query_wfb. cbn [table_name filters sorts limit_value skip_value].
    rewrite field_okb_strncpy. reflexivity.
  - intros H. unfold query_wfb in H. repeat rewrite andb_true_iff in H.
    destruct H as [[[[[[[[Ht Hfl] Hfs] Hsl] Hss] Hl1] Hl2] Hs1] Hs2].
    unfold query_opt_wfb, query_wfb. split; [|split; [|split]].
    + unfold add_filter. destruct (MAX_FILTERS <=? List.length (filters q))%nat eqn:E.
      * unfold query_wfb. rewrite Ht, Hfl, Hfs, Hsl, Hss, Hl1, Hl2, Hs1, Hs2. reflexivity.
      * apply Nat.leb_gt in E. cbn [table_name filters sorts limit_value skip_value].
        rewrite Ht, Hsl, Hss, Hl1, Hl2, Hs1, Hs2, forallb_app, Hfs. cbn [forallb f_field f_op f_value].
        rewrite !field_okb_strncpy, length_app. cbn [List.length].
        replace (List.length (filters q) + 1 <=? MAX_FILTERS)%nat with true
          by (symmetry; apply Nat.leb_le; lia). reflexivity.
    + unfold sqrl_sort. destruct (MAX_SORTS <=? List.length (sorts q))%nat eqn:E.
      * unfold query_wfb. rewrite Ht, Hfl, Hfs, Hsl, Hss, Hl1, Hl2, Hs1, Hs2. reflexivity.
      * apply Nat.leb_gt in E. cbn [table_name filters sorts limit_value skip_value].
        rewrite Ht, Hfl, Hfs, Hl1, Hl2, Hs1, Hs2, forallb_app, Hss. cbn [forallb s_field].
        rewrite !field_okb_strncpy, length_app. cbn [List.length].
        replace (List.length (sorts q) + 1 <=? MAX_SORTS)%nat with true
          by (symmetry; apply Nat.leb_le; lia). reflexivity.
    + intros Hn. cbn [sqrl_limit sqrl_skip table_name filters sorts limit_value skip_value].
      rewrite Ht, Hfl, Hfs, Hsl, Hss, Hl1, Hl2, Hs1, Hs2.
      replace (0 <=? n) with true by lia. replace (n <? 2 ^ 64) with true by lia.
      split; reflexivity.
    + cbn [sqrl_changes table_name filters sorts limit_value skip_value].
      rewrite Ht, Hfl, Hfs, Hsl, Hss, Hl1, Hl2, Hs1, Hs2. reflexivity.
Qed.

Lemma get_app_lt (a b : string) (i : nat) :
  (i < String.length a)%nat -> String.get i (a ++ b) = String.get i a.
Proof.
  revert i. induction a as [|c t IH]; intros i H; simpl in H; [lia|].
  destruct i as [|i]; [reflexivity|]. simpl. apply IH. lia.
Qed.

Lemma get_app_ge (a b : string) (i : nat) :
  String.get (String.length a + i) (a ++ b) = String.get i b.
Proof. induction a as [|c t IH]; simpl; [reflexivity|exact IH]. Qed.

Lemma get_lt_length (s : string) (i : nat) :
  (i < String.length s)%nat -> exists c, String.get i s = Some c.
Proof.
  revert i. induction s as [|c t IH]; intros i H; simpl in H; [lia|].
  destruct i as [|i]; [eexists; reflexivity|]. simpl. apply IH. lia.
Qed.

Lemma str_app_nil_r (s : string) : (s ++ EmptyString)%string = s.
Proof. induction s as [|c t IH]; simpl; [reflexivity|]. rewrite IH. reflexivity. Qed.

Lemma concat_empty_sep (ps : list string) :
  String.concat EmptyString ps = fold_right String.append EmptyString ps.
Proof.
  induction ps as [|s t IH]; [reflexivity|].
  destruct t as [|s' t']; simpl.
  - rewrite str_app_nil_r. reflexivity.
  - simpl in IH. rewrite IH. reflexivity.
Qed.

Lemma mod_wrap (off : Z) :
  4096 < off < 2 ^ 63 -> (4096 - off) mod 2 ^ 64 = 4096 - off + 2 ^ 64.
Proof.
  intros H. rewrite <- (Z.mod_add (4096 - off) 1 (2 ^ 64)) by lia.
  apply Z.mod_small. lia.
Qed.

Lemma snprintf_at_flag (m : memory) (off : Z) (s : string) :
  0 <= off < 2 ^ 63 ->
  snd (snprintf_at m off ((BUFFER_SIZE - off) mod 2 ^ 64) s) = (BUFFER_SIZE <? off).
Proof.
  intros Ho. unfold snprintf_at, BUFFER_SIZE.
  destruct (Z.lt_trichotomy off 4096) as [Hlt|[Heq|Hgt]].
  - rewrite Z.mod_small by lia.
    replace (4096 - off =? 0) with false by lia. cbn [snd].
    set (kept := if Z.of_nat (String.length s) <? 4096 - off then s
                 else substring 0 (Z.to_nat (4096 - off - 1)) s).
    assert (Hk : Z.of_nat (String.length kept) <= 4096 - off - 1).
    { unfold kept. destruct (Z.of_nat (String.length s) <? 4096 - off) eqn:E; [lia|].
      pose proof (substring_length_le s (Z.to_nat (4096 - off - 1))). lia. }
    rewrite str_length_app. cbn [String.length].
    replace (off <? 0) with false by lia. replace (4096 <? off) with false by lia.
    apply Z.ltb_ge. lia.
  - subst off. reflexivity.
  - rewrite mod_wrap by lia.
    replace (4096 - off + 2 ^ 64 =? 0) with false by lia. cbn [snd].
    rewrite str_length_app. cbn [String.length].
    replace (off <? 0) with false by lia. replace (4096 <? off) with true by lia.
    apply Z.ltb_lt. lia.
Qed.

Lemma snprintf_chain_flag (ps : list string) (last : string) (m : memory) (off : Z) :
  0 <= off ->
  off + Z.of_nat (String.length (fold_right String.append EmptyString ps)) < 2 ^ 63 ->
  snd (snprintf_chain m off ((BUFFER_SIZE - off) mod 2 ^ 64) ps last)
    = (BUFFER_SIZE <? off + Z.of_nat (String.length (fold_right String.append EmptyString ps))).
Proof.
  revert m off. induction ps as [|s t IH]; intros m off H0 H1.
  - cbn [snprintf_chain fold_right String.length] in *. rewrite Z.add_0_r.
    apply snprintf_at_flag. lia.
  - cbn [snprintf_chain fold_right] in *. rewrite str_length_app in *.
    pose proof (snprintf_at_flag m off s ltac:(lia)) as Hf.
    destruct (snprintf_at m off ((BUFFER_SIZE - off) mod 2 ^ 64) s) as [m1 o1].
    cbn [snd] in Hf. subst o1.
    rewrite Zminus_mod_idemp_l, <- Z.sub_add_distr.
    specialize (IH m1 (off + Z.of_nat (String.length s)) ltac:(lia) ltac:(lia)).
    destruct (snprintf_chain m1 (off + Z.of_nat (String.length s))
                ((BUFFER_SIZE - (off + Z.of_nat (String.length s))) mod 2 ^ 64) t last) as [m2 o2].
    cbn [snd] in IH |- *. subst o2. unfold BUFFER_SIZE.
    destruct (4096 <? off) eqn:E; cbn [orb]; [|f_equal; lia].
    symmetry. apply Z.ltb_lt. apply Z.ltb_lt in E. lia.
Qed.

Ltac zcases :=
  repeat match goal with
         | |- context [?x <=? ?y] => destruct (Z.leb_spec x y)
         | |- context [?x <? ?y] => destruct (Z.ltb_spec x y)
         end; cbn [andb]; try lia.

Lemma mem_write_then (m : memory) (off : Z) (s x : string) (a : Z) :
  (1 <= String.length x)%nat ->
  mem_write (mem_write m off (s ++ String nul_char EmptyString))
            (off + Z.of_nat (String.length s)) x a
  = mem_write m off (s ++ x) a.
Proof.
  intros Hx. unfold mem_write. rewrite !str_length_app. cbn [String.length].
  rewrite !Nat2Z.inj_add. zcases.
  all: first
    [ reflexivity
    | rewrite !get_app_lt by lia; reflexivity
    | replace (Z.to_nat (a - off))
        with (String.length s + Z.to_nat (a - (off + Z.of_nat (String.length s))))%nat by lia;
      assert (Hlt : (Z.to_nat (a - (off + Z.of_nat (String.length s))) < String.length x)%nat)
        by lia;
      destruct (get_lt_length x _ Hlt) as [c Hc];
      rewrite (get_app_ge s x), Hc; reflexivity ].
Qed.

Lemma snprintf_chain_mem (ps : list string) (last : string) (m : memory) (off : Z) (a : Z) :
  0 <= off ->
  off + Z.of_nat (String.length (fold_right String.append EmptyString ps))
      + Z.of_nat (String.length last) < BUFFER_SIZE ->
  fst (snprintf_chain m off ((BUFFER_SIZE - off) mod 2 ^ 64) ps last) a
    = mem_write m off (fold_right String.append EmptyString ps ++ last
                       ++ String nul_char EmptyString) a.
Proof.
  unfold BUFFER_SIZE. revert m off. induction ps as [|s t IH]; intros m off H0 H1.
  - cbn [snprintf_chain fold_right String.length] in *. unfold snprintf_at.
    rewrite Z.mod_small by lia. replace (4096 - off =? 0) with false by lia.
    replace (Z.of_nat (String.length last) <? 4096 - off) with true by lia. reflexivity.
  - cbn [snprintf_chain fold_right] in *. rewrite str_length_app in H1.
    unfold snprintf_at at 1.
    rewrite Z.mod_small by lia. replace (4096 - off =? 0) with false by lia.
    replace (Z.of_nat (String.length s) <? 4096 - off) with true by lia.
    rewrite <- Z.sub_add_distr.
    match goal with |- context [snprintf_chain ?m1 ?o ?r t last] =>
      specialize (IH m1 o ltac:(lia) ltac:(lia)); destruct (snprintf_chain m1 o r t last) as [m2 o2] eqn:Ec
    end.
    cbn [fst] in IH |- *.
    rewrite <- (Z.mod_small (4096 - (off + Z.of_nat (String.length s))) (2 ^ 64)) in Ec by lia.
    rewrite IH, <- str_app_assoc. apply mem_write_then.
    rewrite !str_length_app. cbn [String.length]. lia.
Qed.

Lemma read_c_string_spec (m : memory) (a : Z) (t : string) (fuel : nat) :
  (forall i, (i < String.length t)%nat -> Some (m (a + Z.of_nat i)) = String.get i t) ->
  m (a + Z.of_nat (String.length t)) = nul_char ->
  c_str t = t -> (String.length t < fuel)%nat ->
  read_c_string m a fuel = t.
Proof.
  revert a fuel. induction t as [|c t IH]; intros a fuel Hi Hn Hc Hf; destruct fuel as [|f];
    simpl in Hf; try lia.
  - cbn [read_c_string]. simpl in Hn. rewrite Z.add_0_r in Hn. rewrite Hn. reflexivity.
  - cbn [read_c_string]. simpl in Hc.
    assert (Ha : m a = c).
    { specialize (Hi 0%nat ltac:(simpl; lia)). rewrite Z.add_0_r in Hi. simpl in Hi. congruence. }
    rewrite Ha. destruct (Ascii.eqb c nul_char); [discriminate|]. injection Hc as Hc.
    rewrite IH; [reflexivity| | |exact Hc|lia].
    + intros i Hlt. specialize (Hi (S i) ltac:(simpl; lia)).
      replace (a + 1 + Z.of_nat i) with (a + Z.of_nat (S i)) by lia. exact Hi.
    + simpl in Hn. replace (a + 1 + Z.of_nat (String.length t)) with (a + Z.of_nat (S (String.length t))) by lia.
      exact Hn.
Qed.

Lemma read_c_string_mem_write (m m' : memory) (t : string) (fuel : nat) :
  (forall a, m' a = mem_write m 0 (t ++ String nul_char EmptyString) a) ->
  c_str t = t -> (String.length t < fuel)%nat ->
  read_c_string m' 0 fuel = t.
Proof.
  intros Hm Hc Hf. apply read_c_string_spec; [| |exact Hc|exact Hf].
  - intros i Hi. rewrite Hm. unfold mem_write. rewrite str_length_app. cbn [String.length].
    replace ((0 <=? 0 + Z.of_nat i) && (0 + Z.of_nat i <? 0 + Z.of_nat (String.length t + 1)))
      with true by (symmetry; apply andb_true_iff; split; [apply Z.leb_le|apply Z.ltb_lt]; lia).
    replace (Z.to_nat (0 + Z.of_nat i - 0)) with i by lia.
    rewrite get_app_lt by exact Hi.
    destruct (get_lt_length t i Hi) as [c ->]. reflexivity.
  - rewrite Hm. unfold mem_write. rewrite str_length_app. cbn [String.length].
    replace ((0 <=? 0 + Z.of_nat (String.length t)) && (0 + Z.of_nat (String.length t) <? 0 + Z.of_nat (String.length t + 1)))
      with true by (symmetry; apply andb_true_iff; split; [apply Z.leb_le|apply Z.ltb_lt]; lia).
    replace (Z.to_nat (0 + Z.of_nat (String.length t) - 0)) with (String.length t + 0)%nat by lia.
    rewrite get_app_ge. reflexivity.
Qed.

Lemma c_str_fold_app (ps : list string) :
  Forall (fun s => c_str s = s) ps ->
  c_str (fold_right String.append EmptyString ps) = fold_right String.append EmptyString ps.
Proof.
  induction 1 as [|s t Hs Ht IH]; [reflexivity|]. cbn [fold_right]. apply c_str_app_id; assumption.
Qed.

Lemma field_okb_true (n : nat) (s : string) :
  field_okb n s = true -> c_str s = s /\ (String.length s <= n)%nat.
Proof.
  unfold field_okb. rewrite andb_true_iff, String.eqb_eq, Nat.leb_le. tauto.
Qed.

Lemma query_wfb_true (q : sqrl_query_t) :
  query_wfb q = true ->
  (c_str (table_name q) = table_name q /\ (String.length (table_name q) <= 255)%nat) /\
  (List.length (filters q) <= 32)%nat /\
  Forall (fun f => (c_str (f_field f) = f_field f /\ (String.length (f_field f) <= 127)%nat) /\
                   (c_str (f_op f) = f_op f /\ (String.length (f_op f) <= 15)%nat) /\
                   (c_str (f_value f) = f_value f /\ (String.length (f_value f) <= 511)%nat))
         (filters q) /\
  (List.length (sorts q) <= 8)%nat /\
  Forall (fun s => c_str (s_field s) = s_field s /\ (String.length (s_field s) <= 127)%nat) (sorts q) /\
  0 <= limit_value q < 2 ^ 64 /\ 0 <= skip_value q < 2 ^ 64.
Proof.
  unfold query_wfb. intros H. repeat rewrite andb_true_iff in H.
  destruct H as [[[[[[[[Ht Hfl] Hfs] Hsl] Hss] Hl1] Hl2] Hs1] Hs2].
  split; [apply field_okb_true, Ht|]. split; [apply Nat.leb_le, Hfl|].
  split.
  { apply Forall_forall. intros f Hf. rewrite forallb_forall in Hfs. specialize (Hfs f Hf).
    rewrite !andb_true_iff in Hfs. destruct Hfs as [[A B] C].
    split; [apply field_okb_true, A|split; [apply field_okb_true, B|apply field_okb_true, C]]. }
  split; [apply Nat.leb_le, Hsl|].
  split.
  { apply Forall_forall. intros s Hs. rewrite forallb_forall in Hss. apply field_okb_true, Hss, Hs. }
  lia.
Qed.

Ltac nul_free :=
  repeat first [ reflexivity | assumption | apply c_str_dec_string | apply c_str_app_id ].

Lemma filter_pieces_c_str (i : nat) (fs : list filter_entry) :
  Forall (fun f => c_str (f_field f) = f_field f /\ c_str (f_op f) = f_op f /\ c_str (f_value f) = f_value f) fs ->
  Forall (fun s => c_str s = s) (filter_pieces i fs) /\
  Forall (fun s => c_str s = s) (struct_filter_pieces i fs).
Proof.
  revert i. induction fs as [|f t IH]; intros i H; [split; constructor|].
  inversion H as [|? ? [Hf [Ho Hv]] Ht]; subst.
  destruct (IH (S i) Ht) as [IH1 IH2]. cbn [filter_pieces struct_filter_pieces].
  split; apply Forall_app; (split; [destruct (0 <? i)%nat; repeat constructor|constructor; [|assumption]]).
  - unfold filter_js. repeat destruct (string_dec _ _); nul_free.
  - nul_free.
Qed.

Lemma sort_pieces_c_str (i : nat) (ss : list sort_entry) :
  Forall (fun s => c_str (s_field s) = s_field s) ss ->
  Forall (fun s => c_str s = s) (map sort_js ss) /\
  Forall (fun s => c_str s = s) (struct_sort_pieces i ss).
Proof.
  revert i. induction ss as [|s t IH]; intros i H; [split; constructor|].
  inversion H as [|? ? Hs Ht]; subst.
  destruct (IH (S i) Ht) as [IH1 IH2]. cbn [map struct_sort_pieces].
  split.
  - constructor; [|assumption]. unfold sort_js. destruct (s_direction s); nul_free.
  - apply Forall_app. split; [destruct (0 <? i)%nat; repeat constructor|].
    constructor; [|assumption]. destruct (s_direction s); nul_free.
Qed.

Lemma pieces_c_str (q : sqrl_query_t) :
  query_wfb q = true ->
  Forall (fun s => c_str s = s) (js_pieces q ++ [js_last q]) /\
  Forall (fun s => c_str s = s) (struct_pieces q ++ [struct_last]).
Proof.
  intros H. destruct (query_wfb_true q H) as ([Ht _] & _ & Hf & _ & Hs & _).
  assert (Hf' : Forall (fun f => c_str (f_field f) = f_field f /\ c_str (f_op f) = f_op f
                                 /\ c_str (f_value f) = f_value f) (filters q)).
  { eapply Forall_impl; [|exact Hf]. cbn beta. tauto. }
  assert (Hs' : Forall (fun s => c_str (s_field s) = s_field s) (sorts q)).
  { eapply Forall_impl; [|exact Hs]. cbn beta. tauto. }
  destruct (filter_pieces_c_str 0 _ Hf') as [F1 F2].
  destruct (sort_pieces_c_str 0 _ Hs') as [S1 S2].
  unfold js_pieces, struct_pieces, js_last, struct_last.
  split; repeat (apply Forall_app; split);
    repeat match goal with
           | |- Forall _ (match ?x with _ => _ end) => destruct x
           | |- Forall _ (if ?b then _ else _) => destruct b
           | |- Forall _ (_ :: _) => constructor
           | |- Forall _ [] => constructor
           | |- Forall _ (_ ++ _) => apply Forall_app; split
           end; try assumption; nul_free.
all: destruct (is_changes q); reflexivity.
Qed.

Lemma compile_chain_fits (heap : memory) (ps : list string) (last : string) :
  Forall (fun s => c_str s = s) (ps ++ [last]) ->
  (String.length (String.concat EmptyString ps ++ last) < 4096)%nat ->
  (let (m, oob) := snprintf_chain heap 0 BUFFER_SIZE ps last in
   Some (read_c_string m 0 (Z.to_nat BUFFER_SIZE), oob))
    = Some ((String.concat EmptyString ps ++ last)%string, false).
Proof.
  intros Hc Hl. rewrite concat_empty_sep in *. rewrite str_length_app in Hl.
  apply Forall_app in Hc. destruct Hc as [Hc1 Hc2]. inversion Hc2 as [|? ? Hlast _]; subst.
  change BUFFER_SIZE with ((BUFFER_SIZE - 0) mod 2 ^ 64) at 1.
  pose proof (snprintf_chain_flag ps last heap 0 ltac:(lia) ltac:(lia)) as Hf.
  pose proof (fun a => snprintf_chain_mem ps last heap 0 a ltac:(lia) ltac:(unfold BUFFER_SIZE; lia)) as Hm.
  destruct (snprintf_chain heap 0 ((BUFFER_SIZE - 0) mod 2 ^ 64) ps last) as [m oob].
  cbn [fst snd] in Hf, Hm. subst oob.
  unfold BUFFER_SIZE. replace (4096 <? 0 + Z.of_nat (String.length (fold_right String.append EmptyString ps)))
    with false by lia.
  f_equal. f_equal. apply (read_c_string_mem_write heap).
  - intros a. rewrite Hm, str_app_assoc. reflexivity.
  - apply c_str_app_id; [apply c_str_fold_app|]; assumption.
  - rewrite str_length_app. lia.
Qed.

Lemma fold_length_bound (k : nat) (ps : list string) :
  Forall (fun s => (String.length s <= k)%nat) ps ->
  (String.length (fold_right String.append EmptyString ps) <= k * List.length ps)%nat.
Proof.
  induction 1 as [|s t Hs Ht IH]; cbn [fold_right List.length String.length]; [lia|].
  rewrite str_length_app. lia.
Qed.

Ltac len_bound :=
  cbv zeta; rewrite ?str_length_app; cbn [String.length quote]; lia.

Lemma filter_pieces_bound (i : nat) (fs : list filter_entry) :
  Forall (fun f => (String.length (f_field f) <= 127)%nat /\ (String.length (f_op f) <= 15)%nat
                   /\ (String.length (f_value f) <= 511)%nat) fs ->
  Forall (fun s => (String.length s <= 1000)%nat) (filter_pieces i fs) /\
  Forall (fun s => (String.length s <= 1000)%nat) (struct_filter_pieces i fs) /\
  (List.length (filter_pieces i fs) <= 2 * List.length fs)%nat /\
  (List.length (struct_filter_pieces i fs) <= 2 * List.length fs)%nat.
Proof.
  revert i. induction fs as [|f t IH]; intros i H; [repeat split; simpl; try constructor; lia|].
  inversion H as [|? ? [Hf [Ho Hv]] Ht]; subst.
  destruct (IH (S i) Ht) as (I1 & I2 & I3 & I4). cbn [filter_pieces struct_filter_pieces].
  rewrite !length_app. cbn [List.length].
  split; [|split; [|split]].
  - apply Forall_app. split; [destruct (0 <? i)%nat; repeat constructor; cbn; lia|].
    constructor; [|assumption]. unfold filter_js. repeat destruct (string_dec _ _); len_bound.
  - apply Forall_app. split; [destruct (0 <? i)%nat; repeat constructor; cbn; lia|].
    constructor; [|assumption]. len_bound.
  - destruct (0 <? i)%nat; cbn [List.length]; lia.
  - destruct (0 <? i)%nat; cbn [List.length]; lia.
Qed.

Lemma sort_pieces_bound (i : nat) (ss : list sort_entry) :
  Forall (fun s => (String.length (s_field s) <= 127)%nat) ss ->
  Forall (fun s => (String.length s <= 1000)%nat) (map sort_js ss) /\
  Forall (fun s => (String.length s <= 1000)%nat) (struct_sort_pieces i ss) /\
  (List.length (struct_sort_pieces i ss) <= 2 * List.length ss)%nat.
Proof.
  revert i. induction ss as [|s t IH]; intros i H; [repeat split; simpl; try constructor; lia|].
  inversion H as [|? ? Hs Ht]; subst.
  destruct (IH (S i) Ht) as (I1 & I2 & I3). cbn [map struct_sort_pieces].
  rewrite !length_app. cbn [List.length].
  split; [|split].
  - constructor; [|assumption]. unfold sort_js. destruct (s_direction s); len_bound.
  - apply Forall_app. split; [destruct (0 <? i)%nat; repeat constructor; cbn; lia|].
    constructor; [|assumption]. destruct (s_direction s); len_bound.
  - destruct (0 <? i)%nat; cbn [List.length]; lia.
Qed.

Lemma pieces_length_bound (q : sqrl_query_t) :
  query_wfb q = true ->
  Z.of_nat (String.length (fold_right String.append EmptyString (js_pieces q))) <= 100000 /\
  Z.of_nat (String.length (fold_right String.append EmptyString (struct_pieces q))) <= 100000.
Proof.
  intros H. destruct (query_wfb_true q H) as ([_ Ht] & Hfl & Hf & Hsl & Hs & _).
  assert (Hf' : Forall (fun f => (String.length (f_field f) <= 127)%nat /\ (String.length (f_op f) <= 15)%nat
                   /\ (String.length (f_value f) <= 511)%nat) (filters q)).
  { eapply Forall_impl; [|exact Hf]. cbn beta. tauto. }
  assert (Hs' : Forall (fun s => (String.length (s_field s) <= 127)%nat) (sorts q)).
  { eapply Forall_impl; [|exact Hs]. cbn beta. tauto. }
  destruct (filter_pieces_bound 0 _ Hf') as (F1 & F2 & F3 & F4).
  destruct (sort_pieces_bound 0 _ Hs') as (S1 & S2 & S3).
  pose proof (dec_string_length (limit_value q)) as D1.
  pose proof (dec_string_length (skip_value q)) as D2.
  assert (Hj : Forall (fun s => (String.length s <= 1000)%nat) (js_pieces q) /\
               Forall (fun s => (String.length s <= 1000)%nat) (struct_pieces q)).
  { unfold js_pieces, struct_pieces.
    split; repeat (apply Forall_app; split);
      repeat match goal with
             | |- Forall _ (match ?x with _ => _ end) => destruct x
             | |- Forall _ (if ?b then _ else _) => destruct b
             | |- Forall _ (_ :: _) => constructor
             | |- Forall _ [] => constructor
             | |- Forall _ (_ ++ _) => apply Forall_app; split
             end; try assumption; len_bound. }
  destruct Hj as [J1 J2].
  pose proof (fold_length_bound 1000 _ J1) as B1. pose proof (fold_length_bound 1000 _ J2) as B2.
  assert (C1 : (List.length (js_pieces q) <= 100)%nat).
  { unfold js_pieces. rewrite !length_app, length_map.
    destruct (filters q) as [|f fs]; cbn [List.length] in *; rewrite ?length_app; cbn [List.length];
      destruct (has_limit q), (has_skip q); cbn [List.length]; lia. }
  assert (C2 : (List.length (struct_pieces q) <= 100)%nat).
  { unfold struct_pieces. rewrite !length_app.
    destruct (filters q) as [|f fs]; destruct (sorts q) as [|s ss]; cbn [List.length] in *;
      rewrite ?length_app; cbn [List.length];
      destruct (has_limit q), (has_skip q), (is_changes q); cbn [List.length]; lia. }
  split; nia.
Qed.

Lemma compile_chain_flag (heap : memory) (ps : list string) (last : string) :
  Z.of_nat (String.length (fold_right String.append EmptyString ps)) <= 100000 ->
  exists s, (let (m, oob) := snprintf_chain heap 0 BUFFER_SIZE ps last in
             Some (read_c_string m 0 (Z.to_nat BUFFER_SIZE), oob))
            = Some (s, 4096 <? Z.of_nat (String.length (String.concat EmptyString ps))).
Proof.
  intros Hb. rewrite concat_empty_sep.
  change BUFFER_SIZE with ((BUFFER_SIZE - 0) mod 2 ^ 64) at 1.
  pose proof (snprintf_chain_flag ps last heap 0 ltac:(lia) ltac:(lia)) as Hf.
  destruct (snprintf_chain heap 0 ((BUFFER_SIZE - 0) mod 2 ^ 64) ps last) as [m oob].
  cbn [snd] in Hf. subst oob. eexists. reflexivity.
Qed.

(** X26: for a query within bounds whose compiled text is shorter than
    the 4096-byte buffer, [sqrl_query_compile] and
    [sqrl_query_compile_structured] return that whole text and write only
    inside the buffer. *)
Theorem query_compile_fits (heap : memory) (q : sqrl_query_t) :
  query_wfb q = true ->
  ((String.length (String.concat EmptyString (js_pieces q) ++ js_last q) < 4096)%nat ->
   sqrl_query_compile heap (Some q)
     = Some ((String.concat EmptyString (js_pieces q) ++ js_last q)%string, false)) /\
  ((String.length (String.concat EmptyString (struct_pieces q) ++ struct_last) < 4096)%nat ->
   sqrl_query_compile_structured heap (Some q)
     = Some ((String.concat EmptyString (struct_pieces q) ++ struct_last)%string, false)).
Proof.
  intros H. destruct (pieces_c_str q H) as [P1 P2]. split; intros Hl.
  - apply (compile_chain_fits heap _ _ P1 Hl).
  - apply (compile_chain_fits heap _ _ P2 Hl).
Qed.

(** X27: for a query within bounds, [sqrl_query_compile] and
    [sqrl_query_compile_structured] write outside their 4096-byte buffer
    exactly when the text before the last piece is longer than 4096
    characters: the remaining size wraps around as a [size_t] and the next
    [snprintf] calls write past the buffer. *)
Theorem query_compile_overflow (heap : memory) (q : sqrl_query_t) :
  query_wfb q = true ->
  (exists s, sqrl_query_compile heap (Some q)
     = Some (s, 4096 <? Z.of_nat (String.length (String.concat EmptyString (js_pieces q))))) /\
  (exists s, sqrl_query_compile_structured heap (Some q)
     = Some (s, 4096 <? Z.of_nat (String.length (String.concat EmptyString (struct_pieces q))))).
Proof.
  intros H. destruct (pieces_length_bound q H) as [B1 B2]. split.
  - apply (compile_chain_flag heap _ _ B1).
  - apply (compile_chain_flag heap _ _ B2).
Qed.

Lemma escape_json_string_bounded_witness :
  2 <= 6 <= 2 ^ 64 /\
  Z.of_nat (String.length (escape_json_string ("ab" ++ quote ++ "cd")%string 6)) <= 6 - 1 /\
  escape_json_string ("ab" ++ quote ++ "cd")%string 6 = ("ab" ++ String backslash_char quote)%string.
Proof.
  split; [lia|split].
  - exact (proj1 (escape_json_string_bounded ("ab" ++ quote ++ "cd")%string 6 ltac:(lia))).
  - vm_compute. reflexivity.
Defined.

Lemma find_str_stored_value_witness :
  (List.length (filters (mk_query "t" [] [] 0 0 false false false)) < MAX_FILTERS)%nat /\
  (510 <= String.length (escape_json_string (String.concat EmptyString (List.repeat "x"%string 600)) 512))%nat.
Proof.
  assert (H : (List.length (filters (mk_query "t" [] [] 0 0 false false false)) < MAX_FILTERS)%nat)
    by (cbn; unfold MAX_FILTERS; lia).
  split; [exact H|].
  apply (proj2 (find_str_stored_value "$eq" "name" (String.concat EmptyString (List.repeat "x"%string 600))
                  (mk_query "t" [] [] 0 0 false false false) H)).
  apply Nat.leb_le. vm_compute. reflexivity.
Defined.

Lemma query_compile_fits_witness :
  query_wfb (mk_query "users" [mk_filter "age" "$gt" "30"] [] 10 0 true false false) = true /\
  sqrl_query_compile (fun _ => "a"%char)
    (Some (mk_query "users" [mk_filter "age" "$gt" "30"] [] 10 0 true false false))
  = Some (("db.table(" ++ quote ++ "users" ++ quote ++ ").filter(doc => doc.age > 30).limit(10).run()")%string,
          false).
Proof.
  assert (H : query_wfb (mk_query "users" [mk_filter "age" "$gt" "30"] [] 10 0 true false false) = true)
    by (vm_compute; reflexivity).
  split; [exact H|].
  rewrite (proj1 (query_compile_fits (fun _ => "a"%char) _ H))
    by (apply Nat.ltb_lt; vm_compute; reflexivity).
  try (vm_compute; reflexivity).
Defined.

Lemma query_compile_overflow_witness :
  let v := (quote ++ String.concat EmptyString (List.repeat "x"%string 510))%string in
  let q := mk_query "t" (List.repeat (mk_filter "name" "$eq" v) 8) [] 0 0 false false false in
  fold_left (fun acc _ => sqrl_find_eq_str acc "name" (String.concat EmptyString (List.repeat "x"%string 600)))
    (seq 0 8) (sqrl_table (Some "t"%string)) = Some q /\
  query_wfb q = true /\ exists s, sqrl_query_compile (fun _ => "a"%char) (Some q) = Some (s, true).
Proof.
  intros v q.
  assert (H : query_wfb q = true) by (vm_compute; reflexivity).
  split; [vm_compute; reflexivity|].
  split; [exact H|].
  destruct (proj1 (query_compile_overflow (fun _ => "a"%char) q H)) as [s Hs].
  exists s. rewrite Hs. vm_compute. reflexivity.
Defined.

Lemma builder_keeps_bounds_witness :
  query_wfb (mk_query "users" [] [] 0 0 false false false) = true /\
  query_opt_wfb (sqrl_limit (Some (mk_query "users" [] [] 0 0 false false false)) 10) = true.
Proof.
  assert (H : query_wfb (mk_query "users" [] [] 0 0 false false false) = true)
    by (vm_compute; reflexivity).
  split; [exact H|].
  destruct (builder_keeps_bounds (mk_query "users" [] [] 0 0 false false false)
              "users" "age" "$gt" "30" SQRL_ASC 10) as [_ K].
  destruct (K H) as [_ [_ [L _]]].
  apply L. lia.
Defined.

Lemma resp_encode_args_spec (bs w : Z) (args : list string) :
  w < bs ->
  resp_encode_args bs w args =
  if w + Z.of_nat (String.length (resp_args_text args)) <? bs then Some (resp_args_text args) else None.
Proof.
  revert w. induction args as [|a t IH]; intros w Hw; cbn [resp_encode_args resp_args_text fold_right].
  - simpl. replace (w + 0) with w by lia. rewrite (proj2 (Z.ltb_lt _ _) Hw). reflexivity.
  - fold (resp_args_text t). rewrite str_length_app, Nat2Z.inj_add.
    destruct (Z.leb_spec bs (w + Z.of_nat (String.length (resp_bulk_piece a)))) as [H|H].
    + rewrite (proj2 (Z.ltb_ge _ _)) by lia. reflexivity.
    + rewrite IH by lia. rewrite Z.add_assoc. destruct (_ <? bs); reflexivity.
Qed.

Lemma resp_encode_cmd_spec (b : Z) (l : list string) :
  resp_encode_cmd b l =
    (let full := (resp_cmd_header (List.length l) ++ resp_args_text l)%string in
     if Z.of_nat (String.length full) <? b then Some full else None).
Proof.
  unfold resp_encode_cmd. cbv zeta. rewrite str_length_app, Nat2Z.inj_add.
  destruct (Z.leb_spec b (Z.of_nat (String.length (resp_cmd_header (List.length l))))) as [H|H].
  - rewrite (proj2 (Z.ltb_ge _ _)) by lia. reflexivity.
  - rewrite resp_encode_args_spec by lia. destruct (_ <? b); reflexivity.
Qed.

(** X28: [resp_encode_cmd] writes the header and every bulk argument in full
    when that text fits in the buffer with its NUL, and returns -1 otherwise:
    it never returns a truncated command. [sqrl_cache_get] of a key too long
    for its 4096-byte buffer sends nothing and returns NULL. *)
Theorem resp_encode_cmd_all_or_nothing (bs : Z) (args : list string) :
  resp_encode_cmd bs args =
    (let full := (resp_cmd_header (List.length args) ++ resp_args_text args)%string in
     if Z.of_nat (String.length full) <? bs then Some full else None)
  /\ forall fuel c key send_ok evs,
       CACHE_SEND_BUF_SIZE
         <= Z.of_nat (String.length (resp_cmd_header 2 ++ resp_args_text ["GET"; key])%string) ->
       sqrl_cache_get fuel (Some c) (Some key) send_ok evs = ([], Get_Value None c evs).
Proof.
  pose proof resp_encode_cmd_spec as E.
  split; [apply E|].
  intros fuel c key send_ok evs H. unfold sqrl_cache_get. rewrite E. cbv zeta.
  cbn [List.length]. rewrite (proj2 (Z.ltb_ge _ _) H). reflexivity.
Qed.

Lemma resp_encode_cmd_all_or_nothing_witness :
  sqrl_cache_get 2 (Some (mk_cache 3 [] 0)) (Some (String.concat EmptyString (List.repeat "k"%string 5000)))
    true [] = ([], Get_Value None (mk_cache 3 [] 0) []).
Proof.
  apply (proj2 (resp_encode_cmd_all_or_nothing 0 [])). vm_compute. discriminate.
Defined.

Lemma cache_read_line_full_stuck (fd : Z) (buf : list Byte.byte) (evs : list sock_event) (fuel : nat) :
  List.length buf = CACHE_RECV_BUF_SIZE -> crlf_index buf = None ->
  cache_read_line fuel (mk_cache fd buf 0) evs = RL_NoFuel.
Proof.
  intros Hl Hc. induction fuel as [|f IH]; [reflexivity|].
  cbn [cache_read_line recv_pos recv_buf skipn]. rewrite Hc.
  unfold cache_fill_buffer. cbn [recv_pos recv_buf cache_fd andb Nat.ltb Nat.leb].
  rewrite Hl, Nat.leb_refl. exact IH.
Qed.

(** X29: [cache_read_line] never returns when a line has no CR LF within the
    4096 bytes of the receive buffer: once the buffer is full,
    [cache_fill_buffer] returns 0 without reading and the loop spins. So a
    cache whose pending bytes are all consumed, and whose next [recv] brings
    4096 bytes or more without CR LF in the first 4096, makes
    [cache_read_line] and [resp_read_reply] loop for ever. *)
Theorem cache_read_line_long_line_hangs (c : sqrl_cache) (ch : list Byte.byte) (evs : list sock_event) :
  recv_pos c = List.length (recv_buf c) ->
  (CACHE_RECV_BUF_SIZE <= List.length ch)%nat ->
  crlf_index (firstn CACHE_RECV_BUF_SIZE ch) = None ->
  forall fuel, cache_read_line fuel c (EvData ch :: evs) = RL_NoFuel
               /\ resp_read_reply fuel c (EvData ch :: evs) = Reply_NoFuel.
Proof.
  intros Hp Hl Hc.
  assert (L : forall fuel, cache_read_line fuel c (EvData ch :: evs) = RL_NoFuel).
  { intros [|f]; [reflexivity|].
    destruct c as [fd buf pos]. cbn [recv_pos recv_buf] in Hp.
    cbn [cache_read_line recv_pos recv_buf cache_fd]. subst pos. rewrite skipn_all. cbn [crlf_index].
    assert (Hf : cache_fill_buffer (mk_cache fd buf (List.length buf)) (EvData ch :: evs)
                 = Fill_Ok CACHE_RECV_BUF_SIZE (mk_cache fd (firstn CACHE_RECV_BUF_SIZE ch) 0)
                     (if (List.length ch <=? CACHE_RECV_BUF_SIZE)%nat then evs
                      else EvData (skipn CACHE_RECV_BUF_SIZE ch) :: evs)).
    { unfold cache_fill_buffer. cbn [recv_pos recv_buf cache_fd].
      assert (Hc1 : (if (0 <? List.length buf)%nat && (List.length buf <? List.length buf)%nat
                     then mk_cache fd (skipn (List.length buf) buf) 0
                     else if (0 <? List.length buf)%nat then mk_cache fd [] 0
                     else mk_cache fd buf (List.length buf)) = mk_cache fd [] 0).
      { rewrite Nat.ltb_irrefl, andb_false_r.
        destruct buf; reflexivity. }
      rewrite Hc1. cbn [recv_buf List.length cache_fd recv_pos]. rewrite Nat.sub_0_r.
      destruct ch as [|b ch']; [cbn in Hl; unfold CACHE_RECV_BUF_SIZE in Hl; lia|].
      cbn [cache_recv]. destruct (Nat.leb_spec (List.length (b :: ch')) CACHE_RECV_BUF_SIZE) as [H|H].
      - assert (E : List.length (b :: ch') = CACHE_RECV_BUF_SIZE) by lia.
        rewrite (firstn_all2 (n := CACHE_RECV_BUF_SIZE) (b :: ch')) by lia. rewrite E. reflexivity.
      - rewrite length_firstn, Nat.min_l by lia. reflexivity. }
    rewrite Hf. apply cache_read_line_full_stuck; [|exact Hc].
    rewrite length_firstn. lia. }
  intros fuel. split; [apply L|]. destruct fuel as [|f]; [reflexivity|].
  cbn [resp_read_reply]. rewrite L. reflexivity.
Qed.

Lemma cache_read_line_long_line_hangs_witness :
  cache_read_line 50 (mk_cache 3 [] 0) [EvData (Byte.x2b :: repeat Byte.x61 4095)] = RL_NoFuel
  /\ resp_read_reply 50 (mk_cache 3 [] 0) [EvData (Byte.x2b :: repeat Byte.x61 4095)] = Reply_NoFuel.
Proof.
  apply (cache_read_line_long_line_hangs (mk_cache 3 [] 0) (Byte.x2b :: repeat Byte.x61 4095) []).
  - reflexivity.
  - rewrite length_cons, repeat_length. unfold CACHE_RECV_BUF_SIZE. lia.
  - vm_compute. reflexivity.
Defined.

Lemma dec_string_digits (v : Z) (c : ascii) :
  In c (list_ascii_of_string (dec_string v)) -> (48 <= nat_of_ascii c <= 57)%nat.
Proof.
  unfold dec_string. intros H.
  destruct (dec_digits_aux_chars _ _ _ _ H) as [[]|[x [Hx Hc]]].
  subst c. rewrite nat_ascii_embedding by lia. lia.
Qed.

Lemma dec_digits_aux_cons (f : nat) (w : Z) (a : string) :
  exists d t, dec_digits_aux (S f) w a = String d t.
Proof.
  revert w a. induction f as [|f IH]; intros w a; cbn [dec_digits_aux].
  - destruct (w <? 10); eauto.
  - destruct (w <? 10); [eauto|apply IH].
Qed.

Lemma dec_string_cons (v : Z) : exists d t, dec_string v = String d t.
Proof. apply dec_digits_aux_cons. Qed.

Lemma digits_value_parse (s : string) (a : Z) :
  (forall c, In c (list_ascii_of_string s) -> (48 <= nat_of_ascii c <= 57)%nat) ->
  digits_value s a = parse_dec_aux s a.
Proof.
  revert a. induction s as [|c t IH]; intros a H; [reflexivity|].
  cbn [digits_value parse_dec_aux]. cbn [list_ascii_of_string In] in H.
  assert (Hc := H c (or_introl eq_refl)).
  replace ((48 <=? Z.of_nat (nat_of_ascii c)) && (Z.of_nat (nat_of_ascii c) <=? 57)) with true.
  - apply IH. intros x Hx. apply H. right. exact Hx.
  - symmetry. apply andb_true_iff. split; [apply Z.leb_le|apply Z.leb_le]; lia.
Qed.

Lemma atoi_dec_string (v : Z) : 0 <= v < 2 ^ 31 -> atoi (dec_string v) = v.
Proof.
  intros Hv. unfold atoi, strtol.
  destruct (dec_string_cons v) as [d [t E]].
  assert (Hd : (48 <= nat_of_ascii d <= 57)%nat)
    by (apply (dec_string_digits v); rewrite E; left; reflexivity).
  rewrite E. cbn [skip_c_space].
  replace (is_c_space d) with false
    by (unfold is_c_space; symmetry; apply orb_false_iff; split;
        [apply Nat.eqb_neq; lia|apply andb_false_iff; right; apply Nat.leb_gt; lia]).
  replace (Ascii.eqb d "-"%char) with false
    by (symmetry; apply Ascii.eqb_neq; intros ->; cbn in Hd; lia).
  replace (Ascii.eqb d "+"%char) with false
    by (symmetry; apply Ascii.eqb_neq; intros ->; cbn in Hd; lia).
  rewrite <- E. rewrite digits_value_parse by apply dec_string_digits.
  fold (parse_dec (dec_string v)). rewrite parse_dec_dec_string by lia.
  rewrite Z.min_r, Z.max_r by lia. rewrite Z.mod_small by lia. lia.
Qed.

Lemma bytes_of_string_app (s t : string) :
  bytes_of_string (s ++ t) = bytes_of_string s ++ bytes_of_string t.
Proof. induction s as [|c s IH]; [reflexivity|]. cbn. f_equal. exact IH. Qed.

Lemma bytes_of_string_length (s : string) : List.length (bytes_of_string s) = String.length s.
Proof. induction s as [|c s IH]; [reflexivity|]. cbn. f_equal. exact IH. Qed.

Lemma c_string_bytes_of_string (s : string) :
  ~ In nul_char (list_ascii_of_string s) -> c_string (bytes_of_string s) = s.
Proof.
  induction s as [|c s IH]; intros H; [reflexivity|].
  cbn [bytes_of_string list_ascii_of_string map c_string] in *. fold (bytes_of_string s).
  destruct (Byte.eqb (byte_of_ascii c) Byte.x00) eqn:E.
  - apply Byte.byte_dec_bl in E. apply (f_equal ascii_of_byte) in E.
    rewrite ascii_of_byte_of_ascii in E. subst c. exfalso. apply H. left. reflexivity.
  - rewrite ascii_of_byte_of_ascii, IH by (intros Hi; apply H; right; exact Hi). reflexivity.
Qed.

Lemma crlf_index_cons_ncr (a : Byte.byte) (l : list Byte.byte) :
  Byte.eqb a cr_byte = false ->
  crlf_index (a :: l) = match crlf_index l with Some k => Some (S k) | None => None end.
Proof. intros H. destruct l as [|b l]; [reflexivity|]. cbn [crlf_index]. rewrite H. reflexivity. Qed.

Lemma crlf_index_app (h t : list Byte.byte) :
  (forall b, In b h -> b <> cr_byte) ->
  crlf_index (h ++ cr_byte :: lf_byte :: t) = Some (List.length h).
Proof.
  induction h as [|a h IH]; intros H; [reflexivity|].
  assert (Ha : Byte.eqb a cr_byte = false).
  { destruct (Byte.eqb a cr_byte) eqn:E; [|reflexivity].
    apply Byte.byte_dec_bl in E. exfalso. apply (H a); [left; reflexivity|exact E]. }
  rewrite <- app_comm_cons, crlf_index_cons_ncr by exact Ha.
  rewrite IH by (intros b Hb; apply H; right; exact Hb). reflexivity.
Qed.

Lemma reply_header_no_cr (n : Z) (b : Byte.byte) :
  In b (bytes_of_string ("$" ++ dec_string n)) -> b <> cr_byte.
Proof.
  unfold bytes_of_string. rewrite in_map_iff. intros [c [<- Hc]] E.
  apply (f_equal ascii_of_byte) in E. rewrite ascii_of_byte_of_ascii in E. subst c.
  destruct Hc as [Hc|Hc]; [discriminate Hc|].
  apply dec_string_digits in Hc. cbn in Hc. lia.
Qed.

Lemma reply_header_no_nul (n : Z) :
  ~ In nul_char (list_ascii_of_string ("$" ++ dec_string n)).
Proof.
  intros [Hc|Hc]; [discriminate Hc|].
  apply dec_string_digits in Hc. cbn in Hc. lia.
Qed.

Lemma skipn_length_app {A} (a b : list A) (k : nat) : skipn (List.length a + k) (a ++ b) = skipn k b.
Proof. induction a as [|x a IH]; [reflexivity|]. exact IH. Qed.

Lemma cache_read_line_fresh (fd : Z) (ch : list Byte.byte) (evs : list sock_event) (f : nat) :
  ch <> [] -> (List.length ch <= CACHE_RECV_BUF_SIZE)%nat ->
  cache_read_line (S f) (mk_cache fd [] 0) (EvData ch :: evs) = cache_read_line f (mk_cache fd ch 0) evs.
Proof.
  intros Hne Hl. destruct ch as [|b ch']; [congruence|].
  cbn [cache_read_line recv_pos recv_buf skipn crlf_index]. unfold cache_fill_buffer.
  cbn [recv_pos recv_buf cache_fd Nat.ltb Nat.leb andb List.length].
  replace (CACHE_RECV_BUF_SIZE <=? 0)%nat with false by reflexivity.
  cbn [cache_recv]. rewrite Nat.sub_0_r, (proj2 (Nat.leb_le _ _) Hl). reflexivity.
Qed.

Lemma cache_read_line_found (c : sqrl_cache) (evs : list sock_event) (f k : nat) :
  crlf_index (skipn (recv_pos c) (recv_buf c)) = Some k ->
  cache_read_line (S f) c evs =
    RL_Line (firstn k (skipn (recv_pos c) (recv_buf c)))
            (mk_cache (cache_fd c) (recv_buf c) (recv_pos c + k + 2)) evs.
Proof. intros H. cbn [cache_read_line]. rewrite H. reflexivity. Qed.

Lemma read_bytes_loop_avail (f need : nat) (acc : list Byte.byte) (c : sqrl_cache) (evs : list sock_event) :
  (need <= List.length (recv_buf c) - recv_pos c)%nat ->
  read_bytes_loop (S f) need acc c evs =
    RB_Ok (acc ++ firstn need (skipn (recv_pos c) (recv_buf c)))
          (mk_cache (cache_fd c) (recv_buf c) (recv_pos c + need)) evs.
Proof.
  intros H. destruct c as [fd buf pos]. cbn [recv_buf recv_pos cache_fd] in *.
  destruct need as [|m].
  - cbn [read_bytes_loop firstn]. rewrite app_nil_r, Nat.add_0_r. reflexivity.
  - cbn [read_bytes_loop recv_buf recv_pos cache_fd].
    rewrite (proj2 (Nat.ltb_lt 0 (List.length buf - pos))) by lia.
    rewrite Nat.min_r by lia. rewrite Nat.sub_diag. destruct f; reflexivity.
Qed.

(** X30: GET round trip: on a connected cache with nothing pending, for a key
    whose command fits in the 4096-byte send buffer, [sqrl_cache_get] sends
    the RESP array [GET key] and, when the server's bulk reply for the bytes
    [v] arrives in one [recv] that fits the receive buffer, returns exactly
    [v] (CR LF and NUL bytes included) with the whole reply consumed. *)
Theorem sqrl_cache_get_round_trip (fd : Z) (key : string) (v : list Byte.byte)
    (evs : list sock_event) (fuel : nat) :
  0 <= fd ->
  Z.of_nat (String.length (resp_cmd_header 2 ++ resp_args_text ["GET"; key])%string) < CACHE_SEND_BUF_SIZE ->
  (List.length (resp_bulk_reply v) <= CACHE_RECV_BUF_SIZE)%nat ->
  (2 <= fuel)%nat ->
  sqrl_cache_get fuel (Some (mk_cache fd [] 0)) (Some key) true (EvData (resp_bulk_reply v) :: evs)
  = (bytes_of_string (resp_cmd_header 2 ++ resp_args_text ["GET"; key])%string,
     Get_Value (Some v) (mk_cache fd (resp_bulk_reply v) (List.length (resp_bulk_reply v))) evs).
Proof.
  intros Hfd Henc Hlen Hfuel.
  set (n := List.length v). set (Hd := bytes_of_string ("$" ++ dec_string (Z.of_nat n))).
  set (R := resp_bulk_reply v) in *.
  assert (ER : R = Hd ++ cr_byte :: lf_byte :: v ++ [cr_byte; lf_byte]).
  { unfold R, resp_bulk_reply, Hd. fold n. rewrite !bytes_of_string_app.
    change (bytes_of_string crlf) with [cr_byte; lf_byte]. rewrite <- !app_assoc. reflexivity. }
  assert (ELR : List.length R = (List.length Hd + 2 + n + 2)%nat).
  { rewrite ER, length_app. cbn [List.length]. rewrite length_app. cbn [List.length]. fold n. lia. }
  assert (Hn : (n <= 4096)%nat) by (unfold CACHE_RECV_BUF_SIZE in Hlen; lia).
  destruct fuel as [|[|f]]; [lia|lia|].
  assert (StepA : cache_read_line (S (S f)) (mk_cache fd [] 0) (EvData R :: evs)
                  = RL_Line Hd (mk_cache fd R (List.length Hd + 2)) evs).
  { rewrite cache_read_line_fresh by (try exact Hlen; rewrite ER; unfold Hd; cbn; discriminate).
    rewrite (cache_read_line_found _ _ _ (List.length Hd)); cbn [recv_pos recv_buf cache_fd skipn].
    - rewrite ER, firstn_app, Nat.sub_diag, firstn_all. cbn [firstn]. rewrite app_nil_r. reflexivity.
    - rewrite ER. apply crlf_index_app. intros b Hb. exact (reply_header_no_cr _ b Hb). }
  assert (StepB : cache_read_bytes (S (S f)) n (mk_cache fd R (List.length Hd + 2)) evs
                  = RB_Ok v (mk_cache fd R (List.length R)) evs).
  { unfold cache_read_bytes.
    rewrite read_bytes_loop_avail by (cbn [recv_buf recv_pos]; lia).
    cbn [recv_buf recv_pos cache_fd app].
    assert (Hs : skipn (List.length Hd + 2) R = v ++ [cr_byte; lf_byte])
      by (rewrite ER, skipn_length_app; reflexivity).
    unfold n. rewrite Hs, firstn_app, Nat.sub_diag, firstn_all. cbn [firstn]. rewrite app_nil_r.
    rewrite (cache_read_line_found _ _ _ 0); cbn [recv_pos recv_buf cache_fd].
    - rewrite ELR. do 3 f_equal. lia.
    - rewrite ER, <- Nat.add_assoc, skipn_length_app.
      change (2 + List.length v)%nat with (S (S (List.length v))). cbn [skipn].
      rewrite <- (Nat.add_0_r (List.length v)), skipn_length_app. reflexivity. }
  assert (Hr : resp_read_reply (S (S f)) (mk_cache fd [] 0) (EvData R :: evs)
               = Reply (R_Bulk (Some v)) (mk_cache fd R (List.length R)) evs).
  { cbn [resp_read_reply]. rewrite StepA. unfold Hd at 1.
    rewrite c_string_bytes_of_string by apply reply_header_no_nul.
    cbn [String.append Ascii.eqb Bool.eqb andb]. rewrite atoi_dec_string by lia.
    rewrite (proj2 (Z.ltb_ge _ _)) by lia. rewrite Nat2Z.id. rewrite StepB. reflexivity. }
  unfold sqrl_cache_get. rewrite resp_encode_cmd_spec. cbv zeta. cbn [List.length].
  rewrite (proj2 (Z.ltb_lt _ _) Henc).
  unfold cache_exec_cmd. cbn [cache_fd]. rewrite (proj2 (Z.ltb_ge _ _) Hfd). cbn [negb].
  rewrite Hr. reflexivity.
Qed.

Lemma sqrl_cache_get_round_trip_witness :
  sqrl_cache_get 2 (Some (mk_cache 3 [] 0)) (Some "k"%string) true
    (EvData (resp_bulk_reply [Byte.x61; Byte.x0d; Byte.x0a; Byte.x00]) :: [])
  = (bytes_of_string (resp_cmd_header 2 ++ resp_args_text ["GET"; "k"])%string,
     Get_Value (Some [Byte.x61; Byte.x0d; Byte.x0a; Byte.x00])
       (mk_cache 3 (resp_bulk_reply [Byte.x61; Byte.x0d; Byte.x0a; Byte.x00])
          (List.length (resp_bulk_reply [Byte.x61; Byte.x0d; Byte.x0a; Byte.x00]))) []).
Proof.
  apply (sqrl_cache_get_round_trip 3 "k" [Byte.x61; Byte.x0d; Byte.x0a; Byte.x00] [] 2).
  - lia.
  - vm_compute. reflexivity.
  - vm_compute. lia.
  - lia.
Defined.
